(** * IMS-Toucan: ToucanTTS training architecture, inference architecture
      and meta-training loop

    A shallow embedding of
    - [TTSTrainingInterfaces/ToucanTTS/ToucanTTS.py],
    - [TTSInferenceInterfaces/InferenceArchitectures/InferenceToucanTTS.py],
    - [TTSTrainingInterfaces/ToucanTTS/toucantts_meta_train_loop.py],
    - [run_training_pipeline.py] and [Pipeline_MelGAN_Combined.py],
    followed by the properties of the specification that concern them and
    by further properties of the code. *)

From Stdlib Require Import ZArith QArith Lqa Lia List String.
From stdpp Require Import base option list gmap strings.

Open Scope Z_scope.

(** ** Python exceptions and results

    A call either returns a value or raises.  [Undefined] is not an
    exception of Python: it marks the conversion of a non-finite or
    out-of-range float to an integer, where the call goes on with a value
    that the tensor library leaves to the platform.  Nothing is stated
    about a call that meets it. *)

Inductive exn : Type :=
| ZeroDivisionError
| IndexError
| KeyError
| StopIteration
| AssertionError
| AttributeError
| RuntimeError
| FileNotFoundError
| TypeError
| Undefined.

Inductive result (A : Type) : Type :=
| Ok (a : A)
| Raise (e : exn).

Arguments Ok {A} a.
Arguments Raise {A} e.

Definition rbind {A B : Type} (r : result A) (k : A → result B) : result B :=
  match r with
  | Ok a => k a
  | Raise e => Raise e
  end.

Notation "'do' x <- r ; k" := (rbind r (fun x => k))
  (at level 10, x pattern, r at level 100, k at level 200).

(** Subscription [l[i]] of a Python list or of the first axis of a tensor. *)
Definition subscript {A : Type} (l : list A) (i : nat) : result A :=
  match l !! i with
  | Some x => Ok x
  | None => Raise IndexError
  end.

(** Item assignment [l[i] = x]. *)
Definition assign {A : Type} (l : list A) (i : nat) (x : A) : result (list A) :=
  if decide (i < length l)%nat then Ok (<[i := x]> l) else Raise IndexError.

(** [range(a, b)] *)
Definition range (a b : Z) : list Z :=
  map (fun i => a + Z.of_nat i) (seq 0 (Z.to_nat (b - a))).

(** ** The meta-training loop: step target *)

Module StepTarget.

(** Lines 54-57 of [train_loop]: the requested number of steps is moved to
    one past the next checkpoint boundary.  Python's [%] is the floored
    remainder, as [Z.modulo]; a zero divisor raises. *)
Definition adjust_steps (steps steps_per_checkpoint : Z) : result Z :=
  if steps_per_checkpoint =? 0 then Raise ZeroDivisionError
  else if steps mod steps_per_checkpoint =? 0 then Ok (steps + 1)
  else Ok (steps + ((steps_per_checkpoint + 1) - steps mod steps_per_checkpoint)).

(** Line 105: the step counters the loop body is run for. *)
Definition step_counters (steps_run_previously steps : Z) : list Z :=
  range steps_run_previously steps.

(** The step counters of a fresh run (no checkpoint: [steps_run_previously]
    stays 0). *)
Definition fresh_run (steps steps_per_checkpoint : Z) : result (list Z) :=
  do adjusted <- adjust_steps steps steps_per_checkpoint;
  Ok (step_counters 0 adjusted).

(** The smallest multiple of [d] that is at least [n]. *)
Definition is_next_boundary (d n m : Z) : Prop :=
  (d | m) ∧ n ≤ m ∧ ∀ m', (d | m') → n ≤ m' → m ≤ m'.

End StepTarget.

(** ** Numbers

    Tensor entries and Python floats are IEEE values.  They are modelled
    with their special values written out and with exact rational arithmetic
    on the finite ones: rounding, overflow and the sign of zero are left
    out, the propagation of NaN and of the infinities is kept. *)

Module Num.

Inductive fp : Type :=
| NaN
| PInf
| NInf
| Fin (q : Q).

Definition zero : fp := Fin 0.
Definition one : fp := Fin 1.

Definition is_nan (x : fp) : bool :=
  match x with NaN => true | _ => false end.

Definition is_finite (x : fp) : bool :=
  match x with Fin _ => true | _ => false end.

Definition neg (x : fp) : fp :=
  match x with
  | NaN => NaN
  | PInf => NInf
  | NInf => PInf
  | Fin q => Fin (- q)
  end.

Definition add (x y : fp) : fp :=
  match x, y with
  | NaN, _ | _, NaN => NaN
  | PInf, NInf | NInf, PInf => NaN
  | PInf, _ | _, PInf => PInf
  | NInf, _ | _, NInf => NInf
  | Fin a, Fin b => Fin (a + b)
  end.

Definition sub (x y : fp) : fp := add x (neg y).

(** The infinity with the sign of [q] times [pos], NaN when [q] is zero. *)
Definition inf_times (pos : bool) (q : Q) : fp :=
  match Qcompare q 0 with
  | Eq => NaN
  | Gt => if pos then PInf else NInf
  | Lt => if pos then NInf else PInf
  end.

Definition mul (x y : fp) : fp :=
  match x, y with
  | NaN, _ | _, NaN => NaN
  | PInf, PInf | NInf, NInf => PInf
  | PInf, NInf | NInf, PInf => NInf
  | PInf, Fin q | Fin q, PInf => inf_times true q
  | NInf, Fin q | Fin q, NInf => inf_times false q
  | Fin a, Fin b => Fin (a * b)
  end.

(** [x == y]: false as soon as one side is NaN. *)
Definition eqb (x y : fp) : bool :=
  match x, y with
  | PInf, PInf | NInf, NInf => true
  | Fin a, Fin b => Qeq_bool a b
  | _, _ => false
  end.

(** [x != y] *)
Definition neqb (x y : fp) : bool := negb (eqb x y).

(** [x < y]: false as soon as one side is NaN. *)
Definition ltb (x y : fp) : bool :=
  match x, y with
  | NaN, _ | _, NaN => false
  | _, NInf => false
  | NInf, _ => true
  | PInf, _ => false
  | Fin _, PInf => true
  | Fin a, Fin b => negb (Qle_bool b a)
  end.

(** [x > y] *)
Definition gtb (x y : fp) : bool := ltb y x.

Definition sum (l : list fp) : fp := foldl add zero l.

(** [t.mean()]: the sum over the number of entries; the mean of no entry
    is NaN. *)
Definition mean (l : list fp) : fp :=
  match l with
  | [] => NaN
  | _ => mul (sum l) (Fin (1 # Pos.of_nat (length l)))
  end.

(** [torch.round]: to the nearest integer, ties to the even one. *)
Definition round_half_even (q : Q) : Z :=
  let n := Qnum q in
  let d := Z.pos (Qden q) in
  let fl := n / d in
  match Z.compare (2 * (n mod d)) d with
  | Lt => fl
  | Gt => fl + 1
  | Eq => if Z.even fl then fl else fl + 1
  end.

Definition round (x : fp) : fp :=
  match x with
  | Fin q => Fin (inject_Z (round_half_even q))
  | _ => x
  end.

(** [t.float()] of an integer tensor entry. *)
Definition of_long (z : Z) : fp := Fin (inject_Z z).

Definition int64_min : Z := - 2 ^ 63.
Definition int64_max : Z := 2 ^ 63 - 1.

(** [t.long()] of a float entry: truncation towards zero; for NaN, an
    infinity or a value outside the 64-bit range the result is not
    defined. *)
Definition to_long (x : fp) : result Z :=
  match x with
  | Fin q =>
      let z := Z.quot (Qnum q) (Z.pos (Qden q)) in
      if (int64_min <=? z) && (z <=? int64_max) then Ok z else Raise Undefined
  | _ => Raise Undefined
  end.

(** Equality of values up to the representation of the rationals. *)
Definition equiv (x y : fp) : Prop :=
  match x, y with
  | NaN, NaN | PInf, PInf | NInf, NInf => True
  | Fin a, Fin b => a == b
  | _, _ => False
  end.

End Num.

Export Num (fp, NaN, PInf, NInf, Fin).

(** ** Tensors and linear layers

    A tensor of shape [[Batch, Sequence, Hidden]] is its shape together with
    its entries; the entries outside of the shape are never read. *)

Module Tensor.

Record tensor : Type := {
  size0 : nat;
  size1 : nat;
  size2 : nat;
  entry : nat → nat → nat → fp
}.

(** Two tensors joined along the last axis; the other axes must agree. *)
Definition cat2 (a b : tensor) : result tensor :=
  if ((size0 a =? size0 b) && (size1 a =? size1 b))%nat then
    Ok {| size0 := size0 a;
          size1 := size1 a;
          size2 := size2 a + size2 b;
          entry := fun i j k =>
            if (k <? size2 a)%nat then entry a i j k
            else entry b i j (k - size2 a) |}
  else Raise RuntimeError.

Fixpoint cat_onto (acc : tensor) (tensors : list tensor) : result tensor :=
  match tensors with
  | [] => Ok acc
  | t :: rest => do a <- cat2 acc t; cat_onto a rest
  end.

(** [torch.cat(tensors, dim=2)]: the tensors joined from left to right; a
    list without tensors is refused. *)
Definition cat (tensors : list tensor) : result tensor :=
  match tensors with
  | [] => Raise RuntimeError
  | t :: rest => cat_onto t rest
  end.

(** [torch.split(t, split_size_or_sections=n, dim=-1)]: consecutive chunks
    of width [n] along the last axis, the last one with what is left. *)
Definition split (t : tensor) (n : nat) : list tensor :=
  map (fun c =>
         {| size0 := size0 t;
            size1 := size1 t;
            size2 := Nat.min n (size2 t - c * n);
            entry := fun i j k => entry t i j (c * n + k) |})
      (seq 0 (Nat.max 1 ((size2 t + n - 1) / n))).

Definition same_shape (a b : tensor) : bool :=
  ((size0 a =? size0 b) && (size1 a =? size1 b) && (size2 a =? size2 b))%nat.

(** [torch.stack(tensors)]: a new first axis over tensors of one shape,
    kept as the list of its slices. *)
Definition stack (tensors : list tensor) : result (list tensor) :=
  match tensors with
  | [] => Raise RuntimeError
  | t :: rest =>
      if forallb (same_shape t) rest then Ok tensors else Raise RuntimeError
  end.

(** [torch.nn.Linear(in_features, out_features)] with its parameters. *)
Record Linear : Type := {
  in_features : nat;
  out_features : nat;
  weight : nat → nat → fp;
  bias : nat → fp
}.

Definition dot (n : nat) (x w : nat → fp) : fp :=
  foldl (fun acc c => Num.add acc (Num.mul (x c) (w c))) Num.zero (seq 0 n).

(** The layer applied to the last axis of its input, whose width must be
    [in_features]. *)
Definition linear (l : Linear) (x : tensor) : result tensor :=
  if (size2 x =? in_features l)%nat then
    Ok {| size0 := size0 x;
          size1 := size1 x;
          size2 := out_features l;
          entry := fun i j k =>
            Num.add (dot (in_features l) (entry x i j) (weight l k)) (bias l k) |}
  else Raise RuntimeError.

(** The constructor refuses a negative size. *)
Definition new_Linear (in_f out_f : Z) (w : nat → nat → fp) (b : nat → fp)
  : result Linear :=
  if (0 <=? in_f) && (0 <=? out_f) then
    Ok {| in_features := Z.to_nat in_f;
          out_features := Z.to_nat out_f;
          weight := w;
          bias := b |}
  else Raise RuntimeError.

(** The results of [f] on the items of [l], up to the first that raises. *)
Fixpoint traverse {A B : Type} (f : A → result B) (l : list A) : result (list B) :=
  match l with
  | [] => Ok []
  | x :: rest => do y <- f x; do ys <- traverse f rest; Ok (y :: ys)
  end.

End Tensor.

Export Tensor (tensor, Linear).

(** ** Python values and dictionaries *)

Inductive pyval : Type :=
| PyNone
| PyBool (b : bool)
| PyInt (z : Z)
| PyFloat (x : fp)
| PyStr (s : string).

(** [None] or an integer, for the optional dimensions. *)
Definition py_optional_int (o : option Z) : pyval :=
  match o with
  | Some z => PyInt z
  | None => PyNone
  end.

(** A dictionary display [{k1: v1, k2: v2, ...}]: the items are stored from
    left to right, a later item with a key already present replaces the
    value stored for it. *)
Definition dict_display (items : list (string * pyval)) : gmap string pyval :=
  foldl (fun d kv => <[kv.1 := kv.2]> d) ∅ items.

(** ** The training architecture: construction *)

Module ToucanTTS.

(** The arguments of [ToucanTTS.__init__]. *)
Record arguments : Type := {
  input_feature_dimensions : Z;
  attention_dimension : Z;
  attention_heads : Z;
  positionwise_conv_kernel_size : Z;
  use_scaled_positional_encoding : bool;
  init_type : string;
  use_macaron_style_in_conformer : bool;
  use_cnn_in_conformer : bool;
  encoder_layers : Z;
  encoder_units : Z;
  encoder_normalize_before : bool;
  encoder_concat_after : bool;
  conformer_encoder_kernel_size : Z;
  transformer_enc_dropout_rate : fp;
  transformer_enc_positional_dropout_rate : fp;
  transformer_enc_attn_dropout_rate : fp;
  decoder_layers : Z;
  decoder_units : Z;
  decoder_concat_after : bool;
  conformer_decoder_kernel_size : Z;
  decoder_normalize_before : bool;
  transformer_dec_dropout_rate : fp;
  transformer_dec_positional_dropout_rate : fp;
  transformer_dec_attn_dropout_rate : fp;
  duration_predictor_layers : Z;
  duration_predictor_kernel_size : Z;
  duration_predictor_dropout_rate : fp;
  pitch_predictor_layers : Z;
  pitch_predictor_kernel_size : Z;
  pitch_predictor_dropout : fp;
  pitch_embed_kernel_size : Z;
  pitch_embed_dropout : fp;
  energy_predictor_layers : Z;
  energy_predictor_kernel_size : Z;
  energy_predictor_dropout : fp;
  energy_embed_kernel_size : Z;
  energy_embed_dropout : fp;
  utt_embed_dim : option Z;
  lang_embs : option Z;
  use_conditional_layernorm_embedding_integration : bool;
  num_codebooks : Z;
  codebook_dim : Z;
  codebook_size : Z
}.

(** The default values of the signature. *)
Definition defaults : arguments := {|
  input_feature_dimensions := 62;
  attention_dimension := 256;
  attention_heads := 4;
  positionwise_conv_kernel_size := 1;
  use_scaled_positional_encoding := true;
  init_type := "xavier_uniform";
  use_macaron_style_in_conformer := true;
  use_cnn_in_conformer := false;
  encoder_layers := 6;
  encoder_units := 1280;
  encoder_normalize_before := true;
  encoder_concat_after := false;
  conformer_encoder_kernel_size := 7;
  transformer_enc_dropout_rate := Fin (1 # 10);
  transformer_enc_positional_dropout_rate := Fin (1 # 10);
  transformer_enc_attn_dropout_rate := Fin (1 # 10);
  decoder_layers := 8;
  decoder_units := 1280;
  decoder_concat_after := false;
  conformer_decoder_kernel_size := 1;
  decoder_normalize_before := false;
  transformer_dec_dropout_rate := Fin (1 # 10);
  transformer_dec_positional_dropout_rate := Fin (1 # 10);
  transformer_dec_attn_dropout_rate := Fin (1 # 10);
  duration_predictor_layers := 5;
  duration_predictor_kernel_size := 5;
  duration_predictor_dropout_rate := Fin (2 # 10);
  pitch_predictor_layers := 5;
  pitch_predictor_kernel_size := 5;
  pitch_predictor_dropout := Fin (3 # 10);
  pitch_embed_kernel_size := 1;
  pitch_embed_dropout := Fin 0;
  energy_predictor_layers := 2;
  energy_predictor_kernel_size := 3;
  energy_predictor_dropout := Fin (5 # 10);
  energy_embed_kernel_size := 1;
  energy_embed_dropout := Fin 0;
  utt_embed_dim := Some 512;
  lang_embs := Some 8000;
  use_conditional_layernorm_embedding_integration := false;
  num_codebooks := 9;
  codebook_dim := 8;
  codebook_size := 1024
|}.

(** Lines 101-145: the display assigned to [self.config], item by item. *)
Definition config_items (a : arguments) : list (string * pyval) := [
  ("input_feature_dimensions", PyInt (input_feature_dimensions a));
  ("attention_dimension", PyInt (attention_dimension a));
  ("attention_heads", PyInt (attention_heads a));
  ("positionwise_conv_kernel_size", PyInt (positionwise_conv_kernel_size a));
  ("use_scaled_positional_encoding", PyBool (use_scaled_positional_encoding a));
  ("init_type", PyStr (init_type a));
  ("use_macaron_style_in_conformer", PyBool (use_macaron_style_in_conformer a));
  ("use_cnn_in_conformer", PyBool (use_cnn_in_conformer a));
  ("encoder_layers", PyInt (encoder_layers a));
  ("encoder_units", PyInt (encoder_units a));
  ("encoder_normalize_before", PyBool (encoder_normalize_before a));
  ("encoder_concat_after", PyBool (encoder_concat_after a));
  ("conformer_encoder_kernel_size", PyInt (conformer_encoder_kernel_size a));
  ("transformer_enc_dropout_rate", PyFloat (transformer_enc_dropout_rate a));
  ("transformer_enc_positional_dropout_rate",
     PyFloat (transformer_enc_positional_dropout_rate a));
  ("transformer_enc_attn_dropout_rate", PyFloat (transformer_enc_attn_dropout_rate a));
  ("decoder_layers", PyInt (decoder_layers a));
  ("decoder_units", PyInt (decoder_units a));
  ("decoder_concat_after", PyBool (decoder_concat_after a));
  ("conformer_decoder_kernel_size", PyInt (conformer_decoder_kernel_size a));
  ("decoder_normalize_before", PyBool (decoder_normalize_before a));
  ("transformer_dec_dropout_rate", PyFloat (transformer_dec_dropout_rate a));
  ("transformer_dec_positional_dropout_rate",
     PyFloat (transformer_dec_positional_dropout_rate a));
  ("transformer_dec_attn_dropout_rate", PyFloat (transformer_dec_attn_dropout_rate a));
  ("duration_predictor_layers", PyInt (duration_predictor_layers a));
  ("duration_predictor_kernel_size", PyInt (duration_predictor_kernel_size a));
  ("duration_predictor_dropout_rate", PyFloat (duration_predictor_dropout_rate a));
  ("pitch_predictor_layers", PyInt (pitch_predictor_layers a));
  ("pitch_predictor_kernel_size", PyInt (pitch_predictor_kernel_size a));
  ("pitch_predictor_dropout", PyFloat (pitch_predictor_dropout a));
  ("pitch_embed_kernel_size", PyInt (pitch_embed_kernel_size a));
  ("pitch_embed_dropout", PyFloat (pitch_embed_dropout a));
  ("energy_predictor_layers", PyInt (energy_predictor_layers a));
  ("energy_predictor_kernel_size", PyInt (energy_predictor_kernel_size a));
  ("energy_predictor_dropout", PyFloat (energy_predictor_dropout a));
  ("energy_embed_kernel_size", PyInt (energy_embed_kernel_size a));
  ("energy_embed_dropout", PyFloat (energy_embed_dropout a));
  ("utt_embed_dim", py_optional_int (utt_embed_dim a));
  ("lang_embs", py_optional_int (lang_embs a));
  ("use_conditional_layernorm_embedding_integration",
     PyBool (use_conditional_layernorm_embedding_integration a));
  ("num_codebooks", PyInt (num_codebooks a));
  ("codebook_dim", PyInt (codebook_dim a));
  ("codebook_dim", PyInt (codebook_size a))
].

(** The attributes [__init__] sets from its arguments (lines 101-153); the
    layers are built from them further down. *)
Record attributes : Type := {
  config : gmap string pyval;
  self_input_feature_dimensions : Z;
  self_attention_dimension : Z;
  self_use_scaled_pos_enc : bool;
  self_multilingual_model : bool;
  self_multispeaker_model : bool;
  self_num_codebooks : Z;
  self_codebook_dim : Z
}.

Definition init_attributes (a : arguments) : attributes := {|
  config := dict_display (config_items a);
  self_input_feature_dimensions := input_feature_dimensions a;
  self_attention_dimension := attention_dimension a;
  self_use_scaled_pos_enc := use_scaled_positional_encoding a;
  self_multilingual_model := bool_decide (lang_embs a ≠ None);
  self_multispeaker_model := bool_decide (utt_embed_dim a ≠ None);
  self_num_codebooks := num_codebooks a;
  self_codebook_dim := codebook_dim a
|}.

(** The arguments with another value for [codebook_dim]. *)
Definition with_codebook_dim (a : arguments) (d : Z) : arguments := {|
  input_feature_dimensions := input_feature_dimensions a;
  attention_dimension := attention_dimension a;
  attention_heads := attention_heads a;
  positionwise_conv_kernel_size := positionwise_conv_kernel_size a;
  use_scaled_positional_encoding := use_scaled_positional_encoding a;
  init_type := init_type a;
  use_macaron_style_in_conformer := use_macaron_style_in_conformer a;
  use_cnn_in_conformer := use_cnn_in_conformer a;
  encoder_layers := encoder_layers a;
  encoder_units := encoder_units a;
  encoder_normalize_before := encoder_normalize_before a;
  encoder_concat_after := encoder_concat_after a;
  conformer_encoder_kernel_size := conformer_encoder_kernel_size a;
  transformer_enc_dropout_rate := transformer_enc_dropout_rate a;
  transformer_enc_positional_dropout_rate := transformer_enc_positional_dropout_rate a;
  transformer_enc_attn_dropout_rate := transformer_enc_attn_dropout_rate a;
  decoder_layers := decoder_layers a;
  decoder_units := decoder_units a;
  decoder_concat_after := decoder_concat_after a;
  conformer_decoder_kernel_size := conformer_decoder_kernel_size a;
  decoder_normalize_before := decoder_normalize_before a;
  transformer_dec_dropout_rate := transformer_dec_dropout_rate a;
  transformer_dec_positional_dropout_rate := transformer_dec_positional_dropout_rate a;
  transformer_dec_attn_dropout_rate := transformer_dec_attn_dropout_rate a;
  duration_predictor_layers := duration_predictor_layers a;
  duration_predictor_kernel_size := duration_predictor_kernel_size a;
  duration_predictor_dropout_rate := duration_predictor_dropout_rate a;
  pitch_predictor_layers := pitch_predictor_layers a;
  pitch_predictor_kernel_size := pitch_predictor_kernel_size a;
  pitch_predictor_dropout := pitch_predictor_dropout a;
  pitch_embed_kernel_size := pitch_embed_kernel_size a;
  pitch_embed_dropout := pitch_embed_dropout a;
  energy_predictor_layers := energy_predictor_layers a;
  energy_predictor_kernel_size := energy_predictor_kernel_size a;
  energy_predictor_dropout := energy_predictor_dropout a;
  energy_embed_kernel_size := energy_embed_kernel_size a;
  energy_embed_dropout := energy_embed_dropout a;
  utt_embed_dim := utt_embed_dim a;
  lang_embs := lang_embs a;
  use_conditional_layernorm_embedding_integration :=
    use_conditional_layernorm_embedding_integration a;
  num_codebooks := num_codebooks a;
  codebook_dim := d;
  codebook_size := codebook_size a
|}.

(** *** The classifier heads and the end of [_forward] *)

(** Lines 229-231: one linear head per codebook, head [head] reading
    [attention_dimension + head * codebook_dim] features.  [init] stands
    for the parameter values the heads get from the initialisation or from
    a checkpoint. *)
Definition hierarchical_classifier (self : attributes)
    (init : Z → (nat → nat → fp) * (nat → fp)) : result (list Linear) :=
  Tensor.traverse
    (fun head =>
       Tensor.new_Linear
         (self_attention_dimension self + head * self_codebook_dim self)
         (self_codebook_dim self)
         (init head).1 (init head).2)
    (range 0 (self_num_codebooks self)).

(** What the loop of lines 382-388 carries: the two lists of the source,
    and [head_inputs], the tensor each head was applied to, in head order
    (kept for the statements only). *)
Record heads_state : Type := {
  gold_codec_frames : list tensor;
  predicted_codec_frames : list tensor;
  head_inputs : list tensor
}.

(** Lines 382-388, from head [head_index] on. *)
Fixpoint classifier_loop (is_inference : bool)
    (gold_frames_per_codebook : list tensor)
    (heads : list Linear) (head_index : nat) (st : heads_state)
  : result heads_state :=
  match heads with
  | [] => Ok st
  | classifier_head :: rest =>
      if negb is_inference then
        do x <- Tensor.cat (gold_codec_frames st);
        do y <- Tensor.linear classifier_head x;
        do g <- subscript gold_frames_per_codebook head_index;
        classifier_loop is_inference gold_frames_per_codebook rest (S head_index)
          {| gold_codec_frames := gold_codec_frames st ++ [g];
             predicted_codec_frames := predicted_codec_frames st ++ [y];
             head_inputs := head_inputs st ++ [x] |}
      else
        do x <- Tensor.cat (predicted_codec_frames st);
        do y <- Tensor.linear classifier_head x;
        classifier_loop is_inference gold_frames_per_codebook rest (S head_index)
          {| gold_codec_frames := gold_codec_frames st;
             predicted_codec_frames := predicted_codec_frames st ++ [y];
             head_inputs := head_inputs st ++ [x] |}
  end.

(** Lines 374-390 of [_forward]: from the decoder output to the predicted
    codec frames.  The gold frames are split at the fixed width 8. *)
Definition forward_codec_frames (heads : list Linear) (is_inference : bool)
    (decoded_speech : tensor) (gold_speech : option tensor)
  : result (tensor * heads_state) :=
  do gold_frames_per_codebook <-
    (if negb is_inference then
       match gold_speech with
       | Some g => Tensor.stack (Tensor.split g 8)
       | None => Raise TypeError
       end
     else Ok []);
  do st <- classifier_loop is_inference gold_frames_per_codebook heads 0
             {| gold_codec_frames := if negb is_inference then [decoded_speech] else [];
                predicted_codec_frames := [decoded_speech];
                head_inputs := [] |};
  do codec_frames <- Tensor.cat (tail (predicted_codec_frames st));
  Ok (codec_frames, st).

(** *** The predicted durations in [_forward] *)

(** What [_forward] returns as [predicted_durations] for one text: numbers
    of frames from [DurationPredictor.inference], or the values of the
    predictor's forward call that the training loss is computed on. *)
Inductive durations : Type :=
| Frames (d : list Z)
| LogDurations (d : list fp).

Section Durations.

(** The table of [get_feature_to_index_lookup()], which is not part of
    these sources. *)
Variable feature_index : string → nat.

(** The duration predictor applied to the encoded text, in its two modes. *)
Variable duration_predictor : list (list fp) → list fp.
Variable duration_predictor_inference : list (list fp) → list Z.

(** Lines 344-346: the loop over [enumerate(text_tensors.squeeze(0))], from
    position [phoneme_index] on. *)
Fixpoint word_boundary_loop (phoneme_index : nat) (text : list (list fp))
    (predicted_durations : list Z) : result (list Z) :=
  match text with
  | [] => Ok predicted_durations
  | phoneme_vector :: rest =>
      do word_boundary <- subscript phoneme_vector (feature_index "word-boundary");
      do predicted_durations <-
        (if Num.eqb word_boundary Num.one
         then assign predicted_durations phoneme_index 0
         else Ok predicted_durations);
      word_boundary_loop (S phoneme_index) rest predicted_durations
  end.

(** Lines 337-365 of [_forward], as far as [predicted_durations] goes, for
    one text given as its phoneme vectors. *)
Definition forward_durations (is_inference : bool) (text : list (list fp))
  : result durations :=
  if is_inference then
    do d <- word_boundary_loop 0 text (duration_predictor_inference text);
    Ok (Frames d)
  else
    Ok (LogDurations (duration_predictor text)).

End Durations.

End ToucanTTS.

(** ** The inference architecture *)

Module InferenceToucanTTS.

(** *** Scaling the variance of a curve *)

(** The loop of lines 372-374 over the positions of the curve. *)
Definition clip_negative (sequence : list fp) : list fp :=
  foldl (fun s sequence_index =>
           match s !! sequence_index with
           | Some x => if Num.ltb x Num.zero then <[sequence_index := Num.zero]> s else s
           | None => s
           end)
        sequence (seq 0 (length sequence)).

(** [_scale_variance] on a curve of shape [[1, T, 1]], given by its [T]
    entries. *)
Definition _scale_variance (sequence : list fp) (scale : fp) : list fp :=
  if Num.eqb scale Num.one then sequence
  else
    let average := Num.mean (List.filter (fun x => Num.neqb x Num.zero) sequence) in
    let sequence := map (fun x => Num.sub x average) sequence in
    let sequence := map (fun x => Num.mul x scale) sequence in
    let sequence := map (fun x => Num.add x average) sequence in
    clip_negative sequence.

(** *** Durations, pitch and energy in [_forward] *)

(** [torch.round(d.float() * factor).long()] on one duration. *)
Definition scale_duration (d : Z) (factor : fp) : result Z :=
  Num.to_long (Num.round (Num.mul (Num.of_long d) factor)).

Record curves : Type := {
  pitch_predictions : list fp;
  energy_predictions : list fp;
  predicted_durations : list Z
}.

Section Forward.

(** The table of [get_feature_to_index_lookup()], which is not part of
    these sources: the position of a named feature in a phoneme vector. *)
Variable feature_index : string → nat.

(** The predictors applied to the encoded text; the encoder, the utterance
    embedding and the language id are fixed for one call. *)
Variable pitch_predictor : list (list fp) → list fp.
Variable energy_predictor : list (list fp) → list fp.
Variable duration_predictor_inference : list (list fp) → list Z.

(** Lines 243-250: the body of the loop for one phoneme. *)
Definition override_phoneme (pause_duration_scaling_factor : fp)
    (phoneme_index : nat) (phoneme_vector : list fp) (c : curves) : result curves :=
  do voiced <- subscript phoneme_vector (feature_index "voiced");
  do pitch <-
    (if Num.eqb voiced Num.zero
     then assign (pitch_predictions c) phoneme_index Num.zero
     else Ok (pitch_predictions c));
  do phoneme <- subscript phoneme_vector (feature_index "phoneme");
  do energy <-
    (if Num.eqb phoneme Num.zero
     then assign (energy_predictions c) phoneme_index Num.zero
     else Ok (energy_predictions c));
  do word_boundary <- subscript phoneme_vector (feature_index "word-boundary");
  do durations <-
    (if Num.eqb word_boundary Num.one
     then assign (predicted_durations c) phoneme_index 0
     else Ok (predicted_durations c));
  do silence <- subscript phoneme_vector (feature_index "silence");
  do durations <-
    (if Num.eqb silence Num.one && Num.neqb pause_duration_scaling_factor Num.one
     then
       do d <- subscript durations phoneme_index;
       do scaled <- scale_duration d pause_duration_scaling_factor;
       assign durations phoneme_index scaled
     else Ok durations);
  Ok {| pitch_predictions := pitch;
        energy_predictions := energy;
        predicted_durations := durations |}.

(** Lines 242-250: the loop over [enumerate(text_tensors.squeeze(0))], from
    position [phoneme_index] on. *)
Fixpoint override_loop (pause_duration_scaling_factor : fp)
    (phoneme_index : nat) (text : list (list fp)) (c : curves) : result curves :=
  match text with
  | [] => Ok c
  | phoneme_vector :: rest =>
      do c' <- override_phoneme pause_duration_scaling_factor
                 phoneme_index phoneme_vector c;
      override_loop pause_duration_scaling_factor (S phoneme_index) rest c'
  end.

(** Lines 237-239: a curve given by the caller takes the place of the
    prediction. *)
Definition substitute (text : list (list fp))
    (gold_durations : option (list Z)) (gold_pitch gold_energy : option (list fp))
  : curves :=
  {| pitch_predictions := default (pitch_predictor text) gold_pitch;
     energy_predictions := default (energy_predictor text) gold_energy;
     predicted_durations := default (duration_predictor_inference text) gold_durations |}.

(** Lines 236-250: substitution, then the linguistic overrides. *)
Definition forward_overrides (text : list (list fp))
    (gold_durations : option (list Z)) (gold_pitch gold_energy : option (list fp))
    (pause_duration_scaling_factor : fp) : result curves :=
  override_loop pause_duration_scaling_factor 0 text
    (substitute text gold_durations gold_pitch gold_energy).

(** Lines 236-255 of [_forward] for a batch of one text, given as
    [text_tensors.squeeze(0)]: the durations, the pitch and the energy that
    the call goes on with and returns. *)
Definition forward_curves (text : list (list fp))
    (gold_durations : option (list Z)) (gold_pitch gold_energy : option (list fp))
    (duration_scaling_factor pitch_variance_scale energy_variance_scale
       pause_duration_scaling_factor : fp) : result curves :=
  do c <- forward_overrides text gold_durations gold_pitch gold_energy
            pause_duration_scaling_factor;
  do durations <-
    (if Num.neqb duration_scaling_factor Num.one then
       if Num.gtb duration_scaling_factor Num.zero then
         Tensor.traverse (fun d => scale_duration d duration_scaling_factor)
           (predicted_durations c)
       else Raise AssertionError
     else Ok (predicted_durations c));
  Ok {| pitch_predictions := _scale_variance (pitch_predictions c) pitch_variance_scale;
        energy_predictions := _scale_variance (energy_predictions c) energy_variance_scale;
        predicted_durations := durations |}.

End Forward.

(** *** The codebooks in [_forward] *)

(** One entry of [feat_outs]: [Sequential(Linear, Tanh, Linear)]. *)
Record projector : Type := {
  hidden : Linear;
  output : Linear
}.

Section Codebooks.

Variable tanh : fp → fp.

(** The Conformer of codebook [index] (its class is not part of these
    sources), called without a mask. *)
Variable codebook_decoder : nat → tensor → tensor.

Definition Tanh (x : tensor) : tensor :=
  {| Tensor.size0 := Tensor.size0 x;
     Tensor.size1 := Tensor.size1 x;
     Tensor.size2 := Tensor.size2 x;
     Tensor.entry := fun i j k => tanh (Tensor.entry x i j k) |}.

Definition apply_projector (p : projector) (x : tensor) : result tensor :=
  do h <- Tensor.linear (hidden p) x;
  Tensor.linear (output p) (Tanh h).

(** Lines 188-191: the projector built for every codebook. *)
Definition new_projector (attention_dimension codebook_dim : Z)
    (w1 : nat → nat → fp) (b1 : nat → fp) (w2 : nat → nat → fp) (b2 : nat → fp)
  : result projector :=
  do l1 <- Tensor.new_Linear attention_dimension attention_dimension w1 b1;
  do l2 <- Tensor.new_Linear attention_dimension codebook_dim w2 b2;
  Ok {| hidden := l1; output := l2 |}.

(** Lines 169-191: the projectors of the [n_codebooks] codebooks, [init]
    standing for the parameter values they are loaded with. *)
Definition make_feat_outs (attention_dimension codebook_dim n_codebooks : Z)
    (init : Z → (nat → nat → fp) * (nat → fp) * ((nat → nat → fp) * (nat → fp)))
  : result (list projector) :=
  Tensor.traverse
    (fun index =>
       new_projector attention_dimension codebook_dim
         (init index).1.1 (init index).1.2 (init index).2.1 (init index).2.2)
    (range 0 n_codebooks).

(** What the loop of lines 270-277 carries: [codebook_vectors] of the
    source, and the tensors each decoder and each projector was applied to,
    in codebook order (kept for the statements only). *)
Record codebooks_state : Type := {
  codebook_vectors : list tensor;
  decoder_inputs : list tensor;
  projector_inputs : list tensor
}.

(** Lines 270-272, from codebook [index] on.  The flow of each codebook
    reads [codebook_vectors[-1]] and feeds [postflowed_vectors] only. *)
Fixpoint codebook_loop (decoded_speech : tensor) (feat_outs : list projector)
    (index : nat) (st : codebooks_state) : result codebooks_state :=
  match feat_outs with
  | [] => Ok st
  | codebook_projector :: rest =>
      let decoded_codebook := codebook_decoder index decoded_speech in
      do y <- apply_projector codebook_projector decoded_codebook;
      codebook_loop decoded_speech rest (S index)
        {| codebook_vectors := codebook_vectors st ++ [y];
           decoder_inputs := decoder_inputs st ++ [decoded_speech];
           projector_inputs := projector_inputs st ++ [decoded_codebook] |}
  end.

(** Lines 268-279: the decoded spectrogram and the record of the loop. *)
Definition forward_codebooks (feat_outs : list projector) (decoded_speech : tensor)
  : result (tensor * codebooks_state) :=
  do st <- codebook_loop decoded_speech feat_outs 0
             {| codebook_vectors := []; decoder_inputs := []; projector_inputs := [] |};
  do decoded_spectrogram <- Tensor.cat (codebook_vectors st);
  Ok (decoded_spectrogram, st).

End Codebooks.

End InferenceToucanTTS.

(** ** The meta-training loop *)

Module TrainLoop.

(** *** The sum of the component losses (lines 129-159 and 168) *)

(** [train_loss] starts as the Python float [0.0] and becomes a tensor with
    the first loss that is added to it. *)
Inductive train_loss_value : Type :=
| PythonFloat (x : fp)
| LossTensor (x : fp).

Definition loss_value (v : train_loss_value) : fp :=
  match v with
  | PythonFloat x => x
  | LossTensor x => x
  end.

Definition not_nan (loss : fp) : bool := negb (Num.is_nan loss).

(** [if not torch.isnan(loss): train_loss = train_loss + loss] *)
Definition accumulate (train_loss : train_loss_value) (loss : fp) : train_loss_value :=
  if negb (Num.is_nan loss)
  then LossTensor (Num.add (loss_value train_loss) loss)
  else train_loss.

Definition sum_losses (regression_loss glow_loss duration_loss pitch_loss energy_loss : fp)
  : train_loss_value :=
  let train_loss := PythonFloat Num.zero in
  let train_loss := accumulate train_loss regression_loss in
  let train_loss := accumulate train_loss glow_loss in
  let train_loss := accumulate train_loss duration_loss in
  let train_loss := accumulate train_loss pitch_loss in
  let train_loss := accumulate train_loss energy_loss in
  train_loss.

(** [train_loss.backward()]: the value the gradients are taken of; a Python
    float has no such method. *)
Definition backward (train_loss : train_loss_value) : result fp :=
  match train_loss with
  | LossTensor x => Ok x
  | PythonFloat _ => Raise AttributeError
  end.

(** *** Networks, checkpoints and the files of a run *)

Section Loop.

Context {params optimizer_state scheduler_state embedding Batch Rng : Type}.

(** The network as far as the loop looks at it: [net.state_dict()] and
    [net.config]. *)
Record network : Type := {
  weights : params;
  net_config : gmap string pyval
}.

(** The dictionary of a checkpoint file; a key may be missing from a file
    that was not written by this loop. *)
Record check_dict : Type := {
  model : option params;
  optimizer : option optimizer_state;
  scheduler : option scheduler_state;
  step_counter : option Z;
  default_emb : option embedding;
  config : option (gmap string pyval)
}.

(** [check_dict[key]] *)
Definition item {A : Type} (field : option A) : result A :=
  match field with
  | Some x => Ok x
  | None => Raise KeyError
  end.

(** [checkpoint_{step}.pt] and [best.pt] in the save directory, or a file
    somewhere else. *)
Inductive path : Type :=
| Checkpoint (step : Z)
| Best
| Elsewhere (name : string).

Record files : Type := {
  checkpoints : gmap Z check_dict;
  best : option check_dict;
  elsewhere : gmap string check_dict
}.

Definition torch_load (disk : files) (p : path) : result check_dict :=
  match
    match p with
    | Checkpoint step => checkpoints disk !! step
    | Best => best disk
    | Elsewhere name => elsewhere disk !! name
    end
  with
  | Some d => Ok d
  | None => Raise FileNotFoundError
  end.

Definition torch_save (d : check_dict) (p : path) (disk : files) : files :=
  match p with
  | Checkpoint step =>
      {| checkpoints := <[step := d]> (checkpoints disk);
         best := best disk;
         elsewhere := elsewhere disk |}
  | Best =>
      {| checkpoints := checkpoints disk;
         best := Some d;
         elsewhere := elsewhere disk |}
  | Elsewhere name =>
      {| checkpoints := checkpoints disk;
         best := best disk;
         elsewhere := <[name := d]> (elsewhere disk) |}
  end.

(** What the loop carries from step to step: the network, the optimizer,
    the scheduler, the iterator of every task (the batches it has yet to
    yield), the random state and the files. *)
Record state : Type := {
  net : network;
  optimizer_st : optimizer_state;
  scheduler_st : scheduler_state;
  train_iters : list (list Batch);
  rng : Rng;
  disk : files
}.

(** The helpers of [Utility.utils] and [run_weight_averaging], the
    optimizer, the scheduler, the network's forward pass and the random
    sources are not part of these sources; the loop is written over them. *)
Variable get_most_recent_checkpoint : files → option path.
Variable delete_old_checkpoints : files → nat → files.
Variable get_n_recent_checkpoints_paths : files → nat → list path.
Variable average_checkpoints : files → list path → network * embedding.
Variable save_model_for_use : network → embedding → check_dict.
Variable AdamW : params → fp → optimizer_state.
Variable WarmupScheduler : fp → Z → Z → scheduler_state.
Variable default_embedding : embedding.
(** [collate_and_pad] of lines 19-30 pads and stacks the tensors of the
    drawn batches; it is taken as a function of the drawn batches. *)
Variable collate_and_pad : list Batch → Batch.
(** The five losses of the network on a batch, in the order regression,
    glow, duration, pitch, energy. *)
Variable net_forward : network → Batch → fp * fp * fp * fp * fp.
(** [zero_grad], [backward], [clip_grad_norm_], [optimizer.step] and
    [scheduler.step] on the batch, the last argument telling which of the
    five losses are part of [train_loss]. *)
Variable update :
  network → optimizer_state → scheduler_state → Batch → list bool →
  params * optimizer_state * scheduler_state.
(** [random.sample(list(range(n)), n)] *)
Variable random_sample : Rng → nat → list nat * Rng.
(** [iter(train_loaders[index])], as the batches the iterator will yield. *)
Variable loader_iter : Rng → nat → list Batch * Rng.

(** *** Starting from a checkpoint (lines 79-99) *)

Record start : Type := {
  started : state;
  steps_run_previously : Z;
  (** the early [return] of line 99 *)
  already_done : bool
}.

Definition load_state_dict (n : network) (w : params) : network :=
  {| weights := w; net_config := net_config n |}.

Definition load_checkpoint (resume fine_tune : bool) (path_to_checkpoint : option path)
    (steps : Z) (st : state) : result start :=
  let steps_run_previously := 0 in
  let path_to_checkpoint :=
    if resume then get_most_recent_checkpoint (disk st) else path_to_checkpoint in
  match path_to_checkpoint with
  | Some p =>
      do check_dict <- torch_load (disk st) p;
      do m <- item (model check_dict);
      let net := load_state_dict (net st) m in
      do restored <-
        (if negb fine_tune then
           do o <- item (optimizer check_dict);
           do s <- item (scheduler check_dict);
           do c <- item (step_counter check_dict);
           Ok (o, s, c)
         else Ok (optimizer_st st, scheduler_st st, steps_run_previously));
      let '(o, s, steps_run_previously) := restored in
      Ok {| started := {| net := net; optimizer_st := o; scheduler_st := s;
                          train_iters := train_iters st; rng := rng st;
                          disk := disk st |};
            steps_run_previously := steps_run_previously;
            already_done := steps <? steps_run_previously |}
  | None =>
      Ok {| started := st; steps_run_previously := steps_run_previously;
            already_done := false |}
  end.

(** Lines 66-81: the iterators, the optimizer and the scheduler as they are
    created before any checkpoint is looked at. *)
Fixpoint make_iters (index count : nat) (g : Rng) : list (list Batch) * Rng :=
  match count with
  | O => ([], g)
  | S count' =>
      let '(batches, g1) := loader_iter g index in
      let '(iters, g2) := make_iters (S index) count' g1 in
      (batches :: iters, g2)
  end.

Definition initial_state (n : network) (datasets : nat) (lr : fp)
    (warmup_steps steps : Z) (g : Rng) (d : files) : state :=
  let '(iters, g') := make_iters 0 datasets g in
  {| net := n;
     optimizer_st := AdamW (weights n) lr;
     scheduler_st := WarmupScheduler lr warmup_steps steps;
     train_iters := iters;
     rng := g';
     disk := d |}.

(** *** Drawing the batches of a step (lines 106-117) *)

(** Lines 111-117: the next batch of task [index]; an iterator that has no
    batch left is replaced by a new one of the same loader. *)
Definition next_batch (index : nat) (iters : list (list Batch)) (g : Rng)
  : result (Batch * list (list Batch) * Rng) :=
  do it <- subscript iters index;
  match it with
  | batch :: rest => Ok (batch, <[index := rest]> iters, g)
  | [] =>
      let '(fresh, g') := loader_iter g index in
      match fresh with
      | batch :: rest => Ok (batch, <[index := rest]> iters, g')
      | [] => Raise StopIteration
      end
  end.

(** The batches drawn so far, each with the task it came from (the task is
    kept for the statements only; [batches] of the source is [map snd]). *)
Record drawn : Type := {
  batches : list (nat * Batch);
  iters : list (list Batch);
  gen : Rng
}.

(** Lines 108-117: one pass over the sampled order [order]. *)
Fixpoint draw_pass (batch_size : Z) (order : list nat) (d : drawn) : result drawn :=
  match order with
  | [] => Ok d
  | index :: rest =>
      if Z.of_nat (length (batches d)) <? batch_size then
        do r <- next_batch index (iters d) (gen d);
        let '(batch, iters', g') := r in
        draw_pass batch_size rest
          {| batches := batches d ++ [(index, batch)]; iters := iters'; gen := g' |}
      else draw_pass batch_size rest d
  end.

(** Lines 107-117: the [while] loop; [None] when [fuel] passes were not
    enough. *)
Fixpoint draw_batches (fuel : nat) (batch_size : Z) (datasets : nat) (d : drawn)
  : option (result drawn) :=
  if Z.of_nat (length (batches d)) <? batch_size then
    match fuel with
    | O => None
    | S fuel' =>
        let '(order, g') := random_sample (gen d) datasets in
        match draw_pass batch_size order
                {| batches := batches d; iters := iters d; gen := g' |} with
        | Ok d' => draw_batches fuel' batch_size datasets d'
        | Raise e => Some (Raise e)
        end
    end
  else Some (Ok d).

(** *** The checkpoint block (lines 173-233) *)

(** Line 225: [step_counter > steps * 4 / 5], the quotient taken exactly. *)
Definition in_final_fifth (step_counter steps : Z) : bool :=
  negb (Qle_bool (inject_Z step_counter) (inject_Z (steps * 4) / 5)).

(** Lines 184-191: the dictionary written to [checkpoint_{step_counter}.pt]. *)
Definition checkpoint_dict (step_counter : Z) (st : state) : check_dict :=
  {| model := Some (weights (net st));
     optimizer := Some (optimizer_st st);
     scheduler := Some (scheduler_st st);
     step_counter := Some step_counter;
     default_emb := Some default_embedding;
     config := Some (net_config (net st)) |}.

(** Lines 184-193 and 225-231.  The printed and logged averages and the
    progress plot of lines 182-223 leave the state alone. *)
Definition checkpoint (steps step_counter : Z) (st : state) : result state :=
  let disk1 :=
    torch_save (checkpoint_dict step_counter st) (Checkpoint step_counter) (disk st) in
  let disk2 := delete_old_checkpoints disk1 5 in
  if in_final_fifth step_counter steps then
    let checkpoint_paths := get_n_recent_checkpoints_paths disk2 2 in
    let '(averaged_model, default_embed) := average_checkpoints disk2 checkpoint_paths in
    let disk3 := torch_save (save_model_for_use averaged_model default_embed) Best disk2 in
    do check_dict <- torch_load disk3 Best;
    do m <- item (model check_dict);
    Ok {| net := load_state_dict (net st) m;
          optimizer_st := optimizer_st st;
          scheduler_st := scheduler_st st;
          train_iters := train_iters st;
          rng := rng st;
          disk := disk3 |}
  else
    Ok {| net := net st;
          optimizer_st := optimizer_st st;
          scheduler_st := scheduler_st st;
          train_iters := train_iters st;
          rng := rng st;
          disk := disk2 |}.

(** Line 173 *)
Definition at_checkpoint_boundary (step_counter steps_per_checkpoint : Z) : bool :=
  (step_counter mod steps_per_checkpoint =? 0) && negb (step_counter =? 0).

(** *** One step (lines 105-233) *)

(** Lines 118-233, on the drawn batches. *)
Definition train_on (steps steps_per_checkpoint step_counter : Z)
    (drawn_batches : list Batch) (st : state) : result state :=
  let batch := collate_and_pad drawn_batches in
  let '(regression_loss, glow_loss, duration_loss, pitch_loss, energy_loss) :=
    net_forward (net st) batch in
  let train_loss :=
    sum_losses regression_loss glow_loss duration_loss pitch_loss energy_loss in
  do _ <- backward train_loss;
  let '(w, o, s) :=
    update (net st) (optimizer_st st) (scheduler_st st) batch
      (map (fun l => negb (Num.is_nan l))
         [regression_loss; glow_loss; duration_loss; pitch_loss; energy_loss]) in
  let st' :=
    {| net := load_state_dict (net st) w;
       optimizer_st := o;
       scheduler_st := s;
       train_iters := train_iters st;
       rng := rng st;
       disk := disk st |} in
  if at_checkpoint_boundary step_counter steps_per_checkpoint
  then checkpoint steps step_counter st'
  else Ok st'.

Definition train_step (fuel : nat) (datasets : nat)
    (batch_size steps steps_per_checkpoint step_counter : Z) (st : state)
  : option (result state) :=
  match draw_batches fuel batch_size datasets
          {| batches := []; iters := train_iters st; gen := rng st |} with
  | None => None
  | Some (Raise e) => Some (Raise e)
  | Some (Ok d) =>
      Some (train_on steps steps_per_checkpoint step_counter (map snd (batches d))
              {| net := net st;
                 optimizer_st := optimizer_st st;
                 scheduler_st := scheduler_st st;
                 train_iters := iters d;
                 rng := gen d;
                 disk := disk st |})
  end.

(** Line 105: the steps of the given counters, one after the other. *)
Fixpoint run_steps (fuel : nat) (datasets : nat)
    (batch_size steps steps_per_checkpoint : Z) (counters : list Z) (st : state)
  : option (result state) :=
  match counters with
  | [] => Some (Ok st)
  | step_counter :: rest =>
      match train_step fuel datasets batch_size steps steps_per_checkpoint
              step_counter st with
      | Some (Ok st') =>
          run_steps fuel datasets batch_size steps steps_per_checkpoint rest st'
      | other => other
      end
  end.

(** [train_loop]: [None] when a [while] loop of some step ran out of
    [fuel]. *)
Definition train_loop (fuel : nat) (n : network) (datasets : nat)
    (batch_size steps steps_per_checkpoint : Z) (lr : fp)
    (path_to_checkpoint : option path) (resume fine_tune : bool)
    (warmup_steps : Z) (g : Rng) (d : files) : option (result state) :=
  match StepTarget.adjust_steps steps steps_per_checkpoint with
  | Raise e => Some (Raise e)
  | Ok steps =>
      let st := initial_state n datasets lr warmup_steps steps g d in
      match load_checkpoint resume fine_tune path_to_checkpoint steps st with
      | Raise e => Some (Raise e)
      | Ok s =>
          if already_done s then Some (Ok (started s))
          else
            run_steps fuel datasets batch_size steps steps_per_checkpoint
              (StepTarget.step_counters (steps_run_previously s) steps) (started s)
      end
  end.

End Loop.

End TrainLoop.

(** ** The training architecture: the layout of the returned frames *)

Module Tensor4.

(** A tensor with four axes. *)
Record tensor4 : Type := {
  dim0 : nat;
  dim1 : nat;
  dim2 : nat;
  dim3 : nat;
  entry4 : nat → nat → nat → nat → fp
}.

Definition product (sizes : list Z) : Z := foldr Z.mul 1 sizes.

(** The sizes a [view] ends up with: one size given as -1 is worked out
    from the number of entries, the sizes must then account for all of
    them. *)
Definition infer_size (numel : Z) (sizes : list Z) : result (list Z) :=
  if existsb (fun s => s <? -1) sizes then Raise RuntimeError
  else
    match List.filter (fun s => s =? -1) sizes with
    | [] => if product sizes =? numel then Ok sizes else Raise RuntimeError
    | [_] =>
        let known := product (List.filter (fun s => negb (s =? -1)) sizes) in
        if known =? 0 then Raise RuntimeError
        else if numel mod known =? 0
             then Ok (map (fun s => if s =? -1 then numel / known else s) sizes)
             else Raise RuntimeError
    | _ => Raise RuntimeError
    end.

(** [t.view(s0, s1, s2, s3)] of a contiguous tensor of three axes: the
    entries are the same in row-major order. *)
Definition view (t : tensor) (s0 s1 s2 s3 : Z) : result tensor4 :=
  do sizes <-
    infer_size (Z.of_nat (Tensor.size0 t * Tensor.size1 t * Tensor.size2 t))
      [s0; s1; s2; s3];
  match map Z.to_nat sizes with
  | [n0; n1; n2; n3] =>
      Ok {| dim0 := n0; dim1 := n1; dim2 := n2; dim3 := n3;
            entry4 := fun i j k l =>
              let offset := (((i * n1 + j) * n2 + k) * n3 + l)%nat in
              Tensor.entry t
                (offset / (Tensor.size1 t * Tensor.size2 t))
                (offset / Tensor.size2 t mod Tensor.size1 t)
                (offset mod Tensor.size2 t) |}
  | _ => Raise RuntimeError
  end.

(** [t.transpose(1, 2)], [t.transpose(2, 3)] and [t.transpose(0, 1)] *)
Definition transpose_1_2 (t : tensor4) : tensor4 :=
  {| dim0 := dim0 t; dim1 := dim2 t; dim2 := dim1 t; dim3 := dim3 t;
     entry4 := fun i j k l => entry4 t i k j l |}.

Definition transpose_2_3 (t : tensor4) : tensor4 :=
  {| dim0 := dim0 t; dim1 := dim1 t; dim2 := dim3 t; dim3 := dim2 t;
     entry4 := fun i j k l => entry4 t i j l k |}.

Definition transpose_0_1 (t : tensor4) : tensor4 :=
  {| dim0 := dim1 t; dim1 := dim0 t; dim2 := dim2 t; dim3 := dim3 t;
     entry4 := fun i j k l => entry4 t j i k l |}.

End Tensor4.

Export Tensor4 (tensor4).

Module ToucanTTSForward.
Import ToucanTTS.

(** Lines 397-404 of [_forward]: the predicted frames as
    [[Codebook, Batch, Codes, Sequence]]. *)
Definition codebook_layout (self : attributes) (decoded_speech codec_frames : tensor)
  : result tensor4 :=
  do codec_frames <-
    Tensor4.view codec_frames
      (Z.of_nat (Tensor.size0 decoded_speech)) (Z.of_nat (Tensor.size1 decoded_speech))
      (self_num_codebooks self) (self_codebook_dim self);
  (* [Batch, Sequence, Codebook, Codes] *)
  let codec_frames := Tensor4.transpose_1_2 codec_frames in
  (* [Batch, Codebook, Sequence, Codes] *)
  let codec_frames := Tensor4.transpose_2_3 codec_frames in
  (* [Batch, Codebook, Codes, Sequence] *)
  let codec_frames := Tensor4.transpose_0_1 codec_frames in
  (* [Codebook, Batch, Codes, Sequence] *)
  Ok codec_frames.

(** Lines 374-404 of [_forward]: the first value it returns, with the
    record of the loop over the heads.  The post-flow of lines 392-395
    reads the frames and leaves them as they are. *)
Definition forward_frames (self : attributes) (heads : list Linear) (is_inference : bool)
    (decoded_speech : tensor) (gold_speech : option tensor)
  : result (tensor4 * heads_state) :=
  do r <- forward_codec_frames heads is_inference decoded_speech gold_speech;
  let '(codec_frames, st) := r in
  do codec_frames <- codebook_layout self decoded_speech codec_frames;
  Ok (codec_frames, st).

End ToucanTTSForward.

(** ** The entry point of the training pipelines *)

Module RunTrainingPipeline.

(** The [run] functions of the training pipelines, which are not part of
    these sources. *)
Inductive pipeline : Type :=
| fine_tuning_example
| tt_integration_test
| nancy
| mls
| nancystoch
| meta
| embedding
| aligner.

(** Lines 17-31 *)
Definition pipeline_dict : list (string * pipeline) :=
  [("finetuning_example", fine_tuning_example);
   ("tt_it", tt_integration_test);
   ("nancy", nancy);
   ("mls", mls);
   ("nancystoch", nancystoch);
   ("meta", meta);
   ("embedding", embedding);
   ("aligner", aligner)].

(** [pipeline_dict[key]] *)
Fixpoint getitem (items : list (string * pipeline)) (key : string) : result pipeline :=
  match items with
  | [] => Raise KeyError
  | (k, v) :: rest => if String.eqb k key then Ok v else getitem rest key
  end.

(** [list(pipeline_dict.keys())] *)
Definition keys (items : list (string * pipeline)) : list string := map fst items.

(** The parsed command line (lines 37-76). *)
Record arguments : Type := {
  args_pipeline : string;
  gpu_id : string;
  resume_checkpoint : option string;
  resume : bool;
  finetune : bool;
  model_save_dir : option string;
  wandb : bool;
  wandb_resume_id : option string
}.

(** What the script hands to the pipeline it runs (lines 99-105). *)
Record call : Type := {
  callee : pipeline;
  call_gpu_id : string;
  call_resume_checkpoint : option string;
  call_resume : bool;
  call_finetune : bool;
  call_model_dir : option string;
  call_use_wandb : bool;
  call_wandb_resume_id : option string
}.

Inductive device : Type :=
| cpu
| cuda.

(** How the script ends: the parser refuses the command line, the script
    exits at line 80, or it runs a pipeline with the environment and the
    device it has set up. *)
Inductive outcome : Type :=
| Usage
| SystemExit
| Run (environ : gmap string string) (d : device) (c : call).

(** Lines 33-105, on the parsed command line and the environment
    variables; the parser accepts the names of [pipeline_dict] only.  The
    messages printed and the seeding of the random generators (lines
    93-97) are left out. *)
Definition main (args : arguments) (environ : gmap string string) : result outcome :=
  if negb (bool_decide (args_pipeline args ∈ keys pipeline_dict)) then Ok Usage
  else if finetune args && bool_decide (resume_checkpoint args = None) && negb (resume args)
  then Ok SystemExit
  else
    let '(environ, device) :=
      if String.eqb (gpu_id args) "cpu" then
        (<["CUDA_VISIBLE_DEVICES" := ""]> environ, cpu)
      else
        (<["CUDA_VISIBLE_DEVICES" := gpu_id args]>
           (<["CUDA_DEVICE_ORDER" := "PCI_BUS_ID"]> environ), cuda) in
    do run <- getitem pipeline_dict (args_pipeline args);
    Ok (Run environ device
          {| callee := run;
             call_gpu_id := gpu_id args;
             call_resume_checkpoint := resume_checkpoint args;
             call_resume := resume args;
             call_finetune := finetune args;
             call_model_dir := model_save_dir args;
             call_use_wandb := wandb args;
             call_wandb_resume_id := wandb_resume_id args |}).

End RunTrainingPipeline.

(** ** The training script of the combined vocoder *)

Module PipelineMelGANCombined.

(** The corpora of the script, in the order in which their datasets are
    joined (lines 75-98). *)
Inductive corpus : Type :=
| ljspeech
| css10ge
| css10gr
| css10es
| css10fi
| css10ru
| css10hu
| css10du
| css10jp
| css10ch
| css10fr
| thorsten.

Definition corpora : list corpus :=
  [ljspeech; css10ge; css10gr; css10es; css10fi; css10ru;
   css10hu; css10du; css10jp; css10ch; css10fr; thorsten].

(** [l[:-n]] and [l[-n:]] for a positive [n]. *)
Definition up_to_last {A : Type} (n : nat) (l : list A) : list A :=
  take (length l - n) l.

Definition last_n {A : Type} (n : nat) (l : list A) : list A :=
  drop (length l - n) l.

Section Script.

(** [get_file_list_ljspeech()] and the like, from [Utility.file_lists],
    which is not part of these sources; the two calls for a corpus are
    taken to give the same list. *)
Variable get_file_list : corpus → list string.

(** Lines 39-73: the paths handed to the training and to the validation
    dataset of a corpus. *)
Definition train_paths (c : corpus) : list string := up_to_last 50 (get_file_list c).
Definition valid_paths (c : corpus) : list string := last_n 50 (get_file_list c).

(** Lines 75-98: the datasets joined by [ConcatDataset], as their paths. *)
Definition train_set : list (list string) := map train_paths corpora.
Definition valid_set : list (list string) := map valid_paths corpora.

End Script.

End PipelineMelGANCombined.

(** * Properties *)

(** ** The step target *)

Module StepTargetProperties.
Import StepTarget.

Lemma range_length a b : length (range a b) = Z.to_nat (b - a).
Proof. unfold range. by rewrite length_map, length_seq. Qed.

Lemma range_lookup a b (i : nat) :
  (Z.of_nat i < b - a) → range a b !! i = Some (a + Z.of_nat i).
Proof.
  intros Hi. unfold range. rewrite list_lookup_fmap.
  rewrite lookup_seq_lt by lia. reflexivity.
Qed.

Lemma range_last a b : a < b → last (range a b) = Some (b - 1).
Proof.
  intros Hab. rewrite last_lookup, range_length.
  rewrite range_lookup by lia. f_equal. lia.
Qed.

Lemma next_boundary_spec steps spc :
  0 < spc →
  is_next_boundary spc steps (spc * ((steps + spc - 1) / spc)).
Proof.
  intros Hspc. set (q := (steps + spc - 1) / spc).
  assert (Hq : spc * q ≤ steps + spc - 1 < spc * q + spc).
  { pose proof (Z.div_mod (steps + spc - 1) spc ltac:(lia)) as Hdm.
    pose proof (Z.mod_pos_bound (steps + spc - 1) spc Hspc) as Hb.
    fold q in Hdm. lia. }
  repeat split.
  - exists q. lia.
  - lia.
  - intros m' [k ->] Hk.
    assert (Hlt : spc * q < spc * (k + 1)) by lia.
    apply Z.mul_lt_mono_pos_l in Hlt; [|lia].
    rewrite (Z.mul_comm k spc). apply Z.mul_le_mono_nonneg_l; lia.
Qed.

Lemma adjust_steps_boundary steps spc :
  0 < spc →
  adjust_steps steps spc = Ok (spc * ((steps + spc - 1) / spc) + 1).
Proof.
  intros Hspc. unfold adjust_steps.
  destruct (Z.eqb_spec spc 0) as [|_]; [lia|].
  pose proof (Z.div_mod steps spc ltac:(lia)) as Hdm.
  pose proof (Z.mod_pos_bound steps spc Hspc) as Hb.
  destruct (Z.eqb_spec (steps mod spc) 0) as [H0|Hn0]; f_equal.
  - assert (Heq : (steps + spc - 1) / spc = steps / spc).
    { symmetry. apply Z.div_unique with (r := spc - 1); lia. }
    rewrite Heq. lia.
  - assert (Heq : (steps + spc - 1) / spc = steps / spc + 1).
    { symmetry. apply Z.div_unique with (r := steps mod spc - 1); lia. }
    rewrite Heq. lia.
Qed.

(** The reading of the termination rule under which the number of steps of
    a fresh run is the next checkpoint boundary itself. *)
Definition claimed_steps_executed (steps steps_per_checkpoint : Z) : Prop :=
  ∀ counters m,
    fresh_run steps steps_per_checkpoint = Ok counters →
    is_next_boundary steps_per_checkpoint steps m →
    Z.of_nat (length counters) = m.

(** C6, as stated, fails: asked for 10 steps with a checkpoint every 5, the
    loop runs the 11 step counters 0..10, not 10 steps. *)
Lemma steps_executed_counterexample : ¬ claimed_steps_executed 10 5.
Proof.
  intros H. specialize (H (range 0 11) 10).
  assert (Hb : is_next_boundary 5 10 10).
  { repeat split; [by exists 2 | lia | intros m' _ ?; lia]. }
  specialize (H eq_refl Hb). vm_compute in H. discriminate.
Qed.

(** C6, amended: a fresh run with a positive checkpoint interval and a
    non-negative step target runs the step counters 0..m, where m is the
    smallest multiple of the interval that is at least the target; these
    are m + 1 steps and the last step counter is the boundary m. *)
Theorem steps_executed_one_past_boundary steps steps_per_checkpoint :
  0 < steps_per_checkpoint → 0 ≤ steps →
  ∃ m, is_next_boundary steps_per_checkpoint steps m
       ∧ fresh_run steps steps_per_checkpoint = Ok (range 0 (m + 1))
       ∧ Z.of_nat (length (range 0 (m + 1))) = m + 1
       ∧ last (range 0 (m + 1)) = Some m.
Proof.
  intros Hspc Hsteps.
  pose proof (next_boundary_spec steps steps_per_checkpoint Hspc) as Hb.
  set (m := steps_per_checkpoint
            * ((steps + steps_per_checkpoint - 1) / steps_per_checkpoint)) in *.
  assert (Hm : 0 ≤ m) by (destruct Hb as (_ & ? & _); lia).
  exists m. split; [exact Hb|]. split; [|split].
  - unfold fresh_run. rewrite adjust_steps_boundary by done. reflexivity.
  - rewrite range_length. lia.
  - rewrite range_last by lia. f_equal. lia.
Qed.

Lemma steps_executed_witness :
  ∃ m, is_next_boundary 5 10 m
       ∧ fresh_run 10 5 = Ok (range 0 (m + 1))
       ∧ Z.of_nat (length (range 0 (m + 1))) = m + 1
       ∧ last (range 0 (m + 1)) = Some m.
Proof. apply (steps_executed_one_past_boundary 10 5); lia. Defined.

End StepTargetProperties.

(** ** The stored configuration *)

Module ConfigProperties.
Import ToucanTTS.

(** C9: the configuration stored by the constructor maps "codebook_dim" to
    the codebook_size argument (1024 by default, while the attribute
    codebook_dim is 8); it is the same whatever the codebook_dim argument
    is, so none of its keys records that argument, and it has no key
    "codebook_size"; the loop writes this configuration under "config" into
    every checkpoint dictionary. *)
Theorem config_codebook_dim_holds_codebook_size :
  (∀ a, config (init_attributes a) !! "codebook_dim" = Some (PyInt (codebook_size a)))
  ∧ config (init_attributes defaults) !! "codebook_dim" = Some (PyInt 1024)
  ∧ (∀ a, self_codebook_dim (init_attributes a) = codebook_dim a)
  ∧ self_codebook_dim (init_attributes defaults) = 8
  ∧ (∀ a d d',
        config (init_attributes (with_codebook_dim a d))
        = config (init_attributes (with_codebook_dim a d')))
  ∧ (∀ a, config (init_attributes a) !! "codebook_size" = None)
  ∧ (∀ (params optimizer_state scheduler_state embedding Batch Rng : Type)
       (default_embedding : embedding) (step_counter : Z)
       (st : @TrainLoop.state params optimizer_state scheduler_state embedding Batch Rng),
        TrainLoop.config (TrainLoop.checkpoint_dict default_embedding step_counter st)
        = Some (TrainLoop.net_config (TrainLoop.net st))).
Proof.
  split_and!.
  - intros a. vm_compute. reflexivity.
  - vm_compute. reflexivity.
  - reflexivity.
  - reflexivity.
  - intros a d d'.
    unfold init_attributes, config, config_items, dict_display.
    cbn [foldl fst snd with_codebook_dim codebook_dim codebook_size].
    by rewrite !insert_insert_eq.
  - intros a. vm_compute. reflexivity.
  - reflexivity.
Qed.

End ConfigProperties.

(** ** The sum of the component losses *)

Module LossProperties.
Import TrainLoop.

(** The reading under which every non-finite loss is left out of the sum. *)
Definition claimed_sum (regression_loss glow_loss duration_loss pitch_loss energy_loss : fp)
  : Prop :=
  loss_value (sum_losses regression_loss glow_loss duration_loss pitch_loss energy_loss)
  = Num.sum (List.filter Num.is_finite
               [regression_loss; glow_loss; duration_loss; pitch_loss; energy_loss]).

(** C3, as stated, fails: an infinite reconstruction loss is added to the
    sum, which becomes infinite instead of the sum 4 of the finite ones. *)
Lemma infinite_loss_counterexample :
  ¬ claimed_sum PInf (Fin 1) (Fin 1) (Fin 1) (Fin 1).
Proof. unfold claimed_sum. vm_compute. discriminate. Qed.

(** C3, amended: the sum used for the backward pass is the sum, in the
    order regression, glow, duration, pitch, energy, of exactly the
    component losses that are not NaN; a NaN component does not make the
    sum NaN (it is finite when the other components are), and the backward
    pass runs on it as soon as one component is not NaN. *)
Theorem nan_losses_left_out (regression_loss glow_loss duration_loss pitch_loss energy_loss : fp) :
  let losses := [regression_loss; glow_loss; duration_loss; pitch_loss; energy_loss] in
  let train_loss :=
    sum_losses regression_loss glow_loss duration_loss pitch_loss energy_loss in
  loss_value train_loss = Num.sum (List.filter not_nan losses)
  ∧ (forallb (fun l => Num.is_nan l || Num.is_finite l) losses = true →
     Num.is_finite (loss_value train_loss) = true)
  ∧ (existsb not_nan losses = true →
     backward train_loss = Ok (Num.sum (List.filter not_nan losses))).
Proof.
  destruct regression_loss, glow_loss, duration_loss, pitch_loss, energy_loss;
    cbn; repeat split; try reflexivity; try discriminate.
Qed.

Lemma nan_losses_witness :
  Num.is_finite (loss_value (sum_losses NaN (Fin 1) (Fin 2) NaN (Fin 3))) = true
  ∧ backward (sum_losses NaN (Fin 1) (Fin 2) NaN (Fin 3))
    = Ok (Num.sum [Fin 1; Fin 2; Fin 3]).
Proof.
  destruct (nan_losses_left_out NaN (Fin 1) (Fin 2) NaN (Fin 3)) as (_ & H2 & H3).
  split; [apply H2; reflexivity | apply H3; reflexivity].
Defined.

End LossProperties.

(** ** Checkpoints *)

Module CheckpointProperties.
Import TrainLoop.

Section Checkpoints.

Context {params optimizer_state scheduler_state embedding Batch Rng : Type}.

Abbreviation state := (@state params optimizer_state scheduler_state embedding Batch Rng).
Abbreviation files := (@files params optimizer_state scheduler_state embedding).
Abbreviation check_dict := (@check_dict params optimizer_state scheduler_state embedding).
Abbreviation network := (@network params).

Variable get_most_recent_checkpoint : files → option path.
Variable delete_old_checkpoints : files → nat → files.
Variable get_n_recent_checkpoints_paths : files → nat → list path.
Variable average_checkpoints : files → list path → network * embedding.
Variable save_model_for_use : network → embedding → check_dict.
Variable AdamW : params → fp → optimizer_state.
Variable WarmupScheduler : fp → Z → Z → scheduler_state.
Variable default_embedding : embedding.
Variable loader_iter : Rng → nat → list Batch * Rng.

Lemma initial_state_eq (n : network) datasets lr warmup_steps steps (g : Rng) (d : files) :
  initial_state AdamW WarmupScheduler loader_iter n datasets lr warmup_steps steps g d
  = {| net := n;
       optimizer_st := AdamW (weights n) lr;
       scheduler_st := WarmupScheduler lr warmup_steps steps;
       train_iters := (make_iters loader_iter 0 datasets g).1;
       rng := (make_iters loader_iter 0 datasets g).2;
       disk := d |}.
Proof.
  unfold initial_state. by destruct (make_iters _ _ _ _) as [its g'].
Qed.

(** C8: started from a checkpoint (the most recent one when resuming, the
    given one otherwise) that holds a model, an optimizer state, a
    scheduler state and a step counter, the loop takes all four from it
    when fine-tuning is off; when fine-tuning is on it takes the model
    weights only: the optimizer and the scheduler stay as they were freshly
    created and the step counter stays 0.  Nothing else of the state
    changes. *)
Theorem load_checkpoint_restores
    (n : network) (datasets : nat) (lr : fp) (warmup_steps steps : Z)
    (g : Rng) (d : files)
    (resume fine_tune : bool) (path_to_checkpoint : option path)
    (p : path) (saved : check_dict) (m : params) (o : optimizer_state)
    (s : scheduler_state) (c : Z) :
  (if resume then get_most_recent_checkpoint d else path_to_checkpoint) = Some p →
  torch_load d p = Ok saved →
  model saved = Some m →
  optimizer saved = Some o →
  scheduler saved = Some s →
  step_counter saved = Some c →
  load_checkpoint get_most_recent_checkpoint resume fine_tune path_to_checkpoint steps
    (initial_state AdamW WarmupScheduler loader_iter n datasets lr warmup_steps steps g d)
  = Ok {| started :=
            {| net := {| weights := m; net_config := net_config n |};
               optimizer_st := if fine_tune then AdamW (weights n) lr else o;
               scheduler_st :=
                 if fine_tune then WarmupScheduler lr warmup_steps steps else s;
               train_iters := (make_iters loader_iter 0 datasets g).1;
               rng := (make_iters loader_iter 0 datasets g).2;
               disk := d |};
          steps_run_previously := if fine_tune then 0 else c;
          already_done := steps <? (if fine_tune then 0 else c) |}.
Proof.
  intros Hp Hload Hm Ho Hs Hc.
  rewrite initial_state_eq. unfold load_checkpoint. cbn [disk].
  rewrite Hp. cbn [rbind]. rewrite Hload. cbn [rbind].
  rewrite Hm. cbn [item rbind].
  destruct fine_tune; cbn [negb rbind]; [reflexivity|].
  rewrite Ho, Hs, Hc. reflexivity.
Qed.

(** The comparison of line 225 on integers. *)
Lemma in_final_fifth_spec step_counter steps :
  in_final_fifth step_counter steps = bool_decide (4 * steps < 5 * step_counter).
Proof.
  apply eq_true_iff_eq. rewrite bool_decide_eq_true.
  unfold in_final_fifth. rewrite negb_true_iff, <- not_true_iff_false, Qle_bool_iff.
  unfold Qle, Qdiv, Qmult, Qinv, inject_Z. cbn. lia.
Qed.

Lemma checkpoint_eq (steps step_counter : Z) (st : state) :
  (∀ averaged e, model (save_model_for_use averaged e) = Some (weights averaged)) →
  let saved_disk :=
    delete_old_checkpoints
      (torch_save (checkpoint_dict default_embedding step_counter st)
         (Checkpoint step_counter) (disk st)) 5 in
  let averaged :=
    average_checkpoints saved_disk (get_n_recent_checkpoints_paths saved_disk 2) in
  checkpoint delete_old_checkpoints get_n_recent_checkpoints_paths
    average_checkpoints save_model_for_use default_embedding steps step_counter st
  = Ok (if bool_decide (4 * steps < 5 * step_counter) then
          {| net := {| weights := weights averaged.1; net_config := net_config (net st) |};
             optimizer_st := optimizer_st st;
             scheduler_st := scheduler_st st;
             train_iters := train_iters st;
             rng := rng st;
             disk := torch_save (save_model_for_use averaged.1 averaged.2) Best saved_disk |}
        else
          {| net := net st;
             optimizer_st := optimizer_st st;
             scheduler_st := scheduler_st st;
             train_iters := train_iters st;
             rng := rng st;
             disk := saved_disk |}).
Proof.
  intros Hsave saved_disk averaged.
  unfold checkpoint. rewrite in_final_fifth_spec. fold saved_disk. fold averaged.
  destruct (bool_decide _); [|reflexivity].
  destruct averaged as [a e].
  cbn [torch_load torch_save best rbind fst snd].
  rewrite Hsave. reflexivity.
Qed.

Lemma backward_sum_losses (l1 l2 l3 l4 l5 : fp) :
  existsb not_nan [l1; l2; l3; l4; l5] = true →
  ∃ x, backward (sum_losses l1 l2 l3 l4 l5) = Ok x.
Proof.
  destruct l1, l2, l3, l4, l5; cbn; intros H; try discriminate H; eauto.
Qed.


(** The reading under which every checkpoint boundary above 4/5 of the
    step target ends with a best checkpoint written. *)
Definition claimed_final_fifth_of_target
    (collate_and_pad : list Batch → Batch)
    (net_forward : network → Batch → fp * fp * fp * fp * fp)
    (update : network → optimizer_state → scheduler_state → Batch → list bool →
              params * optimizer_state * scheduler_state)
    (target steps_per_checkpoint step_counter : Z) (drawn_batches : list Batch)
    (st : state) : Prop :=
  ∀ steps st',
    StepTarget.adjust_steps target steps_per_checkpoint = Ok steps →
    at_checkpoint_boundary step_counter steps_per_checkpoint = true →
    4 * target < 5 * step_counter →
    train_on delete_old_checkpoints get_n_recent_checkpoints_paths
      average_checkpoints save_model_for_use default_embedding
      collate_and_pad net_forward update
      steps steps_per_checkpoint step_counter drawn_batches st = Ok st' →
    is_Some (best (disk st')).

End Checkpoints.

(** A run on small data: weights, optimizer and scheduler states are
    numbers, a checkpoint of step 5 is on disk. *)
Definition example_saved : @check_dict Z Z Z unit :=
  {| model := Some 7; optimizer := Some 8; scheduler := Some 9;
     step_counter := Some 5; default_emb := Some tt; config := Some ∅ |}.

Definition example_disk : @files Z Z Z unit :=
  {| checkpoints := {[ 5 := example_saved ]}; best := None; elsewhere := ∅ |}.

Definition example_network : @network Z := {| weights := 0; net_config := ∅ |}.

Definition example_state : @state Z Z Z unit unit unit :=
  {| net := example_network; optimizer_st := 1; scheduler_st := 2;
     train_iters := []; rng := tt; disk := example_disk |}.

(** The average of the stored weights of the given checkpoints. *)
Definition example_average (d : @files Z Z Z unit) (paths : list path)
  : @network Z * unit :=
  let ws := omap (fun p => match torch_load d p with
                           | Ok c => model c
                           | Raise _ => None
                           end) paths in
  ({| weights := foldr Z.add 0 ws / Z.of_nat (length ws); net_config := ∅ |}, tt).

Definition example_save (n : @network Z) (e : unit) : @check_dict Z Z Z unit :=
  {| model := Some (weights n); optimizer := None; scheduler := None;
     step_counter := None; default_emb := Some e; config := Some (net_config n) |}.

Lemma load_checkpoint_witness :
  load_checkpoint (fun _ => Some (Checkpoint 5)) true false None 11
    (initial_state (fun _ _ => 1) (fun _ _ _ => 2) (fun _ _ => ([tt], tt))
       example_network 1 (Fin 1) 0 11 tt example_disk)
  = Ok {| started :=
            {| net := {| weights := 7; net_config := ∅ |};
               optimizer_st := 8;
               scheduler_st := 9;
               train_iters := [[tt]];
               rng := tt;
               disk := example_disk |};
          steps_run_previously := 5;
          already_done := false |}.
Proof.
  apply (load_checkpoint_restores (fun _ => Some (Checkpoint 5))
           (fun _ _ => 1) (fun _ _ _ => 2) (fun _ _ => ([tt], tt))
           example_network 1 (Fin 1) 0 11 tt example_disk true false None
           (Checkpoint 5) example_saved 7 8 9 5); reflexivity.
Defined.



End CheckpointProperties.

(** ** Drawing the batches of a step *)

Module DrawProperties.
Import TrainLoop.

Section Draw.

Context {Batch Rng : Type}.

Variable random_sample : Rng → nat → list nat * Rng.
Variable loader_iter : Rng → nat → list Batch * Rng.

Abbreviation drawn := (@drawn Batch Rng).

(** The number of batches a step has yet to draw. *)
Definition missing (batch_size : Z) (d : drawn) : nat :=
  Z.to_nat (batch_size - Z.of_nat (length (batches d))).

Lemma next_batch_left (index : nat) (its : list (list Batch)) (g : Rng) batch rest :
  its !! index = Some (batch :: rest) →
  next_batch loader_iter index its g = Ok (batch, <[index := rest]> its, g).
Proof. intros H. unfold next_batch, subscript. by rewrite H. Qed.

Lemma next_batch_restart (index : nat) (its : list (list Batch)) (g g' : Rng) batch rest :
  its !! index = Some [] →
  loader_iter g index = (batch :: rest, g') →
  next_batch loader_iter index its g = Ok (batch, <[index := rest]> its, g').
Proof. intros H Hl. unfold next_batch, subscript. rewrite H. cbn. by rewrite Hl. Qed.

Lemma next_batch_ok (index : nat) (its : list (list Batch)) (g : Rng) :
  (index < length its)%nat →
  (loader_iter g index).1 ≠ [] →
  ∃ batch its' g',
    next_batch loader_iter index its g = Ok (batch, its', g')
    ∧ length its' = length its.
Proof.
  intros Hi Hne. destruct (lookup_lt_is_Some_2 its index Hi) as [it Hit].
  destruct it as [|batch rest].
  - destruct (loader_iter g index) as [fresh g'] eqn:Hl. cbn in Hne.
    destruct fresh as [|batch rest]; [done|].
    exists batch, (<[index := rest]> its), g'.
    split; [by apply next_batch_restart | by rewrite length_insert].
  - exists batch, (<[index := rest]> its), g.
    split; [by apply next_batch_left | by rewrite length_insert].
Qed.

Lemma draw_pass_ok (batch_size : Z) (order : list nat) (d : drawn) :
  Forall (fun index => index < length (iters d))%nat order →
  (∀ g index, (index < length (iters d))%nat → (loader_iter g index).1 ≠ []) →
  ∃ d',
    draw_pass loader_iter batch_size order d = Ok d'
    ∧ length (iters d') = length (iters d)
    ∧ map fst (batches d') = map fst (batches d) ++ take (missing batch_size d) order.
Proof.
  revert d. induction order as [|index rest IH]; intros d Hall Hne.
  - exists d. cbn. by rewrite take_nil, app_nil_r.
  - apply Forall_cons in Hall as [Hindex Hrest].
    cbn [draw_pass]. destruct (Z.ltb_spec (Z.of_nat (length (batches d))) batch_size) as [Hlt|Hge].
    + destruct (next_batch_ok index (iters d) (gen d) Hindex (Hne _ _ Hindex))
        as (batch & its' & g' & -> & Hlen).
      cbn [rbind].
      set (d1 := {| batches := batches d ++ [(index, batch)]; iters := its'; gen := g' |}).
      destruct (IH d1) as (d' & Hd' & Hlen' & Hmap).
      { cbn. by rewrite Hlen. }
      { cbn. by rewrite Hlen. }
      exists d'. split; [exact Hd'|]. split; [cbn in Hlen'; congruence|].
      rewrite Hmap. cbn [d1 batches]. rewrite map_app. cbn [map fst].
      assert (Hm : missing batch_size d = S (missing batch_size d1)).
      { unfold missing. cbn [d1 batches]. rewrite length_app. cbn [length]. lia. }
      rewrite Hm. cbn [take]. by rewrite <- app_assoc.
    + destruct (IH d Hrest Hne) as (d' & Hd' & Hlen' & Hmap).
      exists d'. split; [exact Hd'|]. split; [exact Hlen'|].
      rewrite Hmap. unfold missing.
      replace (Z.to_nat (batch_size - Z.of_nat (length (batches d)))) with 0%nat by lia.
      by rewrite !take_0.
Qed.

Hypothesis random_sample_permutation :
  ∀ g n, (random_sample g n).1 ≡ₚ seq 0 n.

Lemma sample_indices (g : Rng) (n : nat) :
  Forall (fun index => index < n)%nat (random_sample g n).1
  ∧ length (random_sample g n).1 = n.
Proof.
  pose proof (random_sample_permutation g n) as Hp. split.
  - rewrite Hp. apply Forall_forall. intros i Hi.
    apply elem_of_seq in Hi. lia.
  - rewrite Hp. apply length_seq.
Qed.

Lemma draw_batches_ok (fuel : nat) (batch_size : Z) (datasets : nat) (d : drawn) :
  (∀ g index, (index < datasets)%nat → (loader_iter g index).1 ≠ []) →
  length (iters d) = datasets →
  (0 < datasets)%nat →
  Z.of_nat (length (batches d)) ≤ batch_size →
  (missing batch_size d ≤ fuel)%nat →
  ∃ d',
    draw_batches random_sample loader_iter fuel batch_size datasets d = Some (Ok d')
    ∧ Z.of_nat (length (batches d')) = batch_size
    ∧ length (iters d') = datasets.
Proof.
  intros Hne. revert d. induction fuel as [|fuel IH]; intros d Hlen Hpos Hle Hfuel.
  - exists d. unfold missing in Hfuel. cbn [draw_batches].
    destruct (Z.ltb_spec (Z.of_nat (length (batches d))) batch_size); [lia|].
    split; [done|]. split; [lia|done].
  - cbn [draw_batches].
    destruct (Z.ltb_spec (Z.of_nat (length (batches d))) batch_size) as [Hlt|Hge].
    2:{ exists d. split; [done|]. split; [lia|done]. }
    destruct (sample_indices (gen d) datasets) as [Hall Hlo].
    destruct (random_sample (gen d) datasets) as [order g'] eqn:Hs. cbn [fst] in Hall, Hlo.
    set (d0 := {| batches := batches d; iters := iters d; gen := g' |}).
    destruct (draw_pass_ok batch_size order d0) as (d1 & -> & Hlen1 & Hmap).
    { cbn. by rewrite Hlen. }
    { cbn. by rewrite Hlen. }
    cbn [d0 iters batches] in Hlen1, Hmap.
    assert (Hm0 : missing batch_size d0 = missing batch_size d) by done.
    rewrite Hm0 in Hmap.
    assert (Hl1 : length (batches d1)
                  = (length (batches d) + Nat.min (missing batch_size d) datasets)%nat).
    { rewrite <- (length_map fst (batches d1)), Hmap, length_app, length_map,
        length_take, Hlo. done. }
    unfold missing in *.
    apply IH; [congruence | done | lia | lia].
Qed.

Lemma draw_batches_single_pass (fuel : nat) (batch_size : Z) (datasets : nat)
    (its : list (list Batch)) (g : Rng) :
  (∀ g index, (index < datasets)%nat → (loader_iter g index).1 ≠ []) →
  length its = datasets →
  0 < batch_size ≤ Z.of_nat datasets →
  (0 < fuel)%nat →
  ∃ d',
    draw_batches random_sample loader_iter fuel batch_size datasets
      {| batches := []; iters := its; gen := g |} = Some (Ok d')
    ∧ map fst (batches d') = take (Z.to_nat batch_size) (random_sample g datasets).1.
Proof.
  intros Hne Hlen Hbs Hfuel. destruct fuel as [|fuel]; [lia|].
  cbn [draw_batches batches length gen iters].
  destruct (Z.ltb_spec (Z.of_nat 0) batch_size) as [_|]; [|lia].
  destruct (sample_indices g datasets) as [Hall Hlo].
  destruct (random_sample g datasets) as [order g'] eqn:Hs. cbn [fst] in Hall, Hlo |- *.
  set (d0 := {| batches := []; iters := its; gen := g' |}).
  destruct (draw_pass_ok batch_size order d0) as (d1 & -> & Hlen1 & Hmap).
  { cbn. by rewrite Hlen. }
  { cbn. by rewrite Hlen. }
  cbn [d0 batches map app] in Hmap.
  assert (Hm : missing batch_size d0 = Z.to_nat batch_size).
  { unfold missing. cbn. lia. }
  rewrite Hm in Hmap.
  exists d1. split; [|exact Hmap].
  assert (Hl1 : length (batches d1) = Z.to_nat batch_size).
  { rewrite <- (length_map fst (batches d1)), Hmap, length_take, Hlo. lia. }
  destruct fuel; cbn [draw_batches];
    destruct (Z.ltb_spec (Z.of_nat (length (batches d1))) batch_size); (lia || done).
Qed.

End Draw.

(** The number of batches of a step that came from task [index]. *)
Definition drawn_from {Batch Rng : Type} (index : nat) (d : @drawn Batch Rng) : nat :=
  length (List.filter (Nat.eqb index) (map fst (batches d))).

(** The reading under which every step draws exactly one batch from every
    task. *)
Definition claimed_one_batch_per_task {Batch Rng : Type}
    (random_sample : Rng → nat → list nat * Rng)
    (loader_iter : Rng → nat → list Batch * Rng)
    (fuel : nat) (batch_size : Z) (datasets : nat)
    (its : list (list Batch)) (g : Rng) : Prop :=
  ∀ d,
    draw_batches random_sample loader_iter fuel batch_size datasets
      {| batches := []; iters := its; gen := g |} = Some (Ok d) →
    ∀ index, (index < datasets)%nat → drawn_from index d = 1%nat.

(** Two tasks whose loaders yield two batches each, the tasks sampled in
    the order 0, 1. *)
Definition example_sample (g : unit) (n : nat) : list nat * unit := (seq 0 n, g).
Definition example_loader (g : unit) (index : nat) : list nat * unit :=
  ([index; index], g).


End DrawProperties.

(** ** Scaling the variance of a curve *)

Module ScaleVarianceProperties.
Import InferenceToucanTTS.

(** The same computations on rationals. *)
Definition qsum (l : list Q) : Q := foldl Qplus 0%Q l.

Definition qmean (l : list Q) : Q := (qsum l * (1 # Pos.of_nat (length l)))%Q.

Definition nonzero (x : Q) : bool := negb (Qeq_bool x 0).

Definition clip (v : Q) : Q := if Qle_bool 0 v then v else 0%Q.

Definition scaled (average scale x : Q) : Q := ((x + - average) * scale + average)%Q.

(** The entries of [ys] at the positions where [xs] is not zero. *)
Definition originally_nonzero (xs ys : list Q) : list Q :=
  map snd (List.filter (fun p => nonzero p.1) (combine xs ys)).

Definition clip_entry (x : fp) : fp :=
  if Num.ltb x Num.zero then Num.zero else x.

Lemma clip_negative_map (sequence : list fp) :
  clip_negative sequence = map clip_entry sequence.
Proof.
  unfold clip_negative.
  enough (H : ∀ post pre,
             foldl (fun s i =>
                      match s !! i with
                      | Some x => if Num.ltb x Num.zero then <[i := Num.zero]> s else s
                      | None => s
                      end)
               (pre ++ post) (seq (length pre) (length post))
             = pre ++ map clip_entry post).
  { apply (H sequence []). }
  induction post as [|x post IH]; intros pre.
  - cbn. reflexivity.
  - cbn [length seq foldl map].
    rewrite list_lookup_middle by reflexivity.
    replace (S (length pre)) with (length (pre ++ [clip_entry x]))
      by (rewrite length_app; cbn; lia).
    replace (pre ++ clip_entry x :: map clip_entry post)
      with ((pre ++ [clip_entry x]) ++ map clip_entry post)
      by (by rewrite <- app_assoc).
    rewrite <- IH. f_equal. unfold clip_entry.
    destruct (Num.ltb x Num.zero).
    + rewrite insert_app_r_alt by lia. rewrite Nat.sub_diag. cbn.
      by rewrite <- app_assoc.
    + by rewrite <- app_assoc.
Qed.

Lemma sum_finite (l : list Q) (a : Q) :
  foldl Num.add (Fin a) (map Fin l) = Fin (foldl Qplus a l).
Proof. revert a. induction l as [|x l IH]; intros a; cbn; [done|]. apply IH. Qed.

Lemma mean_finite (l : list Q) :
  l ≠ [] → Num.mean (map Fin l) = Fin (qmean l).
Proof.
  intros Hl. destruct l as [|x l]; [done|].
  unfold Num.mean, Num.sum, Num.zero, qmean, qsum.
  cbn [map]. rewrite <- (map_cons Fin). rewrite sum_finite, length_map. reflexivity.
Qed.

Lemma filter_finite (l : list Q) :
  List.filter (fun x => Num.neqb x Num.zero) (map Fin l)
  = map Fin (List.filter nonzero l).
Proof.
  induction l as [|x l IH]; [done|]. cbn [map List.filter].
  change (Num.neqb (Fin x) Num.zero) with (nonzero x).
  destruct (nonzero x); cbn [map]; by rewrite IH.
Qed.

Lemma scale_variance_finite (xs : list Q) (s : Q) :
  Qeq_bool s 1 = false →
  List.filter nonzero xs ≠ [] →
  _scale_variance (map Fin xs) (Fin s)
  = map (fun x => Fin (clip (scaled (qmean (List.filter nonzero xs)) s x))) xs.
Proof.
  intros Hs Hnz. unfold _scale_variance. cbn [Num.eqb Num.one]. rewrite Hs.
  rewrite filter_finite, mean_finite by done.
  rewrite clip_negative_map, !map_map.
  apply map_ext. intros x. unfold clip_entry, clip, scaled. cbn.
  by destruct (Qle_bool 0 _).
Qed.

Lemma originally_nonzero_map (f : Q → Q) (xs : list Q) :
  originally_nonzero xs (map f xs) = map f (List.filter nonzero xs).
Proof.
  unfold originally_nonzero. induction xs as [|x xs IH]; [done|].
  cbn. destruct (nonzero x); cbn; by rewrite IH.
Qed.

Lemma qsum_from (a : Q) (l : list Q) : (foldl Qplus a l == a + qsum l)%Q.
Proof.
  unfold qsum. revert a. induction l as [|x l IH]; intros a; cbn.
  - ring.
  - rewrite (IH (a + x)%Q), (IH (0 + x)%Q). ring.
Qed.

Lemma qsum_scaled (average scale : Q) (l : list Q) :
  (qsum (map (scaled average scale) l)
   == scale * qsum l + inject_Z (Z.of_nat (length l)) * (average - scale * average))%Q.
Proof.
  induction l as [|x l IH].
  - cbn. unfold qsum. cbn. ring.
  - cbn [map length]. unfold qsum at 1 2. cbn [foldl].
    rewrite !qsum_from, IH. unfold scaled.
    rewrite Nat2Z.inj_succ, <- Z.add_1_r, inject_Z_plus. ring.
Qed.

Lemma qmean_times_length (l : list Q) :
  l ≠ [] → (inject_Z (Z.of_nat (length l)) * qmean l == qsum l)%Q.
Proof.
  intros Hl. unfold qmean.
  assert (Hn : (inject_Z (Z.of_nat (length l)) * (1 # Pos.of_nat (length l)) == 1)%Q).
  { destruct l as [|x l]; [done|]. cbn [length].
    unfold Qeq, Qmult, inject_Z. cbn [Qnum Qden]. lia. }
  rewrite (Qmult_comm (qsum l)), Qmult_assoc, Hn. ring.
Qed.

Lemma mean_preserved (scale : Q) (l : list Q) :
  l ≠ [] → (qmean (map (scaled (qmean l) scale) l) == qmean l)%Q.
Proof.
  intros Hl. set (m := qmean l).
  assert (Hlen : map (scaled m scale) l ≠ []) by (by destruct l).
  pose proof (qmean_times_length _ Hlen) as H1.
  pose proof (qmean_times_length _ Hl) as H2. fold m in H2.
  rewrite qsum_scaled, length_map, <- H2 in H1.
  assert (Hn : ¬ (inject_Z (Z.of_nat (length l)) == 0)%Q).
  { destruct l as [|x l]; [done|]. unfold Qeq, inject_Z. cbn [Qnum Qden length]. lia. }
  apply (Qmult_inj_l _ _ (inject_Z (Z.of_nat (length l)))); [exact Hn|].
  rewrite H1. ring.
Qed.

Lemma clip_nonnegative (v : Q) : (0 <= clip v)%Q.
Proof.
  unfold clip. destruct (Qle_bool 0 v) eqn:H; [by apply Qle_bool_iff | apply Qle_refl].
Qed.

Lemma clip_entry_not_negative (x : fp) : Num.ltb (clip_entry x) Num.zero = false.
Proof. unfold clip_entry. by destruct (Num.ltb x Num.zero) eqn:H. Qed.

(** The reading under which the scaled curve, clipped, still has the mean
    of the originally non-zero entries and deviations multiplied by the
    scale. *)
Definition claimed_scaling (xs : list Q) (s : Q) : Prop :=
  let average := qmean (List.filter nonzero xs) in
  ∃ ys,
    _scale_variance (map Fin xs) (Fin s) = map Fin ys
    ∧ (qmean (originally_nonzero xs ys) == average)%Q
    ∧ (∀ i x y, xs !! i = Some x → ys !! i = Some y →
                (y - average == s * (x - average))%Q)
    ∧ Forall (fun y => 0 <= y)%Q ys
    ∧ ((s == 1)%Q → ys = xs).

(** C5, as stated, fails: the curve 1, 9 (mean 5) scaled by 2 becomes
    0, 13 after the clipping of -3, with mean 13/2 and the first deviation
    -5 instead of -8. *)
Lemma clipping_counterexample : ¬ claimed_scaling [1; 9]%Q 2%Q.
Proof.
  intros (ys & Hys & Hmean & _).
  destruct ys as [|y1 [|y2 [|y3 ys]]]; try discriminate Hys.
  vm_compute in Hys. injection Hys as <- <-.
  vm_compute in Hmean. discriminate Hmean.
Qed.

(** C5, amended: a scale equal to 1.0 returns the curve as it is; any other
    scale returns no entry below 0; for finite entries of which one is not
    zero and a finite scale other than 1, every entry x becomes
    max(0, (x - m) * s + m) with m the mean of the non-zero entries, and
    when no entry is clipped the entries that were non-zero keep the mean m
    and every deviation from m is multiplied by s. *)
Theorem scale_variance_amended (xs : list Q) (s : Q) :
  let average := qmean (List.filter nonzero xs) in
  (∀ sequence unit_scale,
      (unit_scale == 1)%Q → _scale_variance sequence (Fin unit_scale) = sequence)
  ∧ (∀ sequence scale y,
        Num.eqb scale Num.one = false →
        y ∈ _scale_variance sequence scale → Num.ltb y Num.zero = false)
  ∧ (Qeq_bool s 1 = false →
     existsb nonzero xs = true →
     _scale_variance (map Fin xs) (Fin s)
     = map (fun x => Fin (clip (scaled average s x))) xs
     ∧ Forall (fun x => 0 <= clip (scaled average s x))%Q xs
     ∧ (forallb (fun x => Qle_bool 0 (scaled average s x)) xs = true →
        _scale_variance (map Fin xs) (Fin s) = map (fun x => Fin (scaled average s x)) xs
        ∧ (qmean (originally_nonzero xs (map (scaled average s) xs)) == average)%Q
        ∧ ∀ x, (scaled average s x - average == s * (x - average))%Q)).
Proof.
  intros average. split_and!.
  - intros sequence unit_scale H1. unfold _scale_variance. cbn [Num.eqb Num.one].
    by rewrite (Qeq_eq_bool _ _ H1).
  - intros sequence scale y Hs Hy. unfold _scale_variance in Hy. rewrite Hs in Hy.
    rewrite clip_negative_map in Hy. apply list_elem_of_fmap in Hy as (x & -> & _).
    apply clip_entry_not_negative.
  - intros Hs Hex.
    assert (Hnz : List.filter nonzero xs ≠ []).
    { apply existsb_exists in Hex as (x & Hin & Hx). intros Hnil.
      assert (Hf : In x (List.filter nonzero xs)) by (apply filter_In; done).
      rewrite Hnil in Hf. destruct Hf. }
    pose proof (scale_variance_finite xs s Hs Hnz) as Heq. fold average in Heq.
    split_and!.
    + exact Heq.
    + apply Forall_forall. intros x _. apply clip_nonnegative.
    + intros Hall. split_and!.
      * rewrite Heq. apply map_ext_in. intros x Hx.
        rewrite forallb_forall in Hall. unfold clip. by rewrite (Hall x Hx).
      * rewrite originally_nonzero_map. by apply mean_preserved.
      * intros x. unfold scaled. ring.
Qed.

Lemma scale_variance_witness :
  _scale_variance (map Fin [1; 2; 0; 3]%Q) (Fin (1 # 2))
  = map (fun x => Fin (scaled (qmean [1; 2; 3]%Q) (1 # 2) x)) [1; 2; 0; 3]%Q
  ∧ (qmean (originally_nonzero [1; 2; 0; 3]%Q
              (map (scaled (qmean [1; 2; 3]%Q) (1 # 2)) [1; 2; 0; 3]%Q))
     == qmean [1; 2; 3]%Q)%Q.
Proof.
  destruct (scale_variance_amended [1; 2; 0; 3]%Q (1 # 2)) as (_ & _ & H).
  destruct (H eq_refl eq_refl) as (_ & _ & H').
  destruct (H' eq_refl) as (H1 & H2 & _).
  split; [exact H1 | exact H2].
Defined.

End ScaleVarianceProperties.

(** ** Results, subscription and assignment *)

Module ResultLemmas.

Definition is_ok {A : Type} (r : result A) : bool :=
  match r with Ok _ => true | Raise _ => false end.

Lemma bind_ok {A B : Type} (r : result A) (k : A → result B) (b : B) :
  rbind r k = Ok b → ∃ a, r = Ok a ∧ k a = Ok b.
Proof. destruct r as [a|e]; cbn; [eauto | discriminate]. Qed.

Lemma subscript_ok {A : Type} (l : list A) (i : nat) (x : A) :
  subscript l i = Ok x ↔ l !! i = Some x.
Proof. unfold subscript. destruct (l !! i); split; congruence. Qed.

Lemma assign_ok {A : Type} (l l' : list A) (i : nat) (x : A) :
  assign l i x = Ok l' ↔ (i < length l)%nat ∧ l' = <[i := x]> l.
Proof.
  unfold assign. destruct (decide (i < length l)%nat); split.
  - intros [= <-]. done.
  - intros [_ ->]. done.
  - discriminate.
  - intros [? _]. lia.
Qed.

(** What a guarded assignment [if test: l[i] = x] leaves behind. *)
Lemma guarded_assign_ok {A : Type} (test : bool) (l l' : list A) (i : nat) (x : A) :
  (if test then assign l i x else Ok l) = Ok l' →
  length l' = length l
  ∧ (∀ j, j ≠ i → l' !! j = l !! j)
  ∧ (test = true → l' !! i = Some x)
  ∧ (test = false → l' = l).
Proof.
  destruct test.
  - intros [Hi ->]%assign_ok. split_and!.
    + apply length_insert.
    + intros j Hj. by apply list_lookup_insert_ne.
    + intros _. by apply list_lookup_insert_eq.
    + discriminate.
  - intros [= <-]. split_and!; [done | done | discriminate | done].
Qed.

Lemma traverse_ok {A B : Type} (f : A → result B) (l : list A) (l' : list B) :
  Tensor.traverse f l = Ok l' →
  length l' = length l
  ∧ ∀ i x, l !! i = Some x → ∃ y, l' !! i = Some y ∧ f x = Ok y.
Proof.
  revert l'. induction l as [|a l IH]; intros l' H; cbn in H.
  - injection H as <-. split; [done|]. intros i x Hx. done.
  - apply bind_ok in H as (y & Hy & H). apply bind_ok in H as (ys & Hys & H).
    injection H as <-. destruct (IH ys Hys) as [Hlen Hat].
    split; [cbn; congruence|].
    intros [|i] x Hx; cbn in Hx |- *.
    + injection Hx as <-. eauto.
    + eauto.
Qed.

Lemma traverse_total {A B : Type} (f : A → result B) (l : list A) :
  forallb (fun x => is_ok (f x)) l = true → ∃ l', Tensor.traverse f l = Ok l'.
Proof.
  induction l as [|a l IH]; cbn; [eauto|].
  intros [Ha Hl]%andb_true_iff. destruct (f a) as [y|]; [|done].
  destruct (IH Hl) as [ys ->]. cbn. eauto.
Qed.

End ResultLemmas.

(** ** The linguistic overrides *)

Module OverrideProperties.
Import ResultLemmas.

(** *** Scaling a duration of zero *)

Lemma scale_duration_zero (factor : fp) (z : Z) :
  InferenceToucanTTS.scale_duration 0 factor = Ok z → z = 0.
Proof.
  unfold InferenceToucanTTS.scale_duration.
  destruct factor as [| | |q]; cbn; try discriminate.
  intros [= <-]. reflexivity.
Qed.

Lemma scale_duration_zero_finite (factor : fp) :
  Num.is_finite factor = true → InferenceToucanTTS.scale_duration 0 factor = Ok 0.
Proof. destruct factor; try discriminate. intros _. reflexivity. Qed.

(** *** The loop of the training architecture *)

Section TrainingArchitecture.

Variable feature_index : string → nat.

Lemma word_boundary_loop_spec (text : list (list fp)) :
  ∀ (phoneme_index : nat) (d d' : list Z),
    ToucanTTS.word_boundary_loop feature_index phoneme_index text d = Ok d' →
    length d' = length d
    ∧ (∀ j, (j < phoneme_index)%nat → d' !! j = d !! j)
    ∧ (∀ i v w,
          text !! i = Some v →
          v !! feature_index "word-boundary" = Some w →
          Num.eqb w Num.one = true →
          d' !! (phoneme_index + i)%nat = Some 0).
Proof.
  induction text as [|phoneme_vector rest IH]; intros k d d' H; cbn in H.
  - injection H as <-. split_and!; [done | done |]. intros i v w Hv. done.
  - apply bind_ok in H as (w0 & Hw0%subscript_ok & H).
    apply bind_ok in H as (d1 & Hd1 & H).
    apply guarded_assign_ok in Hd1 as (Hlen1 & Hother1 & Hset1 & _).
    destruct (IH _ _ _ H) as (Hlen & Hbefore & Hflag).
    split_and!.
    + congruence.
    + intros j Hj. rewrite Hbefore by lia. apply Hother1. lia.
    + intros [|i] v w Hv Hw Hone; cbn in Hv.
      * injection Hv as <-. rewrite Hw0 in Hw. injection Hw as <-.
        rewrite Nat.add_0_r, Hbefore by lia. by apply Hset1.
      * replace (k + S i)%nat with (S k + i)%nat by lia. by eapply Hflag.
Qed.

Lemma word_boundary_loop_total (text : list (list fp)) :
  ∀ (phoneme_index : nat) (d : list Z),
    Forall (fun v => feature_index "word-boundary" < length v)%nat text →
    (phoneme_index + length text ≤ length d)%nat →
    ∃ d', ToucanTTS.word_boundary_loop feature_index phoneme_index text d = Ok d'.
Proof.
  induction text as [|phoneme_vector rest IH]; intros k d Hall Hlen; cbn.
  - eauto.
  - apply Forall_cons in Hall as [Hv Hrest]. cbn in Hlen.
    destruct (lookup_lt_is_Some_2 _ _ Hv) as [w Hw].
    unfold subscript at 1. rewrite Hw. cbn [rbind].
    destruct (Num.eqb w Num.one).
    + unfold assign. destruct (decide (k < length d)%nat); [|lia]. cbn [rbind].
      apply IH; [done|]. rewrite length_insert. lia.
    + cbn [rbind]. apply IH; [done | lia].
Qed.

End TrainingArchitecture.

(** *** The loop of the inference architecture *)

Section InferenceArchitecture.
Import InferenceToucanTTS.

Variable feature_index : string → nat.

(** The value of a named feature of a phoneme vector is [x]. *)
Definition feature (name : string) (v : list fp) (x : fp) : Prop :=
  v !! feature_index name = Some x.

Definition has_features (v : list fp) : Prop :=
  (feature_index "voiced" < length v)%nat
  ∧ (feature_index "phoneme" < length v)%nat
  ∧ (feature_index "word-boundary" < length v)%nat
  ∧ (feature_index "silence" < length v)%nat.

Definition same_lengths (c c' : curves) : Prop :=
  length (pitch_predictions c') = length (pitch_predictions c)
  ∧ length (energy_predictions c') = length (energy_predictions c)
  ∧ length (predicted_durations c') = length (predicted_durations c).

(** The curves agree at position [j]. *)
Definition same_at (j : nat) (c c' : curves) : Prop :=
  pitch_predictions c' !! j = pitch_predictions c !! j
  ∧ energy_predictions c' !! j = energy_predictions c !! j
  ∧ predicted_durations c' !! j = predicted_durations c !! j.

(** What the overrides leave at position [i] of the curves [c], for the
    phoneme vector [v] and the curves [c0] before the loop. *)
Definition overridden_at (pause : fp) (i : nat) (v : list fp) (c0 c : curves) : Prop :=
  (∀ x, feature "voiced" v x →
     pitch_predictions c !! i
     = if Num.eqb x Num.zero then Some Num.zero else pitch_predictions c0 !! i)
  ∧ (∀ x, feature "phoneme" v x →
       energy_predictions c !! i
       = if Num.eqb x Num.zero then Some Num.zero else energy_predictions c0 !! i)
  ∧ (∀ x, feature "word-boundary" v x → Num.eqb x Num.one = true →
       predicted_durations c !! i = Some 0)
  ∧ (∀ x y, feature "word-boundary" v x → feature "silence" v y →
       Num.eqb x Num.one = false →
       Num.eqb y Num.one && Num.neqb pause Num.one = false →
       predicted_durations c !! i = predicted_durations c0 !! i).

Lemma override_phoneme_spec (pause : fp) (k : nat) (v : list fp) (c c' : curves) :
  override_phoneme feature_index pause k v c = Ok c' →
  same_lengths c c'
  ∧ (∀ j, j ≠ k → same_at j c c')
  ∧ overridden_at pause k v c c'.
Proof.
  unfold override_phoneme. intros H.
  apply bind_ok in H as (voiced & Hvoiced%subscript_ok & H).
  apply bind_ok in H as (pitch & Hpitch & H).
  apply bind_ok in H as (phoneme & Hphoneme%subscript_ok & H).
  apply bind_ok in H as (energy & Henergy & H).
  apply bind_ok in H as (wb & Hwb%subscript_ok & H).
  apply bind_ok in H as (d1 & Hd1 & H).
  apply bind_ok in H as (silence & Hsilence%subscript_ok & H).
  apply bind_ok in H as (d2 & Hd2 & H).
  injection H as <-.
  apply guarded_assign_ok in Hpitch as (Hpl & Hpo & Hps & Hpn).
  apply guarded_assign_ok in Henergy as (Hel & Heo & Hes & Hen).
  apply guarded_assign_ok in Hd1 as (Hdl & Hdo & Hds & Hdn).
  assert (Hd2' : length d2 = length d1
                 ∧ (∀ j, j ≠ k → d2 !! j = d1 !! j)
                 ∧ (d1 !! k = Some 0 → d2 !! k = Some 0)
                 ∧ (Num.eqb silence Num.one && Num.neqb pause Num.one = false → d2 = d1)).
  { destruct (Num.eqb silence Num.one && Num.neqb pause Num.one).
    - apply bind_ok in Hd2 as (d & Hd%subscript_ok & Hd2).
      apply bind_ok in Hd2 as (scaled & Hscaled & Hd2).
      apply assign_ok in Hd2 as [Hk ->]. split_and!.
      + apply length_insert.
      + intros j Hj. by apply list_lookup_insert_ne.
      + intros H0. rewrite H0 in Hd. injection Hd as <-.
        apply scale_duration_zero in Hscaled as ->.
        by apply list_lookup_insert_eq.
      + discriminate.
    - injection Hd2 as <-. done. }
  destruct Hd2' as (Hd2l & Hd2o & Hd2z & Hd2n).
  split_and!.
  - split_and!; cbn; congruence.
  - intros j Hj. split_and!; cbn; [by apply Hpo | by apply Heo |].
    rewrite Hd2o by done. by apply Hdo.
  - unfold overridden_at, feature. cbn. split_and!.
    + intros x Hx. rewrite Hvoiced in Hx. injection Hx as <-.
      destruct (Num.eqb voiced Num.zero); [by apply Hps | by rewrite Hpn].
    + intros x Hx. rewrite Hphoneme in Hx. injection Hx as <-.
      destruct (Num.eqb phoneme Num.zero); [by apply Hes | by rewrite Hen].
    + intros x Hx Hone. rewrite Hwb in Hx. injection Hx as <-.
      apply Hd2z. by apply Hds.
    + intros x y Hx Hy Hnot Hoff. rewrite Hwb in Hx. injection Hx as <-.
      rewrite Hsilence in Hy. injection Hy as <-.
      rewrite (Hd2n Hoff). by rewrite Hdn.
Qed.

Lemma override_loop_spec (pause : fp) (text : list (list fp)) :
  ∀ (k : nat) (c c' : curves),
    override_loop feature_index pause k text c = Ok c' →
    same_lengths c c'
    ∧ (∀ j, (j < k)%nat → same_at j c c')
    ∧ (∀ i v, text !! i = Some v → overridden_at pause (k + i) v c c').
Proof.
  induction text as [|phoneme_vector rest IH]; intros k c c' H; cbn in H.
  - injection H as <-. split_and!; [done | done |]. intros i v Hv. done.
  - apply bind_ok in H as (c1 & Hc1 & H).
    apply override_phoneme_spec in Hc1 as ((Hl1 & Hl2 & Hl3) & Hother & Hat).
    destruct (IH _ _ _ H) as ((Hm1 & Hm2 & Hm3) & Hbefore & Hrest).
    split_and!.
    + split_and!; congruence.
    + intros j Hj.
      destruct (Hbefore j ltac:(lia)) as (H1 & H2 & H3).
      destruct (Hother j ltac:(lia)) as (H4 & H5 & H6).
      split_and!; congruence.
    + intros [|i] v Hv; cbn in Hv.
      * injection Hv as <-. rewrite Nat.add_0_r.
        destruct (Hbefore k ltac:(lia)) as (H1 & H2 & H3).
        destruct Hat as (Ha1 & Ha2 & Ha3 & Ha4).
        unfold overridden_at. rewrite H1, H2, H3. done.
      * replace (k + S i)%nat with (S k + i)%nat by lia.
        destruct (Hrest i v Hv) as (Hr1 & Hr2 & Hr3 & Hr4).
        destruct (Hother (S k + i)%nat ltac:(lia)) as (H4 & H5 & H6).
        unfold overridden_at. split_and!.
        -- intros x Hx. rewrite (Hr1 x Hx), H4. done.
        -- intros x Hx. rewrite (Hr2 x Hx), H5. done.
        -- exact Hr3.
        -- intros x y Hx Hy Hn Hoff. rewrite (Hr4 x y Hx Hy Hn Hoff), H6. done.
Qed.

Lemma override_phoneme_total (pause : fp) (k : nat) (v : list fp) (c : curves) :
  has_features v →
  (k < length (pitch_predictions c))%nat →
  (k < length (energy_predictions c))%nat →
  (k < length (predicted_durations c))%nat →
  (Num.neqb pause Num.one = true →
   is_ok (scale_duration 0 pause) = true
   ∧ ∀ d, predicted_durations c !! k = Some d → is_ok (scale_duration d pause) = true) →
  ∃ c', override_phoneme feature_index pause k v c = Ok c'.
Proof.
  intros (Hv & Hp & Hw & Hs) Hkp Hke Hkd Hscale. unfold override_phoneme.
  destruct (lookup_lt_is_Some_2 _ _ Hv) as [voiced Hvoiced].
  destruct (lookup_lt_is_Some_2 _ _ Hp) as [phoneme Hphoneme].
  destruct (lookup_lt_is_Some_2 _ _ Hw) as [wb Hwb].
  destruct (lookup_lt_is_Some_2 _ _ Hs) as [silence Hsilence].
  apply subscript_ok in Hvoiced as ->, Hphoneme as ->, Hwb as ->, Hsilence as ->.
  cbn [rbind].
  assert (Hp1 : ∃ l, (if Num.eqb voiced Num.zero
                      then assign (pitch_predictions c) k Num.zero
                      else Ok (pitch_predictions c)) = Ok l).
  { destruct (Num.eqb voiced Num.zero); [|eauto].
    eexists. apply assign_ok. eauto. }
  destruct Hp1 as [pitch ->]. cbn [rbind].
  assert (He1 : ∃ l, (if Num.eqb phoneme Num.zero
                      then assign (energy_predictions c) k Num.zero
                      else Ok (energy_predictions c)) = Ok l).
  { destruct (Num.eqb phoneme Num.zero); [|eauto].
    eexists. apply assign_ok. eauto. }
  destruct He1 as [energy ->]. cbn [rbind].
  assert (Hd1 : ∃ l, (if Num.eqb wb Num.one
                      then assign (predicted_durations c) k 0
                      else Ok (predicted_durations c)) = Ok l
                     ∧ length l = length (predicted_durations c)
                     ∧ (Num.neqb pause Num.one = true →
                        ∀ d, l !! k = Some d → is_ok (scale_duration d pause) = true)).
  { destruct (Num.eqb wb Num.one).
    - eexists. split; [apply assign_ok; eauto|]. split; [apply length_insert|].
      intros Hne d. rewrite list_lookup_insert_eq by done. intros [= <-].
      by destruct (Hscale Hne) as [Hzero _].
    - eexists. split; [done|]. split; [done|]. intros Hne.
      by destruct (Hscale Hne) as [_ Hat]. }
  destruct Hd1 as (d1 & -> & Hlen1 & Hscale1). cbn [rbind].
  destruct (Num.eqb silence Num.one && Num.neqb pause Num.one) eqn:Hon; [|cbn; eauto].
  apply andb_true_iff in Hon as [_ Hne].
  destruct (lookup_lt_is_Some_2 d1 k ltac:(lia)) as [d Hd].
  pose proof (Hscale1 Hne d Hd) as Hok.
  apply subscript_ok in Hd as ->. cbn [rbind].
  destruct (scale_duration d pause) as [scaled|]; [|done]. cbn [rbind].
  unfold assign. destruct (decide (k < length d1)%nat); [|lia]. cbn. eauto.
Qed.

Lemma override_loop_total (pause : fp) (text : list (list fp)) :
  ∀ (k : nat) (c : curves),
    Forall has_features text →
    (k + length text ≤ length (pitch_predictions c))%nat →
    (k + length text ≤ length (energy_predictions c))%nat →
    (k + length text ≤ length (predicted_durations c))%nat →
    (Num.neqb pause Num.one = true →
     is_ok (scale_duration 0 pause) = true
     ∧ ∀ j d, (k ≤ j)%nat → predicted_durations c !! j = Some d →
              is_ok (scale_duration d pause) = true) →
    ∃ c', override_loop feature_index pause k text c = Ok c'.
Proof.
  induction text as [|phoneme_vector rest IH];
    intros k c Hall Hp He Hd Hscale; cbn [override_loop].
  - eauto.
  - apply Forall_cons in Hall as [Hv Hrest]. cbn [length] in Hp, He, Hd.
    destruct (override_phoneme_total pause k phoneme_vector c Hv) as [c1 Hc1];
      [lia | lia | lia | |].
    { intros Hne. destruct (Hscale Hne) as [Hzero Hall]. split; [done|].
      intros d. by apply Hall. }
    rewrite Hc1. cbn [rbind].
    apply override_phoneme_spec in Hc1 as ((Hl1 & Hl2 & Hl3) & Hother & _).
    apply IH; [done | lia | lia | lia |].
    intros Hne. destruct (Hscale Hne) as [Hzero Hall]. split; [done|].
    intros j d Hj Hjd. apply (Hall j); [lia|].
    destruct (Hother j ltac:(lia)) as (_ & _ & <-). done.
Qed.

Section Forward.

Variable pitch_predictor : list (list fp) → list fp.
Variable energy_predictor : list (list fp) → list fp.
Variable duration_predictor_inference : list (list fp) → list Z.

Lemma forward_overrides_total (text : list (list fp))
    (gold_durations : option (list Z)) (gold_pitch gold_energy : option (list fp))
    (pause : fp) :
  let c0 := substitute pitch_predictor energy_predictor duration_predictor_inference
              text gold_durations gold_pitch gold_energy in
  Forall has_features text →
  (length text ≤ length (pitch_predictions c0))%nat →
  (length text ≤ length (energy_predictions c0))%nat →
  (length text ≤ length (predicted_durations c0))%nat →
  Num.eqb pause Num.one
  || forallb (fun d => is_ok (scale_duration d pause)) (0 :: predicted_durations c0) = true →
  ∃ c,
    forward_overrides feature_index pitch_predictor energy_predictor
      duration_predictor_inference text gold_durations gold_pitch gold_energy pause = Ok c
    ∧ ∀ i v, text !! i = Some v → overridden_at pause i v c0 c.
Proof.
  intros c0 Hall Hp He Hd Hscale. unfold forward_overrides. fold c0.
  destruct (override_loop_total pause text 0 c0) as [c Hc]; [done | done | done | done | |].
  { intros Hne. unfold Num.neqb in Hne. apply negb_true_iff in Hne.
    rewrite Hne in Hscale. cbn [orb forallb] in Hscale.
    apply andb_true_iff in Hscale as [Hzero Hscale].
    rewrite forallb_forall in Hscale. split; [done|].
    intros j d _ Hjd. apply Hscale. apply list_elem_of_In.
    by eapply list_elem_of_lookup_2. }
  exists c. split; [done|].
  apply override_loop_spec in Hc as (_ & _ & Hat). exact Hat.
Qed.

Lemma forward_curves_unit_scales (text : list (list fp))
    (gold_durations : option (list Z)) (gold_pitch gold_energy : option (list fp))
    (pause : fp) (c : curves) :
  forward_overrides feature_index pitch_predictor energy_predictor
    duration_predictor_inference text gold_durations gold_pitch gold_energy pause = Ok c →
  forward_curves feature_index pitch_predictor energy_predictor
    duration_predictor_inference text gold_durations gold_pitch gold_energy
    (Fin 1) (Fin 1) (Fin 1) pause = Ok c.
Proof.
  intros H. unfold forward_curves. rewrite H. cbn. by destruct c.
Qed.

Lemma forward_curves_word_boundary (text : list (list fp))
    (gold_durations : option (list Z)) (gold_pitch gold_energy : option (list fp))
    (duration_scaling_factor pitch_variance_scale energy_variance_scale pause : fp)
    (c : curves) :
  forward_curves feature_index pitch_predictor energy_predictor
    duration_predictor_inference text gold_durations gold_pitch gold_energy
    duration_scaling_factor pitch_variance_scale energy_variance_scale pause = Ok c →
  ∀ i v x,
    text !! i = Some v → feature "word-boundary" v x → Num.eqb x Num.one = true →
    predicted_durations c !! i = Some 0.
Proof.
  unfold forward_curves. intros H i v x Hv Hx Hone.
  apply bind_ok in H as (c1 & Hc1 & H).
  apply bind_ok in H as (durations & Hdur & H). injection H as <-. cbn.
  unfold forward_overrides in Hc1.
  apply override_loop_spec in Hc1 as (_ & _ & Hat).
  destruct (Hat i v Hv) as (_ & _ & Hzero & _).
  specialize (Hzero x Hx Hone). cbn in Hzero.
  destruct (Num.neqb duration_scaling_factor Num.one).
  - destruct (Num.gtb duration_scaling_factor Num.zero); [|discriminate].
    apply traverse_ok in Hdur as [_ Hdur].
    destruct (Hdur i 0 Hzero) as (y & -> & Hy).
    by apply scale_duration_zero in Hy as ->.
  - by injection Hdur as <-.
Qed.

End Forward.

End InferenceArchitecture.

(** *** The word-boundary rule *)

(** The returned duration at position [i] is zero. *)
Definition zero_at (d : ToucanTTS.durations) (i : nat) : Prop :=
  match d with
  | ToucanTTS.Frames l => l !! i = Some 0
  | ToucanTTS.LogDurations l => ∃ x, l !! i = Some x ∧ Num.eqb x Num.zero = true
  end.

(** The reading under which the teacher-forced training mode forces the
    duration of a word boundary to zero as well. *)
Definition claimed_training_override (feature_index : string → nat)
    (duration_predictor : list (list fp) → list fp)
    (duration_predictor_inference : list (list fp) → list Z)
    (text : list (list fp)) : Prop :=
  ∀ d i v x,
    ToucanTTS.forward_durations feature_index duration_predictor
      duration_predictor_inference false text = Ok d →
    text !! i = Some v →
    v !! feature_index "word-boundary" = Some x →
    Num.eqb x Num.one = true →
    zero_at d i.


(** A text of three phonemes with the features voiced, phoneme,
    word-boundary and silence at the positions 0 to 3 of a phoneme vector:
    a voiced phoneme, a word boundary and a pause. *)
Definition example_index (name : string) : nat :=
  if String.eqb name "voiced" then 0
  else if String.eqb name "phoneme" then 1
  else if String.eqb name "word-boundary" then 2
  else 3.

Definition example_text : list (list fp) :=
  [[Fin 1; Fin 1; Fin 0; Fin 0];
   [Fin 0; Fin 0; Fin 1; Fin 0];
   [Fin 0; Fin 0; Fin 0; Fin 1]].

(** *** The overrides on values given by the caller *)

(** C10: in the forward call of the inference architecture the linguistic
    overrides come after the substitution of the curves given by the
    caller: when the phoneme vectors have the features, the curves cover
    the text and the pause factor can be applied, the call goes through
    the overrides, and then, whether a curve was given or predicted, the
    pitch is 0.0 at every token whose voiced feature is 0, the energy is
    0.0 at every token whose phoneme feature is 0 and the duration is 0 at
    every token whose word-boundary feature is 1; at the other tokens pitch
    and energy are the substituted values.  With the scale factors for
    duration, pitch and energy at 1.0 these are the curves the call
    returns. *)
Theorem overrides_after_substitution
    (feature_index : string → nat)
    (pitch_predictor energy_predictor : list (list fp) → list fp)
    (duration_predictor_inference : list (list fp) → list Z)
    (text : list (list fp))
    (gold_durations : option (list Z)) (gold_pitch gold_energy : option (list fp))
    (pause_duration_scaling_factor : fp) :
  let c0 :=
    InferenceToucanTTS.substitute pitch_predictor energy_predictor
      duration_predictor_inference text gold_durations gold_pitch gold_energy in
  Forall (has_features feature_index) text →
  (length text ≤ length (InferenceToucanTTS.pitch_predictions c0))%nat →
  (length text ≤ length (InferenceToucanTTS.energy_predictions c0))%nat →
  (length text ≤ length (InferenceToucanTTS.predicted_durations c0))%nat →
  Num.eqb pause_duration_scaling_factor Num.one
  || forallb (fun d => is_ok (InferenceToucanTTS.scale_duration d pause_duration_scaling_factor))
       (0 :: InferenceToucanTTS.predicted_durations c0) = true →
  ∃ c,
    InferenceToucanTTS.forward_overrides feature_index pitch_predictor energy_predictor
      duration_predictor_inference text gold_durations gold_pitch gold_energy
      pause_duration_scaling_factor = Ok c
    ∧ InferenceToucanTTS.forward_curves feature_index pitch_predictor energy_predictor
        duration_predictor_inference text gold_durations gold_pitch gold_energy
        (Fin 1) (Fin 1) (Fin 1) pause_duration_scaling_factor = Ok c
    ∧ (∀ given, gold_pitch = Some given →
                InferenceToucanTTS.pitch_predictions c0 = given)
    ∧ (∀ given, gold_energy = Some given →
                InferenceToucanTTS.energy_predictions c0 = given)
    ∧ (∀ given, gold_durations = Some given →
                InferenceToucanTTS.predicted_durations c0 = given)
    ∧ ∀ i v,
        text !! i = Some v →
        (∀ x, feature feature_index "voiced" v x → Num.eqb x Num.zero = true →
              InferenceToucanTTS.pitch_predictions c !! i = Some Num.zero)
        ∧ (∀ x, feature feature_index "phoneme" v x → Num.eqb x Num.zero = true →
                InferenceToucanTTS.energy_predictions c !! i = Some Num.zero)
        ∧ (∀ x, feature feature_index "word-boundary" v x → Num.eqb x Num.one = true →
                InferenceToucanTTS.predicted_durations c !! i = Some 0)
        ∧ (∀ x, feature feature_index "voiced" v x → Num.eqb x Num.zero = false →
                InferenceToucanTTS.pitch_predictions c !! i
                = InferenceToucanTTS.pitch_predictions c0 !! i)
        ∧ (∀ x, feature feature_index "phoneme" v x → Num.eqb x Num.zero = false →
                InferenceToucanTTS.energy_predictions c !! i
                = InferenceToucanTTS.energy_predictions c0 !! i).
Proof.
  intros c0 Hall Hp He Hd Hscale.
  destruct (forward_overrides_total feature_index pitch_predictor energy_predictor
              duration_predictor_inference text gold_durations gold_pitch gold_energy
              pause_duration_scaling_factor Hall Hp He Hd Hscale) as (c & Hc & Hat).
  exists c. split_and!.
  - exact Hc.
  - by apply forward_curves_unit_scales.
  - by intros given ->.
  - by intros given ->.
  - by intros given ->.
  - intros i v Hv. destruct (Hat i v Hv) as (H1 & H2 & H3 & _). fold c0 in H1, H2.
    split_and!.
    + intros x Hx Hzero. rewrite (H1 x Hx), Hzero. done.
    + intros x Hx Hzero. rewrite (H2 x Hx), Hzero. done.
    + exact H3.
    + intros x Hx Hzero. rewrite (H1 x Hx), Hzero. done.
    + intros x Hx Hzero. rewrite (H2 x Hx), Hzero. done.
Qed.

Lemma overrides_after_substitution_witness :
  ∃ c,
    InferenceToucanTTS.forward_overrides example_index
      (fun _ => [Fin 5; Fin 6; Fin 7]) (fun _ => [Fin 1; Fin 2; Fin 3])
      (fun _ => [3; 2; 4]) example_text
      (Some [6; 7; 8]) (Some [Fin 9; Fin 9; Fin 9]) (Some [Fin 4; Fin 4; Fin 4])
      (Fin (3 # 2)) = Ok c
    ∧ InferenceToucanTTS.pitch_predictions c !! 1%nat = Some Num.zero
    ∧ InferenceToucanTTS.energy_predictions c !! 1%nat = Some Num.zero
    ∧ InferenceToucanTTS.predicted_durations c !! 1%nat = Some 0
    ∧ InferenceToucanTTS.pitch_predictions c !! 0%nat = Some (Fin 9).
Proof.
  destruct (overrides_after_substitution example_index
              (fun _ => [Fin 5; Fin 6; Fin 7]) (fun _ => [Fin 1; Fin 2; Fin 3])
              (fun _ => [3; 2; 4]) example_text
              (Some [6; 7; 8]) (Some [Fin 9; Fin 9; Fin 9]) (Some [Fin 4; Fin 4; Fin 4])
              (Fin (3 # 2))) as (c & Hc & _ & _ & _ & _ & Hat).
  - repeat constructor.
  - cbn. lia.
  - cbn. lia.
  - cbn. lia.
  - reflexivity.
  - exists c. split; [exact Hc|].
    destruct (Hat 1%nat [Fin 0; Fin 0; Fin 1; Fin 0] eq_refl) as (H1 & H2 & H3 & _).
    destruct (Hat 0%nat [Fin 1; Fin 1; Fin 0; Fin 0] eq_refl) as (_ & _ & _ & H4 & _).
    split_and!.
    + apply (H1 (Fin 0)); reflexivity.
    + apply (H2 (Fin 0)); reflexivity.
    + apply (H3 (Fin 1)); reflexivity.
    + apply (H4 (Fin 1)); reflexivity.
Defined.

End OverrideProperties.

(** ** The codebook heads *)

Module CodebookProperties.
Import ResultLemmas Tensor.

(** *** Concatenation and linear layers *)

(** The first two axes of [x] are those of [t]. *)
Definition same_outer (t x : tensor) : Prop :=
  size0 x = size0 t ∧ size1 x = size1 t.

Lemma cat2_ok (a b x : tensor) :
  cat2 a b = Ok x →
  same_outer a x ∧ same_outer a b ∧ size2 x = (size2 a + size2 b)%nat.
Proof.
  unfold cat2, same_outer.
  destruct (size0 a =? size0 b)%nat eqn:H0; [|discriminate].
  destruct (size1 a =? size1 b)%nat eqn:H1; [|discriminate].
  apply Nat.eqb_eq in H0, H1. cbn. intros [= <-]. cbn. done.
Qed.

Lemma cat2_total (a b : tensor) :
  same_outer a b → ∃ x, cat2 a b = Ok x.
Proof.
  intros [H0 H1]. unfold cat2. rewrite H0, H1, !Nat.eqb_refl. cbn. eauto.
Qed.

Lemma cat_onto_snoc (acc t : tensor) (tensors : list tensor) :
  cat_onto acc (tensors ++ [t]) = do a <- cat_onto acc tensors; cat2 a t.
Proof.
  revert acc. induction tensors as [|u tensors IH]; intros acc; cbn.
  - by destruct (cat2 acc t).
  - destruct (cat2 acc u); cbn; [apply IH | done].
Qed.

Lemma cat_snoc (d t : tensor) (tensors : list tensor) :
  cat (d :: tensors ++ [t]) = do a <- cat (d :: tensors); cat2 a t.
Proof. cbn. apply cat_onto_snoc. Qed.

(** The concatenation of [d] and of tensors of width [w] on the same first
    two axes. *)
Lemma cat_uniform (w : nat) (d : tensor) (tensors : list tensor) :
  Forall (fun t => same_outer d t ∧ size2 t = w) tensors →
  ∃ x, cat (d :: tensors) = Ok x
       ∧ same_outer d x
       ∧ size2 x = (size2 d + length tensors * w)%nat.
Proof.
  induction tensors as [|t tensors IH] using rev_ind; intros Hall.
  - exists d. cbn. split; [done|]. split; [done | lia].
  - apply Forall_app in Hall as [Hall Ht]. apply Forall_singleton in Ht as [Ht Hw].
    destruct (IH Hall) as (a & Ha & [Ha0 Ha1] & Ha2).
    rewrite cat_snoc, Ha. cbn [rbind].
    destruct (cat2_total a t) as [x Hx].
    { destruct Ht as [Ht0 Ht1]. split; congruence. }
    exists x. split; [exact Hx|].
    apply cat2_ok in Hx as ([Hx0 Hx1] & _ & Hx2).
    split; [split; congruence|].
    rewrite Hx2, Ha2, Hw, length_app. cbn. lia.
Qed.

Lemma linear_ok (l : Linear) (x y : tensor) :
  linear l x = Ok y →
  size2 x = in_features l ∧ same_outer x y ∧ size2 y = out_features l.
Proof.
  unfold linear. destruct (size2 x =? in_features l)%nat eqn:H; [|discriminate].
  apply Nat.eqb_eq in H. intros [= <-]. cbn. done.
Qed.

Lemma linear_total (l : Linear) (x : tensor) :
  size2 x = in_features l → ∃ y, linear l x = Ok y.
Proof. intros H. unfold linear. rewrite H, Nat.eqb_refl. eauto. Qed.

Lemma cat_onto_outer (tensors : list tensor) :
  ∀ acc x, cat_onto acc tensors = Ok x → same_outer acc x.
Proof.
  induction tensors as [|t tensors IH]; intros acc x H; cbn in H.
  - by injection H as <-.
  - apply bind_ok in H as (a & Ha & H). apply cat2_ok in Ha as ([H0 H1] & _).
    apply IH in H as [H2 H3]. split; congruence.
Qed.

Lemma stack_ok (tensors stacked : list tensor) :
  stack tensors = Ok stacked → stacked = tensors.
Proof.
  unfold stack. destruct tensors as [|t rest]; [discriminate|].
  destruct (forallb _ _); [|discriminate]. by intros [= <-].
Qed.

Lemma stack_uniform (w : nat) (d : tensor) (tensors : list tensor) :
  tensors ≠ [] →
  Forall (fun t => same_outer d t ∧ size2 t = w) tensors →
  stack tensors = Ok tensors.
Proof.
  intros Hne Hall. destruct tensors as [|t rest]; [done|].
  apply Forall_cons in Hall as [[[Ht0 Ht1] Ht2] Hrest].
  unfold stack.
  assert (H : forallb (same_shape t) rest = true); [|by rewrite H].
  apply forallb_forall. intros r Hr.
  rewrite Forall_forall in Hrest.
  destruct (Hrest r) as [[Hr0 Hr1] Hr2]; [by apply list_elem_of_In|].
  unfold same_shape. rewrite !andb_true_iff, !Nat.eqb_eq. split_and!; congruence.
Qed.

Lemma split_uniform (g : tensor) (w n : nat) :
  (0 < w)%nat → (0 < n)%nat → size2 g = (n * w)%nat →
  length (split g w) = n
  ∧ Forall (fun t => same_outer g t ∧ size2 t = w) (split g w).
Proof.
  intros Hw Hn Hg. unfold split.
  assert (Hchunks : Nat.max 1 ((size2 g + w - 1) / w) = n).
  { rewrite Hg. replace (n * w + w - 1)%nat with (n * w + (w - 1))%nat by lia.
    rewrite Nat.div_add_l by lia. rewrite Nat.div_small by lia. lia. }
  rewrite Hchunks. split; [by rewrite length_map, length_seq|].
  apply Forall_forall. intros t Ht.
  apply list_elem_of_fmap in Ht as (c & -> & Hc). apply elem_of_seq in Hc.
  cbn. split; [done|]. rewrite Hg. nia.
Qed.

(** *** The heads built by the constructor *)

Lemma range_lookup_nat (n : Z) (k : nat) (head : Z) :
  range 0 n !! k = Some head → head = Z.of_nat k ∧ Z.of_nat k < n.
Proof.
  unfold range. rewrite list_lookup_fmap. intros H.
  destruct (seq 0 (Z.to_nat (n - 0)) !! k) as [i|] eqn:Hi; [|discriminate].
  apply lookup_seq in Hi as [-> Hlt]. injection H as <-. lia.
Qed.

Lemma hierarchical_classifier_ok (self : ToucanTTS.attributes)
    (init : Z → (nat → nat → fp) * (nat → fp)) (heads : list Linear) :
  ToucanTTS.hierarchical_classifier self init = Ok heads →
  length heads = Z.to_nat (ToucanTTS.self_num_codebooks self)
  ∧ ∀ k head,
      heads !! k = Some head →
      Z.of_nat (in_features head)
      = ToucanTTS.self_attention_dimension self
        + Z.of_nat k * ToucanTTS.self_codebook_dim self
      ∧ Z.of_nat (out_features head) = ToucanTTS.self_codebook_dim self.
Proof.
  unfold ToucanTTS.hierarchical_classifier. intros H.
  apply traverse_ok in H as [Hlen Hat]. split.
  - rewrite Hlen. unfold range. rewrite length_map, length_seq. f_equal. lia.
  - intros k head Hk.
    assert (Hin : is_Some (range 0 (ToucanTTS.self_num_codebooks self) !! k)).
    { apply lookup_lt_is_Some. rewrite <- Hlen. by eapply lookup_lt_Some. }
    destruct Hin as [z Hz]. destruct (Hat k z Hz) as (head' & Hk' & Hnew).
    rewrite Hk in Hk'. injection Hk' as <-.
    apply range_lookup_nat in Hz as [-> _].
    unfold new_Linear in Hnew.
    destruct (0 <=? _) eqn:H1; [|discriminate].
    destruct (0 <=? ToucanTTS.self_codebook_dim self) eqn:H2; [|discriminate].
    apply Z.leb_le in H1, H2. cbn in Hnew. injection Hnew as <-. cbn. lia.
Qed.

Lemma hierarchical_classifier_total (self : ToucanTTS.attributes)
    (init : Z → (nat → nat → fp) * (nat → fp)) :
  0 ≤ ToucanTTS.self_attention_dimension self →
  0 ≤ ToucanTTS.self_codebook_dim self →
  ∃ heads, ToucanTTS.hierarchical_classifier self init = Ok heads.
Proof.
  intros Ha Hc. apply traverse_total. apply forallb_forall. intros head Hin.
  apply list_elem_of_In, list_elem_of_lookup in Hin as [k Hk].
  apply range_lookup_nat in Hk as [-> _].
  unfold new_Linear.
  destruct (Z.leb_spec 0 (ToucanTTS.self_attention_dimension self
                          + Z.of_nat k * ToucanTTS.self_codebook_dim self)); [|nia].
  destruct (Z.leb_spec 0 (ToucanTTS.self_codebook_dim self)); [done | lia].
Qed.

(** *** The loop over the heads of the training architecture *)

Section TrainingArchitecture.
Import ToucanTTS.

Variable decoded_speech : tensor.
Variable gold_frames_per_codebook : list tensor.

(** Teacher forcing: head [k + j] is applied to the decoder output joined
    with the first [k + j] gold chunks. *)
Lemma classifier_loop_training (heads : list Linear) :
  ∀ (k : nat) (st st' : heads_state),
    classifier_loop false gold_frames_per_codebook heads k st = Ok st' →
    gold_codec_frames st = decoded_speech :: take k gold_frames_per_codebook →
    ∃ new_inputs new_outputs,
      head_inputs st' = head_inputs st ++ new_inputs
      ∧ predicted_codec_frames st' = predicted_codec_frames st ++ new_outputs
      ∧ length new_inputs = length heads
      ∧ length new_outputs = length heads
      ∧ ∀ j head,
          heads !! j = Some head →
          ∃ x y,
            new_inputs !! j = Some x
            ∧ new_outputs !! j = Some y
            ∧ cat (decoded_speech :: take (k + j) gold_frames_per_codebook) = Ok x
            ∧ linear head x = Ok y.
Proof.
  induction heads as [|head0 heads IH]; intros k st st' H Hgold.
  - cbn in H. injection H as <-. exists [], []. rewrite !app_nil_r.
    split_and!; [done..|]. intros j head Hj. done.
  - cbn [classifier_loop negb] in H.
    apply bind_ok in H as (x0 & Hx0 & H).
    apply bind_ok in H as (y0 & Hy0 & H).
    apply bind_ok in H as (g & Hg%subscript_ok & H).
    apply IH in H as (new_inputs & new_outputs & Hin & Hout & Hli & Hlo & Hat).
    2:{ cbn [gold_codec_frames]. rewrite Hgold. cbn. f_equal.
        by rewrite (take_S_r _ _ g). }
    cbn [head_inputs predicted_codec_frames] in Hin, Hout.
    exists (x0 :: new_inputs), (y0 :: new_outputs). split_and!.
    + rewrite Hin. by rewrite <- app_assoc.
    + rewrite Hout. by rewrite <- app_assoc.
    + cbn. lia.
    + cbn. lia.
    + intros [|j] head Hj; cbn in Hj.
      * injection Hj as <-. exists x0, y0. rewrite Nat.add_0_r.
        rewrite Hgold in Hx0. done.
      * destruct (Hat j head Hj) as (x & y & Hx & Hy & Hcat & Hlin).
        exists x, y. replace (k + S j)%nat with (S k + j)%nat by lia. done.
Qed.

(** Inference: head [k + j] is applied to the decoder output joined with
    the outputs of the heads before it. *)
Lemma classifier_loop_inference (heads : list Linear) :
  ∀ (k : nat) (st st' : heads_state) (outputs : list tensor),
    classifier_loop true gold_frames_per_codebook heads k st = Ok st' →
    predicted_codec_frames st = decoded_speech :: outputs →
    ∃ new_inputs new_outputs,
      head_inputs st' = head_inputs st ++ new_inputs
      ∧ predicted_codec_frames st' = decoded_speech :: outputs ++ new_outputs
      ∧ length new_inputs = length heads
      ∧ length new_outputs = length heads
      ∧ ∀ j head,
          heads !! j = Some head →
          ∃ x y,
            new_inputs !! j = Some x
            ∧ new_outputs !! j = Some y
            ∧ cat (decoded_speech :: outputs ++ take j new_outputs) = Ok x
            ∧ linear head x = Ok y.
Proof.
  induction heads as [|head0 heads IH]; intros k st st' outputs H Hpred.
  - cbn in H. injection H as <-. exists [], []. rewrite !app_nil_r.
    split_and!; [done..|]. intros j head Hj. done.
  - cbn [classifier_loop negb] in H.
    apply bind_ok in H as (x0 & Hx0 & H).
    apply bind_ok in H as (y0 & Hy0 & H).
    apply (IH _ _ _ (outputs ++ [y0])) in H
      as (new_inputs & new_outputs & Hin & Hout & Hli & Hlo & Hat).
    2:{ cbn [predicted_codec_frames]. by rewrite Hpred. }
    cbn [head_inputs] in Hin.
    exists (x0 :: new_inputs), (y0 :: new_outputs). split_and!.
    + rewrite Hin. by rewrite <- app_assoc.
    + rewrite Hout. by rewrite <- app_assoc.
    + cbn. lia.
    + cbn. lia.
    + intros [|j] head Hj; cbn in Hj.
      * injection Hj as <-. exists x0, y0. cbn [take]. rewrite app_nil_r.
        rewrite Hpred in Hx0. done.
      * destruct (Hat j head Hj) as (x & y & Hx & Hy & Hcat & Hlin).
        exists x, y. cbn [take]. rewrite <- app_assoc in Hcat. done.
Qed.

(** The tensors of width [w] on the first two axes of the decoder
    output. *)
Definition uniform (w : nat) (tensors : list tensor) : Prop :=
  Forall (fun t => same_outer decoded_speech t ∧ size2 t = w) tensors.

Lemma classifier_loop_training_total (w : nat) (heads : list Linear) :
  ∀ (k : nat) (st : heads_state),
    gold_codec_frames st = decoded_speech :: take k gold_frames_per_codebook →
    uniform w gold_frames_per_codebook →
    (k + length heads ≤ length gold_frames_per_codebook)%nat →
    (∀ j head, heads !! j = Some head →
               in_features head = (size2 decoded_speech + (k + j) * w)%nat) →
    ∃ st', classifier_loop false gold_frames_per_codebook heads k st = Ok st'.
Proof.
  induction heads as [|head0 heads IH]; intros k st Hgold Hall Hlen Hin.
  - cbn. eauto.
  - cbn [classifier_loop negb length] in Hlen |- *.
    destruct (cat_uniform w decoded_speech (take k gold_frames_per_codebook))
      as (x & Hx & _ & Hx2).
    { by apply Forall_take. }
    rewrite Hgold, Hx. cbn [rbind].
    destruct (linear_total head0 x) as [y ->].
    { rewrite Hx2, length_take, (Hin 0%nat head0 eq_refl). lia. }
    cbn [rbind].
    destruct (lookup_lt_is_Some_2 gold_frames_per_codebook k ltac:(lia)) as [g Hg].
    unfold subscript. rewrite Hg. cbn [rbind].
    apply IH.
    + cbn. f_equal. by rewrite (take_S_r _ _ g).
    + done.
    + lia.
    + intros j head Hj. rewrite (Hin (S j) head Hj). lia.
Qed.

Lemma classifier_loop_inference_total (w : nat) (heads : list Linear) :
  ∀ (k : nat) (st : heads_state) (outputs : list tensor),
    predicted_codec_frames st = decoded_speech :: outputs →
    length outputs = k →
    uniform w outputs →
    (∀ j head, heads !! j = Some head →
               in_features head = (size2 decoded_speech + (k + j) * w)%nat
               ∧ out_features head = w) →
    ∃ st', classifier_loop true gold_frames_per_codebook heads k st = Ok st'.
Proof.
  induction heads as [|head0 heads IH]; intros k st outputs Hpred Hk Hall Hin.
  - cbn. eauto.
  - cbn [classifier_loop negb].
    destruct (cat_uniform w decoded_speech outputs Hall) as (x & Hx & Hxo & Hx2).
    rewrite Hpred, Hx. cbn [rbind].
    destruct (Hin 0%nat head0 eq_refl) as [Hin0 Hout0].
    destruct (linear_total head0 x) as [y Hy].
    { rewrite Hx2, Hk, Hin0. lia. }
    rewrite Hy. cbn [rbind].
    apply linear_ok in Hy as (_ & Hyo & Hy2).
    apply (IH _ _ (outputs ++ [y])).
    + reflexivity.
    + rewrite length_app. cbn. lia.
    + apply Forall_app. split; [done|]. apply Forall_singleton.
      destruct Hxo, Hyo. split; [split; congruence | congruence].
    + intros j head Hj. destruct (Hin (S j) head Hj) as [H1 H2].
      split; [rewrite H1; lia | done].
Qed.

End TrainingArchitecture.

(** *** The end of [_forward] in the training architecture *)

Section ForwardCodecFrames.
Import ToucanTTS.

Variable decoded_speech : tensor.

Lemma cat_nonempty_uniform (w : nat) (tensors : list tensor) :
  tensors ≠ [] →
  uniform decoded_speech w tensors →
  ∃ x, cat tensors = Ok x.
Proof.
  intros Hne Hall. destruct tensors as [|t rest]; [done|].
  apply Forall_cons in Hall as [[[Ht0 Ht1] Ht2] Hrest].
  destruct (cat_uniform w t rest) as (x & Hx & _); [|eauto].
  eapply Forall_impl; [exact Hrest|]. intros r [[Hr0 Hr1] Hr2].
  split; [split; congruence | done].
Qed.

(** The outputs of heads of output width [w], applied to concatenations
    that start with the decoder output. *)
Lemma outputs_uniform (w : nat) (heads : list Linear) (outputs : list tensor) :
  length outputs = length heads →
  (∀ j head, heads !! j = Some head → out_features head = w) →
  (∀ j head, heads !! j = Some head →
     ∃ x y tensors, outputs !! j = Some y
                    ∧ cat (decoded_speech :: tensors) = Ok x
                    ∧ linear head x = Ok y) →
  uniform decoded_speech w outputs.
Proof.
  intros Hlen Hout Hat. apply Forall_lookup. intros j y Hy.
  destruct (lookup_lt_is_Some_2 heads j) as [head Hhead].
  { rewrite <- Hlen. by eapply lookup_lt_Some. }
  destruct (Hat j head Hhead) as (x & y' & tensors & Hy' & Hcat & Hlin).
  rewrite Hy in Hy'. injection Hy' as <-.
  apply cat_onto_outer in Hcat as [Hx0 Hx1].
  apply linear_ok in Hlin as (_ & [Hy0 Hy1] & Hy2).
  split; [split; congruence|]. rewrite Hy2. by eapply Hout.
Qed.

Lemma forward_codec_frames_inputs (heads : list Linear) (is_inference : bool)
    (gold_speech : option tensor) (codec_frames : tensor) (st : heads_state) :
  forward_codec_frames heads is_inference decoded_speech gold_speech
  = Ok (codec_frames, st) →
  ∃ codebooks,
    (if is_inference then codebooks = tail (predicted_codec_frames st)
     else ∃ g, gold_speech = Some g ∧ codebooks = split g 8)
    ∧ length (head_inputs st) = length heads
    ∧ ∀ k head,
        heads !! k = Some head →
        ∃ x y,
          head_inputs st !! k = Some x
          ∧ predicted_codec_frames st !! S k = Some y
          ∧ cat (decoded_speech :: take k codebooks) = Ok x
          ∧ linear head x = Ok y.
Proof.
  unfold forward_codec_frames. intros H.
  apply bind_ok in H as (gfpc & Hgfpc & H).
  apply bind_ok in H as (st' & Hloop & H).
  apply bind_ok in H as (codec & _ & H). injection H as _ <-.
  destruct is_inference; cbn [negb] in Hgfpc, Hloop.
  - apply (classifier_loop_inference decoded_speech gfpc heads 0 _ _ []) in Hloop
      as (new_inputs & new_outputs & Hin & Hout & Hli & Hlo & Hat); [|done].
    cbn in Hin, Hout. exists new_outputs. rewrite Hin, Hout. cbn [tail].
    split_and!; [done | done |].
    intros k head Hk. destruct (Hat k head Hk) as (x & y & Hx & Hy & Hcat & Hlin).
    exists x, y. done.
  - destruct gold_speech as [g|]; [|discriminate].
    apply stack_ok in Hgfpc as ->.
    apply (classifier_loop_training decoded_speech (split g 8) heads 0) in Hloop
      as (new_inputs & new_outputs & Hin & Hout & Hli & Hlo & Hat); [|done].
    cbn in Hin, Hout. exists (split g 8). rewrite Hin, Hout.
    split_and!; [eauto | done |].
    intros k head Hk. destruct (Hat k head Hk) as (x & y & Hx & Hy & Hcat & Hlin).
    exists x, y. done.
Qed.

Lemma forward_codec_frames_training_total (w : nat) (heads : list Linear) (g : tensor) :
  (0 < length heads)%nat →
  same_outer decoded_speech g →
  size2 g = (length heads * 8)%nat →
  (∀ k head, heads !! k = Some head →
             in_features head = (size2 decoded_speech + k * 8)%nat
             ∧ out_features head = w) →
  ∃ r, forward_codec_frames heads false decoded_speech (Some g) = Ok r.
Proof.
  intros Hn [Hg0 Hg1] Hg2 Hheads. unfold forward_codec_frames. cbn [negb].
  destruct (split_uniform g 8 (length heads)) as [Hlen Hall]; [lia | lia | done |].
  assert (Huni : uniform decoded_speech 8 (split g 8)).
  { eapply Forall_impl; [exact Hall|]. intros t [[Ht0 Ht1] Ht2].
    split; [split; congruence | done]. }
  rewrite (stack_uniform 8 decoded_speech)
    by (done || (intros E; rewrite E in Hlen; cbn in Hlen; lia)).
  cbn [rbind].
  destruct (classifier_loop_training_total decoded_speech (split g 8) 8 heads 0
              {| gold_codec_frames := [decoded_speech];
                 predicted_codec_frames := [decoded_speech];
                 head_inputs := [] |}) as [st Hst];
    [done | done | lia | intros j head Hj; by destruct (Hheads j head Hj) |].
  rewrite Hst. cbn [rbind].
  apply (classifier_loop_training decoded_speech (split g 8) heads 0) in Hst
    as (new_inputs & new_outputs & _ & Hout & _ & Hlo & Hat); [|done].
  rewrite Hout. cbn [predicted_codec_frames app tail].
  destruct (cat_nonempty_uniform w new_outputs) as [x ->]; [| |cbn; eauto].
  - intros E. rewrite E in Hlo. cbn in Hlo. lia.
  - apply (outputs_uniform w heads); [done | |].
    + intros j head Hj. by destruct (Hheads j head Hj).
    + intros j head Hj. destruct (Hat j head Hj) as (x & y & _ & Hy & Hcat & Hlin).
      eauto 10.
Qed.

Lemma forward_codec_frames_inference_total (w : nat) (heads : list Linear)
    (gold_speech : option tensor) :
  (0 < length heads)%nat →
  (∀ k head, heads !! k = Some head →
             in_features head = (size2 decoded_speech + k * w)%nat
             ∧ out_features head = w) →
  ∃ r, forward_codec_frames heads true decoded_speech gold_speech = Ok r.
Proof.
  intros Hn Hheads. unfold forward_codec_frames. cbn [negb rbind].
  destruct (classifier_loop_inference_total decoded_speech [] w heads 0
              {| gold_codec_frames := [];
                 predicted_codec_frames := [decoded_speech];
                 head_inputs := [] |} []) as [st Hst];
    [done | done | by apply Forall_nil | done |].
  rewrite Hst. cbn [rbind].
  apply (classifier_loop_inference decoded_speech [] heads 0 _ _ []) in Hst
    as (new_inputs & new_outputs & _ & Hout & _ & Hlo & Hat); [|done].
  rewrite Hout. cbn [predicted_codec_frames app tail].
  destruct (cat_nonempty_uniform w new_outputs) as [x ->]; [| |cbn; eauto].
  - intros E. rewrite E in Hlo. cbn in Hlo. lia.
  - apply (outputs_uniform w heads); [done | |].
    + intros j head Hj. by destruct (Hheads j head Hj).
    + intros j head Hj. destruct (Hat j head Hj) as (x & y & _ & Hy & Hcat & Hlin).
      eauto 10.
Qed.

End ForwardCodecFrames.

(** *** The codebooks of the inference architecture *)

Section InferenceArchitecture.
Import InferenceToucanTTS.

Variable tanh : fp → fp.
Variable codebook_decoder : nat → tensor → tensor.
Variable decoded_speech : tensor.

Lemma apply_projector_ok (p : projector) (x y : tensor) :
  apply_projector tanh p x = Ok y →
  size2 x = in_features (hidden p)
  ∧ same_outer x y
  ∧ size2 y = out_features (output p).
Proof.
  unfold apply_projector. intros H. apply bind_ok in H as (h & Hh & H).
  apply linear_ok in Hh as (Hin & [Hh0 Hh1] & _).
  apply linear_ok in H as (_ & [Hy0 Hy1] & Hout). cbn in Hy0, Hy1.
  split; [done|]. split; [split; congruence | done].
Qed.

Lemma apply_projector_total (p : projector) (x : tensor) :
  size2 x = in_features (hidden p) →
  out_features (hidden p) = in_features (output p) →
  ∃ y, apply_projector tanh p x = Ok y.
Proof.
  intros Hin Hmid. unfold apply_projector.
  destruct (linear_total (hidden p) x Hin) as [h Hh]. rewrite Hh. cbn [rbind].
  apply linear_total. cbn. apply linear_ok in Hh as (_ & _ & ->). done.
Qed.

(** Every codebook reads the decoder output alone. *)
Lemma codebook_loop_spec (feat_outs : list projector) :
  ∀ (index : nat) (st st' : codebooks_state),
    codebook_loop tanh codebook_decoder decoded_speech feat_outs index st = Ok st' →
    ∃ new_vectors new_decoder_inputs new_projector_inputs,
      codebook_vectors st' = codebook_vectors st ++ new_vectors
      ∧ decoder_inputs st' = decoder_inputs st ++ new_decoder_inputs
      ∧ projector_inputs st' = projector_inputs st ++ new_projector_inputs
      ∧ length new_vectors = length feat_outs
      ∧ length new_decoder_inputs = length feat_outs
      ∧ length new_projector_inputs = length feat_outs
      ∧ ∀ j p,
          feat_outs !! j = Some p →
          new_decoder_inputs !! j = Some decoded_speech
          ∧ new_projector_inputs !! j
            = Some (codebook_decoder (index + j) decoded_speech)
          ∧ ∃ y, new_vectors !! j = Some y
                 ∧ apply_projector tanh p
                     (codebook_decoder (index + j) decoded_speech) = Ok y.
Proof.
  induction feat_outs as [|p0 feat_outs IH]; intros index st st' H.
  - cbn in H. injection H as <-. exists [], [], []. rewrite !app_nil_r.
    split_and!; [done..|]. intros j p Hj. done.
  - cbn [codebook_loop] in H. apply bind_ok in H as (y0 & Hy0 & H).
    apply IH in H as (vs & ds & ps & Hv & Hd & Hp & Hlv & Hld & Hlp & Hat).
    cbn [codebook_vectors decoder_inputs projector_inputs] in Hv, Hd, Hp.
    exists (y0 :: vs), (decoded_speech :: ds),
      (codebook_decoder index decoded_speech :: ps).
    split_and!.
    + rewrite Hv. by rewrite <- app_assoc.
    + rewrite Hd. by rewrite <- app_assoc.
    + rewrite Hp. by rewrite <- app_assoc.
    + cbn. lia.
    + cbn. lia.
    + cbn. lia.
    + intros [|j] p Hj; cbn in Hj.
      * injection Hj as <-. rewrite Nat.add_0_r. cbn. eauto.
      * replace (index + S j)%nat with (S index + j)%nat by lia.
        cbn. by apply Hat.
Qed.

Lemma codebook_loop_total (w : nat) (feat_outs : list projector) :
  ∀ (index : nat) (st : codebooks_state),
    (∀ k, size2 (codebook_decoder k decoded_speech) = size2 decoded_speech) →
    (∀ j p, feat_outs !! j = Some p →
            in_features (hidden p) = size2 decoded_speech
            ∧ out_features (hidden p) = in_features (output p)) →
    ∃ st', codebook_loop tanh codebook_decoder decoded_speech feat_outs index st = Ok st'.
Proof.
  induction feat_outs as [|p0 feat_outs IH]; intros index st Hdec Hps.
  - cbn. eauto.
  - cbn [codebook_loop]. destruct (Hps 0%nat p0 eq_refl) as [Hin Hmid].
    destruct (apply_projector_total p0 (codebook_decoder index decoded_speech))
      as [y ->]; [by rewrite Hdec | done |].
    cbn [rbind]. apply IH; [done|]. intros j p Hj. by apply (Hps (S j)).
Qed.

Lemma make_feat_outs_ok (attention_dimension codebook_dim n_codebooks : Z)
    (init : Z → (nat → nat → fp) * (nat → fp) * ((nat → nat → fp) * (nat → fp)))
    (feat_outs : list projector) :
  make_feat_outs attention_dimension codebook_dim n_codebooks init = Ok feat_outs →
  length feat_outs = Z.to_nat n_codebooks
  ∧ ∀ k p,
      feat_outs !! k = Some p →
      Z.of_nat (in_features (hidden p)) = attention_dimension
      ∧ out_features (hidden p) = in_features (output p)
      ∧ Z.of_nat (out_features (output p)) = codebook_dim.
Proof.
  unfold make_feat_outs. intros H. apply traverse_ok in H as [Hlen Hat]. split.
  - rewrite Hlen. unfold range. rewrite length_map, length_seq. f_equal. lia.
  - intros k p Hk.
    assert (Hin : is_Some (range 0 n_codebooks !! k)).
    { apply lookup_lt_is_Some. rewrite <- Hlen. by eapply lookup_lt_Some. }
    destruct Hin as [z Hz]. destruct (Hat k z Hz) as (p' & Hk' & Hnew).
    rewrite Hk in Hk'. injection Hk' as <-.
    unfold new_projector in Hnew.
    apply bind_ok in Hnew as (l1 & Hl1 & Hnew).
    apply bind_ok in Hnew as (l2 & Hl2 & Hnew). injection Hnew as <-.
    unfold new_Linear in Hl1, Hl2.
    destruct (0 <=? attention_dimension) eqn:H1; [|discriminate].
    destruct (0 <=? codebook_dim) eqn:H2; [|discriminate].
    apply Z.leb_le in H1, H2. cbn in Hl1, Hl2.
    injection Hl1 as <-. injection Hl2 as <-. cbn. lia.
Qed.

Lemma forward_codebooks_inputs (feat_outs : list projector)
    (decoded_spectrogram : tensor) (st : codebooks_state) :
  forward_codebooks tanh codebook_decoder feat_outs decoded_speech
  = Ok (decoded_spectrogram, st) →
  length (projector_inputs st) = length feat_outs
  ∧ ∀ k x,
      projector_inputs st !! k = Some x →
      decoder_inputs st !! k = Some decoded_speech
      ∧ x = codebook_decoder k decoded_speech
      ∧ ∃ p, feat_outs !! k = Some p ∧ size2 x = in_features (hidden p).
Proof.
  unfold forward_codebooks. intros H.
  apply bind_ok in H as (st' & Hloop & H).
  apply bind_ok in H as (spectrogram & _ & H). injection H as _ <-.
  apply codebook_loop_spec in Hloop
    as (vs & ds & ps & _ & Hd & Hp & _ & _ & Hlp & Hat).
  cbn in Hd, Hp. rewrite Hd, Hp. split; [done|].
  intros k x Hx.
  destruct (lookup_lt_is_Some_2 feat_outs k) as [p Hk].
  { rewrite <- Hlp. by eapply lookup_lt_Some. }
  destruct (Hat k p Hk) as (Hdk & Hpk & y & _ & Hy).
  cbn in Hpk. rewrite Hx in Hpk. injection Hpk as ->.
  split; [done|]. split; [done|]. exists p. split; [done|].
  by apply apply_projector_ok in Hy as [? _].
Qed.

Lemma forward_codebooks_total (w : nat) (feat_outs : list projector) :
  (0 < length feat_outs)%nat →
  (∀ k, same_outer decoded_speech (codebook_decoder k decoded_speech)
        ∧ size2 (codebook_decoder k decoded_speech) = size2 decoded_speech) →
  (∀ j p, feat_outs !! j = Some p →
          in_features (hidden p) = size2 decoded_speech
          ∧ out_features (hidden p) = in_features (output p)
          ∧ out_features (output p) = w) →
  ∃ r, forward_codebooks tanh codebook_decoder feat_outs decoded_speech = Ok r.
Proof.
  intros Hn Hdec Hps. unfold forward_codebooks.
  destruct (codebook_loop_total w feat_outs 0
              {| codebook_vectors := []; decoder_inputs := [];
                 projector_inputs := [] |}) as [st Hst].
  { intros k. by destruct (Hdec k). }
  { intros j p Hj. by destruct (Hps j p Hj) as (? & ? & _). }
  rewrite Hst. cbn [rbind].
  apply codebook_loop_spec in Hst as (vs & ds & ps & Hv & _ & _ & Hlv & _ & _ & Hat).
  cbn in Hv. rewrite Hv.
  destruct (cat_nonempty_uniform decoded_speech w vs) as [x ->]; [| |cbn; eauto].
  - intros E. rewrite E in Hlv. cbn in Hlv. lia.
  - apply Forall_lookup. intros j y Hy.
    destruct (lookup_lt_is_Some_2 feat_outs j) as [p Hp].
    { rewrite <- Hlv. by eapply lookup_lt_Some. }
    destruct (Hat j p Hp) as (_ & _ & y' & Hy' & Happ).
    rewrite Hy in Hy'. injection Hy' as <-.
    apply apply_projector_ok in Happ as (_ & [Hy0 Hy1] & Hy2).
    destruct (Hdec (0 + j)%nat) as [[Hd0 Hd1] _].
    destruct (Hps j p Hp) as (_ & _ & Hw).
    split; [split; congruence | congruence].
Qed.

End InferenceArchitecture.

(** *** The inputs of the heads *)

(** The reading under which the projector of codebook [k] of the inference
    architecture reads [attention_dimension + k * codebook_dim] features. *)
Definition claimed_inference_widths (tanh : fp → fp)
    (codebook_decoder : nat → tensor → tensor)
    (attention_dimension codebook_dim n_codebooks : Z)
    (init : Z → (nat → nat → fp) * (nat → fp) * ((nat → nat → fp) * (nat → fp)))
    (decoded_speech : tensor) : Prop :=
  ∀ feat_outs decoded_spectrogram st k x,
    InferenceToucanTTS.make_feat_outs attention_dimension codebook_dim n_codebooks init
    = Ok feat_outs →
    InferenceToucanTTS.forward_codebooks tanh codebook_decoder feat_outs decoded_speech
    = Ok (decoded_spectrogram, st) →
    InferenceToucanTTS.projector_inputs st !! k = Some x →
    Z.of_nat (size2 x) = attention_dimension + Z.of_nat k * codebook_dim.

(** A decoder output of one frame of two features, all parameters zero,
    codebook decoders that return their input. *)
Definition example_decoded : tensor :=
  {| size0 := 1; size1 := 1; size2 := 2; entry := fun _ _ _ => Num.zero |}.

Definition example_parameters (index : Z)
  : (nat → nat → fp) * (nat → fp) * ((nat → nat → fp) * (nat → fp)) :=
  ((fun _ _ => Num.zero, fun _ => Num.zero), (fun _ _ => Num.zero, fun _ => Num.zero)).



(** The default architecture on one frame: 9 heads on a decoder output of
    width 256 and gold frames of width 72. *)
Definition default_decoded : tensor :=
  {| size0 := 1; size1 := 1; size2 := 256; entry := fun _ _ _ => Num.zero |}.

Definition default_gold : tensor :=
  {| size0 := 1; size1 := 1; size2 := 72; entry := fun _ _ _ => Num.one |}.

Definition zero_parameters (head : Z) : (nat → nat → fp) * (nat → fp) :=
  (fun _ _ => Num.zero, fun _ => Num.zero).

Definition default_heads : list Linear :=
  map (fun k => {| in_features := 256 + k * 8; out_features := 8;
                   weight := fun _ _ => Num.zero; bias := fun _ => Num.zero |})
      (seq 0 9).


End CodebookProperties.

(** * Further properties of the code *)

(** ** The meta-training loop at its edges *)

Module TrainLoopEdges.
Import TrainLoop ResultLemmas.

Lemma all_nan_not_some (losses : list fp) :
  existsb not_nan losses = negb (forallb Num.is_nan losses).
Proof.
  induction losses as [|l losses IH]; [done|]. cbn [existsb forallb].
  rewrite IH, negb_andb. reflexivity.
Qed.

Lemma backward_no_loss (l1 l2 l3 l4 l5 : fp) :
  forallb Num.is_nan [l1; l2; l3; l4; l5] = true →
  backward (sum_losses l1 l2 l3 l4 l5) = Raise AttributeError.
Proof.
  destruct l1; try discriminate. destruct l2; try discriminate.
  destruct l3; try discriminate. destruct l4; try discriminate.
  destruct l5; try discriminate. reflexivity.
Qed.

Section Edges.

Context {params optimizer_state scheduler_state embedding Batch Rng : Type}.

Abbreviation state := (@state params optimizer_state scheduler_state embedding Batch Rng).
Abbreviation files := (@files params optimizer_state scheduler_state embedding).
Abbreviation check_dict := (@check_dict params optimizer_state scheduler_state embedding).
Abbreviation network := (@network params).

Variable get_most_recent_checkpoint : files → option path.
Variable delete_old_checkpoints : files → nat → files.
Variable get_n_recent_checkpoints_paths : files → nat → list path.
Variable average_checkpoints : files → list path → network * embedding.
Variable save_model_for_use : network → embedding → check_dict.
Variable AdamW : params → fp → optimizer_state.
Variable WarmupScheduler : fp → Z → Z → scheduler_state.
Variable default_embedding : embedding.
Variable collate_and_pad : list Batch → Batch.
Variable net_forward : network → Batch → fp * fp * fp * fp * fp.
Variable update :
  network → optimizer_state → scheduler_state → Batch → list bool →
  params * optimizer_state * scheduler_state.
Variable random_sample : Rng → nat → list nat * Rng.
Variable loader_iter : Rng → nat → list Batch * Rng.

Abbreviation train_on' :=
  (train_on delete_old_checkpoints get_n_recent_checkpoints_paths
     average_checkpoints save_model_for_use default_embedding
     collate_and_pad net_forward update).

Lemma checkpoint_errors (steps step_counter : Z) (st : state) (e : exn) :
  checkpoint delete_old_checkpoints get_n_recent_checkpoints_paths
    average_checkpoints save_model_for_use default_embedding steps step_counter st
  = Raise e → e = KeyError.
Proof.
  unfold checkpoint. destruct (in_final_fifth _ _); [|discriminate].
  destruct (average_checkpoints _ _) as [averaged default_embed].
  cbn [torch_load torch_save best rbind].
  destruct (model _); cbn; [discriminate|]. by intros [= <-].
Qed.

(** X1: a step on which all five losses are NaN ends the run: the sum is still
    the Python float it started as, which has no [backward]; this is the
    only way for a step to raise an [AttributeError]. *)
Theorem step_without_loss_raises
    (steps steps_per_checkpoint step_counter : Z) (drawn_batches : list Batch)
    (st : state) (l1 l2 l3 l4 l5 : fp) :
  net_forward (net st) (collate_and_pad drawn_batches) = (l1, l2, l3, l4, l5) →
  train_on' steps steps_per_checkpoint step_counter drawn_batches st
  = Raise AttributeError
  ↔ forallb Num.is_nan [l1; l2; l3; l4; l5] = true.
Proof.
  intros Hforward. unfold train_on. rewrite Hforward.
  destruct (forallb Num.is_nan [l1; l2; l3; l4; l5]) eqn:Hall.
  - rewrite (backward_no_loss _ _ _ _ _ Hall). done.
  - split; [|discriminate]. intros H. exfalso.
    destruct (CheckpointProperties.backward_sum_losses l1 l2 l3 l4 l5) as [x Hx].
    { by rewrite all_nan_not_some, Hall. }
    rewrite Hx in H. cbn [rbind] in H.
    destruct (update _ _ _ _ _) as [[w o] s].
    destruct (at_checkpoint_boundary _ _); [|discriminate].
    by apply checkpoint_errors in H.
Qed.

(** *** Starting from a checkpoint *)

Abbreviation train_loop' :=
  (train_loop get_most_recent_checkpoint delete_old_checkpoints
     get_n_recent_checkpoints_paths average_checkpoints save_model_for_use
     AdamW WarmupScheduler default_embedding
     collate_and_pad net_forward update random_sample loader_iter).
Abbreviation run_steps' :=
  (run_steps delete_old_checkpoints get_n_recent_checkpoints_paths
     average_checkpoints save_model_for_use default_embedding
     collate_and_pad net_forward update random_sample loader_iter).
Abbreviation train_step' :=
  (train_step delete_old_checkpoints get_n_recent_checkpoints_paths
     average_checkpoints save_model_for_use default_embedding
     collate_and_pad net_forward update random_sample loader_iter).

(** The state a run starts in when it takes [m], [o] and [s] from a
    checkpoint. *)
Definition restored (n : network) (datasets : nat) (g : Rng) (d : files)
    (m : params) (o : optimizer_state) (s : scheduler_state) : state :=
  {| net := {| weights := m; net_config := net_config n |};
     optimizer_st := o;
     scheduler_st := s;
     train_iters := (make_iters loader_iter 0 datasets g).1;
     rng := (make_iters loader_iter 0 datasets g).2;
     disk := d |}.

Lemma range_cons (a b : Z) : a < b → range a b = a :: range (a + 1) b.
Proof.
  intros Hab. unfold range.
  replace (Z.to_nat (b - a)) with (S (Z.to_nat (b - (a + 1)))) by lia.
  cbn [seq map]. f_equal; [lia|].
  rewrite <- seq_shift, map_map. apply map_ext. intros i. lia.
Qed.

Lemma range_empty (a b : Z) : b ≤ a → range a b = [].
Proof. intros Hab. unfold range. by replace (Z.to_nat (b - a)) with 0%nat by lia. Qed.

Lemma train_loop_eq (fuel : nat) (n : network) (datasets : nat)
    (batch_size steps steps_per_checkpoint adjusted : Z) (lr : fp)
    (path_to_checkpoint : option path) (resume fine_tune : bool)
    (warmup_steps : Z) (g : Rng) (d : files) :
  StepTarget.adjust_steps steps steps_per_checkpoint = Ok adjusted →
  train_loop' fuel n datasets batch_size steps steps_per_checkpoint lr
    path_to_checkpoint resume fine_tune warmup_steps g d
  = match
      (if resume then get_most_recent_checkpoint d else path_to_checkpoint)
    with
    | None =>
        run_steps' fuel datasets batch_size adjusted steps_per_checkpoint
          (range 0 adjusted)
          (restored n datasets g d (weights n) (AdamW (weights n) lr)
             (WarmupScheduler lr warmup_steps adjusted))
    | Some p =>
        match torch_load d p with
        | Raise e => Some (Raise e)
        | Ok saved =>
            match model saved with
            | None => Some (Raise KeyError)
            | Some m =>
                if fine_tune then
                  if adjusted <? 0 then
                    Some (Ok (restored n datasets g d m (AdamW (weights n) lr)
                                (WarmupScheduler lr warmup_steps adjusted)))
                  else
                    run_steps' fuel datasets batch_size adjusted steps_per_checkpoint
                      (range 0 adjusted)
                      (restored n datasets g d m (AdamW (weights n) lr)
                         (WarmupScheduler lr warmup_steps adjusted))
                else
                  match optimizer saved, scheduler saved, step_counter saved with
                  | Some o, Some s, Some c =>
                      if adjusted <? c then Some (Ok (restored n datasets g d m o s))
                      else
                        run_steps' fuel datasets batch_size adjusted steps_per_checkpoint
                          (range c adjusted) (restored n datasets g d m o s)
                  | _, _, _ => Some (Raise KeyError)
                  end
            end
        end
    end.
Proof.
  intros Hadjust. unfold train_loop. rewrite Hadjust.
  rewrite CheckpointProperties.initial_state_eq. unfold load_checkpoint. cbn [disk].
  destruct (if resume then _ else _) as [p|].
  - destruct (torch_load d p) as [saved|e]; [|done]. cbn [rbind].
    destruct (model saved) as [m|]; [|done]. cbn [item rbind].
    destruct fine_tune; cbn [negb rbind]; [reflexivity|].
    destruct (optimizer saved) as [o|]; [|done].
    destruct (scheduler saved) as [s|]; [|done].
    destruct (step_counter saved) as [c|]; [|done].
    reflexivity.
  - destruct n. reflexivity.
Qed.

(** X3: with [resume] set the path given by the caller is never read: the run
    is the run on the most recent checkpoint of the save directory, and
    when the directory has none it starts from step 0 with the network as
    given, whether or not a path was given. *)
Theorem resume_ignores_given_path (fuel : nat) (n : network) (datasets : nat)
    (batch_size steps steps_per_checkpoint : Z) (lr : fp)
    (path_to_checkpoint : option path) (fine_tune : bool)
    (warmup_steps : Z) (g : Rng) (d : files) :
  train_loop' fuel n datasets batch_size steps steps_per_checkpoint lr
    path_to_checkpoint true fine_tune warmup_steps g d
  = train_loop' fuel n datasets batch_size steps steps_per_checkpoint lr
      (get_most_recent_checkpoint d) false fine_tune warmup_steps g d
  ∧ (get_most_recent_checkpoint d = None →
     train_loop' fuel n datasets batch_size steps steps_per_checkpoint lr
       path_to_checkpoint true fine_tune warmup_steps g d
     = train_loop' fuel n datasets batch_size steps steps_per_checkpoint lr
         None false false warmup_steps g d).
Proof.
  destruct (StepTarget.adjust_steps steps steps_per_checkpoint) as [adjusted|e] eqn:Ha.
  - rewrite !(train_loop_eq _ _ _ _ _ _ adjusted) by done. split; [done|].
    by intros ->.
  - unfold train_loop. rewrite Ha. done.
Qed.

(** X4: a checkpoint whose step counter has reached the bound of the loop ends
    the call at once, for any number of tasks: the network holds the
    weights of the checkpoint, no step is run and no file is written. *)
Theorem finished_checkpoint_returns_at_once (fuel : nat) (n : network) (datasets : nat)
    (batch_size steps steps_per_checkpoint adjusted : Z) (lr : fp)
    (path_to_checkpoint : option path) (resume : bool)
    (warmup_steps : Z) (g : Rng) (d : files)
    (p : path) (saved : check_dict) (m : params) (o : optimizer_state)
    (s : scheduler_state) (c : Z) :
  StepTarget.adjust_steps steps steps_per_checkpoint = Ok adjusted →
  (if resume then get_most_recent_checkpoint d else path_to_checkpoint) = Some p →
  torch_load d p = Ok saved →
  model saved = Some m →
  optimizer saved = Some o →
  scheduler saved = Some s →
  step_counter saved = Some c →
  adjusted ≤ c →
  train_loop' fuel n datasets batch_size steps steps_per_checkpoint lr
    path_to_checkpoint resume false warmup_steps g d
  = Some (Ok (restored n datasets g d m o s)).
Proof.
  intros Ha Hp Hload Hm Ho Hs Hc Hle.
  rewrite (train_loop_eq _ _ _ _ _ _ adjusted) by done.
  rewrite Hp, Hload, Hm, Ho, Hs, Hc.
  destruct (Z.ltb_spec adjusted c); [done|].
  by rewrite range_empty by lia.
Qed.

(** X5: resuming from a checkpoint written by this loop at step counter [c]:
    weights, optimizer and scheduler are those at the time of saving, and
    the first step of the resumed run has the counter [c] again, the step
    that was already run before the checkpoint was written.  The checkpoint
    of the last step of a finished run therefore does not end a resumed run
    with the same target: that step is run once more. *)
Theorem resume_repeats_saved_step (fuel : nat) (n : network) (datasets : nat)
    (batch_size steps steps_per_checkpoint adjusted : Z) (lr : fp)
    (path_to_checkpoint : option path)
    (warmup_steps : Z) (g : Rng) (d : files)
    (p : path) (c : Z) (at_saving : state) :
  StepTarget.adjust_steps steps steps_per_checkpoint = Ok adjusted →
  get_most_recent_checkpoint d = Some p →
  torch_load d p = Ok (checkpoint_dict default_embedding c at_saving) →
  c < adjusted →
  let resumed :=
    restored n datasets g d (weights (net at_saving)) (optimizer_st at_saving)
      (scheduler_st at_saving) in
  train_loop' fuel n datasets batch_size steps steps_per_checkpoint lr
    path_to_checkpoint true false warmup_steps g d
  = match train_step' fuel datasets batch_size adjusted steps_per_checkpoint c resumed with
    | Some (Ok st) =>
        run_steps' fuel datasets batch_size adjusted steps_per_checkpoint
          (range (c + 1) adjusted) st
    | other => other
    end
  ∧ (c = adjusted - 1 →
     train_loop' fuel n datasets batch_size steps steps_per_checkpoint lr
       path_to_checkpoint true false warmup_steps g d
     = train_step' fuel datasets batch_size adjusted steps_per_checkpoint c resumed).
Proof.
  intros Ha Hp Hload Hlt resumed.
  rewrite (train_loop_eq _ _ _ _ _ _ adjusted) by done.
  rewrite Hp, Hload. cbn [checkpoint_dict model optimizer scheduler step_counter].
  destruct (Z.ltb_spec adjusted c); [lia|].
  rewrite range_cons by done. cbn [run_steps]. fold resumed. split; [done|].
  intros ->. rewrite range_empty by lia.
  by destruct (train_step _ _ _ _ _ _ _ _ _ _ _ _ _ _ _ _ _) as [[st|e]|].
Qed.

(** X6: a checkpoint file that holds the model but lacks the optimizer, the
    scheduler or the step counter: continuing from it raises a [KeyError]
    before any step, while fine-tuning from it starts at step 0 with its
    weights and a fresh optimizer and scheduler. *)
Theorem model_only_checkpoint (fuel : nat) (n : network) (datasets : nat)
    (batch_size steps steps_per_checkpoint : Z) (lr : fp)
    (path_to_checkpoint : option path) (resume : bool)
    (warmup_steps : Z) (g : Rng) (d : files)
    (p : path) (saved : check_dict) (m : params) :
  0 < steps_per_checkpoint → 0 ≤ steps →
  (if resume then get_most_recent_checkpoint d else path_to_checkpoint) = Some p →
  torch_load d p = Ok saved →
  model saved = Some m →
  optimizer saved = None ∨ scheduler saved = None ∨ step_counter saved = None →
  train_loop' fuel n datasets batch_size steps steps_per_checkpoint lr
    path_to_checkpoint resume false warmup_steps g d
  = Some (Raise KeyError)
  ∧ ∃ adjusted,
      StepTarget.adjust_steps steps steps_per_checkpoint = Ok adjusted
      ∧ train_loop' fuel n datasets batch_size steps steps_per_checkpoint lr
          path_to_checkpoint resume true warmup_steps g d
        = run_steps' fuel datasets batch_size adjusted steps_per_checkpoint
            (range 0 adjusted)
            (restored n datasets g d m (AdamW (weights n) lr)
               (WarmupScheduler lr warmup_steps adjusted)).
Proof.
  intros Hspc Hsteps Hp Hload Hm Hmissing.
  pose proof (StepTargetProperties.adjust_steps_boundary steps steps_per_checkpoint Hspc)
    as Ha.
  pose proof (StepTargetProperties.next_boundary_spec steps steps_per_checkpoint Hspc)
    as (_ & Hge & _).
  set (adjusted := steps_per_checkpoint
                   * ((steps + steps_per_checkpoint - 1) / steps_per_checkpoint) + 1) in *.
  rewrite !(train_loop_eq _ _ _ _ _ _ adjusted) by done.
  rewrite Hp, Hload, Hm. split.
  - destruct Hmissing as [-> | [-> | ->]]; [done | |].
    + by destruct (optimizer saved).
    + by destruct (optimizer saved), (scheduler saved).
  - exists adjusted. split; [done|].
    destruct (Z.ltb_spec adjusted 0); [lia | done].
Qed.

(** *** Termination *)

Lemma make_iters_length (index count : nat) (g : Rng) :
  length (make_iters loader_iter index count g).1 = count.
Proof.
  revert index g. induction count as [|count IH]; intros index g; [done|].
  cbn [make_iters]. destruct (loader_iter g index) as [batches g1].
  specialize (IH (S index) g1).
  destruct (make_iters loader_iter (S index) count g1) as [its g2].
  cbn in IH |- *. by rewrite IH.
Qed.

Lemma checkpoint_iters (steps step_counter : Z) (st st' : state) :
  checkpoint delete_old_checkpoints get_n_recent_checkpoints_paths
    average_checkpoints save_model_for_use default_embedding steps step_counter st
  = Ok st' → train_iters st' = train_iters st.
Proof.
  unfold checkpoint. destruct (in_final_fifth _ _); [|by intros [= <-]].
  destruct (average_checkpoints _ _) as [averaged default_embed].
  cbn [torch_load torch_save best rbind].
  destruct (model _); cbn; [by intros [= <-] | discriminate].
Qed.

Lemma train_on_iters (steps steps_per_checkpoint step_counter : Z)
    (drawn_batches : list Batch) (st st' : state) :
  train_on' steps steps_per_checkpoint step_counter drawn_batches st = Ok st' →
  train_iters st' = train_iters st.
Proof.
  unfold train_on.
  destruct (net_forward _ _) as [[[[l1 l2] l3] l4] l5].
  destruct (backward _); [|discriminate]. cbn [rbind].
  destruct (update _ _ _ _ _) as [[w o] s].
  destruct (at_checkpoint_boundary _ _).
  - intros H. by apply checkpoint_iters in H.
  - by intros [= <-].
Qed.

Section Termination.

Hypothesis random_sample_permutation :
  ∀ g n, (random_sample g n).1 ≡ₚ seq 0 n.

Variable datasets : nat.

Hypothesis loaders_not_empty :
  ∀ g index, (index < datasets)%nat → (loader_iter g index).1 ≠ [].

Lemma run_steps_returns (fuel : nat) (batch_size steps steps_per_checkpoint : Z)
    (counters : list Z) :
  (0 < datasets)%nat → 0 ≤ batch_size → (Z.to_nat batch_size ≤ fuel)%nat →
  ∀ st : state,
    length (train_iters st) = datasets →
    ∃ r, run_steps' fuel datasets batch_size steps steps_per_checkpoint counters st
         = Some r.
Proof.
  intros Hpos Hbs Hfuel.
  induction counters as [|step_counter counters IH]; intros st Hlen; cbn [run_steps].
  - eauto.
  - unfold train_step.
    destruct (DrawProperties.draw_batches_ok random_sample loader_iter
                random_sample_permutation fuel batch_size datasets
                {| batches := []; iters := train_iters st; gen := rng st |}
                loaders_not_empty Hlen Hpos) as (d & -> & _ & Hiters).
    { cbn. lia. }
    { unfold DrawProperties.missing. cbn. lia. }
    destruct (train_on _ _ _ _ _ _ _ _ _ _ _ _ _) as [st'|e] eqn:Hon; [|eauto].
    apply IH. apply train_on_iters in Hon. cbn in Hon. congruence.
Qed.

(** X7: the loop terminates: with at least one task, loaders that yield at
    least one batch and a sampling that returns a permutation of the
    tasks, the [while] loop of every step ends within [batch_size] passes,
    so that the call comes to an end, with a state or with an exception,
    whatever the checkpoint it starts from. *)
Theorem train_loop_returns (fuel : nat) (n : network)
    (batch_size steps steps_per_checkpoint : Z) (lr : fp)
    (path_to_checkpoint : option path) (resume fine_tune : bool)
    (warmup_steps : Z) (g : Rng) (d : files) :
  (0 < datasets)%nat → 0 ≤ batch_size → (Z.to_nat batch_size ≤ fuel)%nat →
  ∃ r,
    train_loop' fuel n datasets batch_size steps steps_per_checkpoint lr
      path_to_checkpoint resume fine_tune warmup_steps g d
    = Some r.
Proof.
  intros Hpos Hbs Hfuel.
  destruct (StepTarget.adjust_steps steps steps_per_checkpoint) as [adjusted|e] eqn:Ha.
  2:{ unfold train_loop. rewrite Ha. eauto. }
  rewrite (train_loop_eq _ _ _ _ _ _ adjusted) by done.
  assert (Hrun : ∀ counters m o s,
             ∃ r, run_steps' fuel datasets batch_size adjusted steps_per_checkpoint
                    counters (restored n datasets g d m o s) = Some r).
  { intros counters m o s. apply run_steps_returns; [done..|].
    cbn. apply make_iters_length. }
  destruct (if resume then _ else _) as [p|]; [|apply Hrun].
  destruct (torch_load d p) as [saved|e]; [|eauto].
  destruct (model saved) as [m|]; [|eauto].
  destruct fine_tune.
  - destruct (adjusted <? 0); [eauto | apply Hrun].
  - destruct (optimizer saved) as [o|]; [|eauto].
    destruct (scheduler saved) as [s|]; [|eauto].
    destruct (step_counter saved) as [c|]; [|eauto].
    destruct (adjusted <? c); [eauto | apply Hrun].
Qed.

End Termination.

End Edges.

(** X2: the last step of a fresh run: for a positive target its counter is a
    checkpoint boundary, so the run ends by writing a checkpoint; that
    step averages the recent checkpoints exactly when its counter is above
    4, and a run that ends at a counter of at most 4 never averages.  With
    a target of 0 the single step has the counter 0 and writes nothing. *)
Theorem fresh_run_ends_on_checkpoint (steps steps_per_checkpoint : Z) :
  0 < steps_per_checkpoint → 0 ≤ steps →
  ∃ adjusted m,
    StepTarget.adjust_steps steps steps_per_checkpoint = Ok adjusted
    ∧ last (StepTarget.step_counters 0 adjusted) = Some m
    ∧ at_checkpoint_boundary m steps_per_checkpoint = negb (steps =? 0)
    ∧ in_final_fifth m adjusted = (4 <? m)
    ∧ (m ≤ 4 →
       ∀ c, c ∈ StepTarget.step_counters 0 adjusted → in_final_fifth c adjusted = false).
Proof.
  intros Hspc Hsteps.
  pose proof (StepTargetProperties.adjust_steps_boundary steps steps_per_checkpoint Hspc)
    as Ha.
  pose proof (StepTargetProperties.next_boundary_spec steps steps_per_checkpoint Hspc)
    as ([q Hq] & Hge & Hleast).
  set (m := steps_per_checkpoint
            * ((steps + steps_per_checkpoint - 1) / steps_per_checkpoint)) in *.
  exists (m + 1), m. split_and!.
  - exact Ha.
  - unfold StepTarget.step_counters.
    rewrite StepTargetProperties.range_last by lia. f_equal. lia.
  - unfold at_checkpoint_boundary. rewrite Hq, Z.mod_mul by lia. cbn [andb Z.eqb].
    f_equal. rewrite <- Hq.
    destruct (Z.eqb_spec steps 0) as [->|Hne].
    + assert (m ≤ 0); [|apply Z.eqb_eq; lia].
      apply Hleast; [by exists 0 | lia].
    + apply Z.eqb_neq. lia.
  - rewrite CheckpointProperties.in_final_fifth_spec.
    destruct (Z.ltb_spec 4 m); [apply bool_decide_eq_true | apply bool_decide_eq_false]; lia.
  - intros Hm c Hc. rewrite CheckpointProperties.in_final_fifth_spec.
    apply bool_decide_eq_false.
    unfold StepTarget.step_counters, range in Hc.
    apply list_elem_of_fmap in Hc as (i & -> & Hi). apply elem_of_seq in Hi. lia.
Qed.

Lemma fresh_run_ends_on_checkpoint_witness :
  ∃ adjusted m,
    StepTarget.adjust_steps 10 5 = Ok adjusted
    ∧ last (StepTarget.step_counters 0 adjusted) = Some m
    ∧ at_checkpoint_boundary m 5 = true
    ∧ in_final_fifth m adjusted = true.
Proof.
  destruct (fresh_run_ends_on_checkpoint 10 5) as (adjusted & m & H1 & H2 & H3 & H4 & _);
    [lia | lia |].
  exists adjusted, m. split_and!; [exact H1 | exact H2 | exact H3 |].
  rewrite H4. vm_compute in H1. injection H1 as <-.
  vm_compute in H2. injection H2 as <-. reflexivity.
Defined.

(** A run on small data: the checkpoint of step 5 is on disk and is the
    most recent one. *)
Definition example_recent (d : @files Z Z Z unit) : option path := Some (Checkpoint 5).

Definition example_update (n : @network Z) (o s : Z) (b : unit) (used : list bool)
  : Z * Z * Z := (weights n + 1, o, s).

Lemma finished_checkpoint_witness :
  train_loop example_recent (fun d _ => d) (fun _ _ => [Checkpoint 5; Checkpoint 10])
    CheckpointProperties.example_average CheckpointProperties.example_save
    (fun _ _ => 1) (fun _ _ _ => 2) tt
    (fun _ => tt) (fun _ _ => (Fin 1, NaN, Fin 1, Fin 1, Fin 1)) example_update
    DrawProperties.example_sample (fun g _ => ([tt], g))
    0 CheckpointProperties.example_network 1 1 2 2 (Fin 1) None true false 0 tt
    CheckpointProperties.example_disk
  = Some (Ok {| net := {| weights := 7; net_config := ∅ |};
                optimizer_st := 8;
                scheduler_st := 9;
                train_iters := [[tt]];
                rng := tt;
                disk := CheckpointProperties.example_disk |}).
Proof.
  apply (finished_checkpoint_returns_at_once example_recent (fun d _ => d)
           (fun _ _ => [Checkpoint 5; Checkpoint 10])
           CheckpointProperties.example_average CheckpointProperties.example_save
           (fun _ _ => 1) (fun _ _ _ => 2) tt
           (fun _ => tt) (fun _ _ => (Fin 1, NaN, Fin 1, Fin 1, Fin 1)) example_update
           DrawProperties.example_sample (fun g _ => ([tt], g))
           0 CheckpointProperties.example_network 1 1 2 2 3 (Fin 1) None true 0 tt
           CheckpointProperties.example_disk
           (Checkpoint 5) CheckpointProperties.example_saved 7 8 9 5);
    (reflexivity || lia).
Defined.

Lemma resume_repeats_witness :
  train_loop example_recent (fun d _ => d) (fun _ _ => [Checkpoint 5; Checkpoint 10])
    CheckpointProperties.example_average CheckpointProperties.example_save
    (fun _ _ => 1) (fun _ _ _ => 2) tt
    (fun _ => tt) (fun _ _ => (Fin 1, NaN, Fin 1, Fin 1, Fin 1)) example_update
    DrawProperties.example_sample (fun g _ => ([tt], g))
    1 CheckpointProperties.example_network 1 1 5 5 (Fin 1) None true false 0 tt
    CheckpointProperties.example_disk
  = train_step (fun d _ => d) (fun _ _ => [Checkpoint 5; Checkpoint 10])
      CheckpointProperties.example_average CheckpointProperties.example_save tt
      (fun _ => tt) (fun _ _ => (Fin 1, NaN, Fin 1, Fin 1, Fin 1)) example_update
      DrawProperties.example_sample (fun g _ => ([tt], g))
      1 1 1 6 5 5
      {| net := {| weights := 7; net_config := ∅ |};
         optimizer_st := 8;
         scheduler_st := 9;
         train_iters := [[tt]];
         rng := tt;
         disk := CheckpointProperties.example_disk |}.
Proof.
  destruct (resume_repeats_saved_step example_recent (fun d _ => d)
              (fun _ _ => [Checkpoint 5; Checkpoint 10])
              CheckpointProperties.example_average CheckpointProperties.example_save
              (fun _ _ => 1) (fun _ _ _ => 2) tt
              (fun _ => tt) (fun _ _ => (Fin 1, NaN, Fin 1, Fin 1, Fin 1)) example_update
              DrawProperties.example_sample (fun g _ => ([tt], g))
              1 CheckpointProperties.example_network 1 1 5 5 6 (Fin 1) None 0 tt
              CheckpointProperties.example_disk (Checkpoint 5) 5
              {| net := {| weights := 7; net_config := ∅ |};
                 optimizer_st := 8;
                 scheduler_st := 9;
                 train_iters := [];
                 rng := tt;
                 disk := CheckpointProperties.example_disk |}) as [_ H];
    [reflexivity | reflexivity | reflexivity | lia |].
  apply H. reflexivity.
Defined.

(** The same run when the most recent file holds the averaged model
    only. *)
Definition example_best_only : @files Z Z Z unit :=
  {| checkpoints := ∅;
     best := Some (CheckpointProperties.example_save CheckpointProperties.example_network tt);
     elsewhere := ∅ |}.

Lemma model_only_checkpoint_witness :
  train_loop (fun _ => None) (fun d _ => d) (fun _ _ => [Checkpoint 5; Checkpoint 10])
    CheckpointProperties.example_average CheckpointProperties.example_save
    (fun _ _ => 1) (fun _ _ _ => 2) tt
    (fun _ => tt) (fun _ _ => (Fin 1, NaN, Fin 1, Fin 1, Fin 1)) example_update
    DrawProperties.example_sample (fun g _ => ([tt], g))
    1 CheckpointProperties.example_network 1 1 5 5 (Fin 1) (Some Best) false false 0 tt
    example_best_only
  = Some (Raise KeyError).
Proof.
  apply (model_only_checkpoint (fun _ => None) (fun d _ => d)
           (fun _ _ => [Checkpoint 5; Checkpoint 10])
           CheckpointProperties.example_average CheckpointProperties.example_save
           (fun _ _ => 1) (fun _ _ _ => 2) tt
           (fun _ => tt) (fun _ _ => (Fin 1, NaN, Fin 1, Fin 1, Fin 1)) example_update
           DrawProperties.example_sample (fun g _ => ([tt], g))
           1 CheckpointProperties.example_network 1 1 5 5 (Fin 1) (Some Best) false 0 tt
           example_best_only Best
           (CheckpointProperties.example_save CheckpointProperties.example_network tt) 0);
    (reflexivity || lia || (left; reflexivity)).
Defined.

Lemma resume_ignores_given_path_witness :
  train_loop (fun _ => None) (fun d _ => d) (fun _ _ => [Checkpoint 5; Checkpoint 10])
    CheckpointProperties.example_average CheckpointProperties.example_save
    (fun _ _ => 1) (fun _ _ _ => 2) tt
    (fun _ => tt) (fun _ _ => (Fin 1, NaN, Fin 1, Fin 1, Fin 1)) example_update
    DrawProperties.example_sample (fun g _ => ([tt], g))
    1 CheckpointProperties.example_network 1 1 5 5 (Fin 1) (Some Best) true true 0 tt
    example_best_only
  = train_loop (fun _ => None) (fun d _ => d) (fun _ _ => [Checkpoint 5; Checkpoint 10])
      CheckpointProperties.example_average CheckpointProperties.example_save
      (fun _ _ => 1) (fun _ _ _ => 2) tt
      (fun _ => tt) (fun _ _ => (Fin 1, NaN, Fin 1, Fin 1, Fin 1)) example_update
      DrawProperties.example_sample (fun g _ => ([tt], g))
      1 CheckpointProperties.example_network 1 1 5 5 (Fin 1) None false false 0 tt
      example_best_only.
Proof.
  apply (resume_ignores_given_path (fun _ => None) (fun d _ => d)
           (fun _ _ => [Checkpoint 5; Checkpoint 10])
           CheckpointProperties.example_average CheckpointProperties.example_save
           (fun _ _ => 1) (fun _ _ _ => 2) tt
           (fun _ => tt) (fun _ _ => (Fin 1, NaN, Fin 1, Fin 1, Fin 1)) example_update
           DrawProperties.example_sample (fun g _ => ([tt], g))
           1 CheckpointProperties.example_network 1 1 5 5 (Fin 1) (Some Best) true 0 tt
           example_best_only).
  reflexivity.
Defined.

Lemma train_loop_returns_witness :
  ∃ r,
    train_loop example_recent (fun d _ => d) (fun _ _ => [Checkpoint 5; Checkpoint 10])
      CheckpointProperties.example_average CheckpointProperties.example_save
      (fun _ _ => 1) (fun _ _ _ => 2) tt
      (fun _ => tt) (fun _ _ => (Fin 1, NaN, Fin 1, Fin 1, Fin 1)) example_update
      DrawProperties.example_sample (fun g _ => ([tt], g))
      3 CheckpointProperties.example_network 2 3 10 5 (Fin 1) None true false 0 tt
      CheckpointProperties.example_disk
    = Some r.
Proof.
  apply (train_loop_returns example_recent (fun d _ => d)
           (fun _ _ => [Checkpoint 5; Checkpoint 10])
           CheckpointProperties.example_average CheckpointProperties.example_save
           (fun _ _ => 1) (fun _ _ _ => 2) tt
           (fun _ => tt) (fun _ _ => (Fin 1, NaN, Fin 1, Fin 1, Fin 1)) example_update
           DrawProperties.example_sample (fun g _ => ([tt], g))
           (fun g n => reflexivity (seq 0 n)) 2);
    [intros g index _; discriminate | lia | lia | lia].
Defined.

Lemma step_without_loss_witness :
  train_on (fun d _ => d) (fun _ _ => [Checkpoint 5; Checkpoint 10])
    CheckpointProperties.example_average CheckpointProperties.example_save tt
    (fun _ => tt) (fun _ _ => (NaN, NaN, NaN, NaN, NaN))
    (fun n o s _ _ => (weights n + 1, o, s))
    11 5 10 [] CheckpointProperties.example_state
  = Raise AttributeError.
Proof.
  apply (step_without_loss_raises (fun d _ => d)
           (fun _ _ => [Checkpoint 5; Checkpoint 10])
           CheckpointProperties.example_average CheckpointProperties.example_save tt
           (fun _ => tt) (fun _ _ => (NaN, NaN, NaN, NaN, NaN))
           (fun n o s _ _ => (weights n + 1, o, s))
           11 5 10 [] CheckpointProperties.example_state NaN NaN NaN NaN NaN);
    reflexivity.
Defined.

End TrainLoopEdges.

(** ** Balance and order of the batches of a step *)

Module DrawOrder.
Import TrainLoop ResultLemmas.

(** The number of times [index] comes up in [order]. *)
Definition times (index : nat) (order : list nat) : nat :=
  length (List.filter (Nat.eqb index) order).

Lemma times_app (index : nat) (l l' : list nat) :
  times index (l ++ l') = (times index l + times index l')%nat.
Proof. unfold times. by rewrite List.filter_app, length_app. Qed.

Lemma times_permutation (index : nat) (l l' : list nat) :
  l ≡ₚ l' → times index l = times index l'.
Proof.
  unfold times. induction 1 as [|x l l' _ IH|x y l|l l' l'' _ IH1 _ IH2]; cbn.
  - done.
  - destruct (index =? x)%nat; cbn; by rewrite IH.
  - by destruct (index =? x)%nat, (index =? y)%nat.
  - congruence.
Qed.

Lemma times_seq (index a n : nat) :
  times index (seq a n) = if ((a <=? index) && (index <? a + n))%nat then 1%nat else 0%nat.
Proof.
  unfold times. revert a. induction n as [|n IH]; intros a; cbn [seq List.filter].
  - destruct (Nat.leb_spec a index), (Nat.ltb_spec index (a + 0)); cbn; (done || lia).
  - rewrite (Nat.eqb_sym index a).
    destruct (Nat.eqb_spec a index) as [->|Hne]; cbn [length]; rewrite IH.
    + destruct (Nat.leb_spec (S index) index), (Nat.leb_spec index index),
        (Nat.ltb_spec index (index + S n)); cbn; (done || lia).
    + destruct (Nat.leb_spec (S a) index), (Nat.leb_spec a index),
        (Nat.ltb_spec index (S a + n)), (Nat.ltb_spec index (a + S n)); cbn; (done || lia).
Qed.

Lemma times_take (index k : nat) (l : list nat) :
  (times index (take k l) ≤ times index l)%nat.
Proof. rewrite <- (take_drop k l) at 2. rewrite times_app. lia. Qed.

Lemma times_elem_of (index : nat) (l : list nat) :
  index ∈ l ↔ (0 < times index l)%nat.
Proof.
  unfold times. split.
  - intros Hin.
    assert (Hf : In index (List.filter (Nat.eqb index) l)).
    { apply filter_In. split; [by apply list_elem_of_In | apply Nat.eqb_refl]. }
    destruct (List.filter (Nat.eqb index) l); [destruct Hf | cbn; lia].
  - intros Hpos. destruct (List.filter (Nat.eqb index) l) as [|x f] eqn:Hf; [cbn in Hpos; lia|].
    assert (Hx : In x (List.filter (Nat.eqb index) l)) by (rewrite Hf; by left).
    apply filter_In in Hx as [Hin Heq]. apply Nat.eqb_eq in Heq as ->.
    by apply list_elem_of_In.
Qed.

(** A list of tasks has no task twice, or some task comes up at least
    twice. *)
Lemma repeated_or_NoDup (l : list nat) :
  NoDup l ∨ ∃ index, (2 ≤ times index l)%nat.
Proof.
  induction l as [|a l [IH|(x & Hx)]].
  - left. constructor.
  - destruct (decide (a ∈ l)) as [Hin|Hout].
    + right. exists a. apply times_elem_of in Hin.
      change (a :: l) with ([a] ++ l). rewrite times_app.
      unfold times at 1. cbn [List.filter]. rewrite Nat.eqb_refl. cbn [length]. lia.
    + left. by constructor.
  - right. exists x. change (a :: l) with ([a] ++ l). rewrite times_app. lia.
Qed.

Section Draw.

Context {Batch Rng : Type}.

Variable random_sample : Rng → nat → list nat * Rng.
Variable loader_iter : Rng → nat → list Batch * Rng.

Abbreviation drawn := (@drawn Batch Rng).

Hypothesis random_sample_permutation :
  ∀ g n, (random_sample g n).1 ≡ₚ seq 0 n.

(** *** Without tasks *)

(** X8: with an empty list of tasks and a positive batch size the [while] loop
    of a step never ends: every pass samples the empty order and draws
    nothing. *)
Theorem no_task_never_returns (fuel : nat) (batch_size : Z) (d : drawn) :
  Z.of_nat (length (batches d)) < batch_size →
  draw_batches random_sample loader_iter fuel batch_size 0 d = None.
Proof.
  revert d. induction fuel as [|fuel IH]; intros d Hlt; cbn [draw_batches];
    destruct (Z.ltb_spec (Z.of_nat (length (batches d))) batch_size); try lia; [done|].
  pose proof (random_sample_permutation (gen d) 0) as Hp.
  destruct (random_sample (gen d) 0) as [order g']. cbn in Hp.
  apply Permutation_nil_r in Hp as ->. cbn [draw_pass]. by apply IH.
Qed.

(** *** Balance *)

Lemma draw_batches_balanced (fuel : nat) (batch_size : Z) (datasets : nat) (d : drawn) :
  (∀ g index, (index < datasets)%nat → (loader_iter g index).1 ≠ []) →
  length (iters d) = datasets →
  (0 < datasets)%nat →
  Z.of_nat (length (batches d)) ≤ batch_size →
  (DrawProperties.missing batch_size d ≤ fuel)%nat →
  ∃ d',
    draw_batches random_sample loader_iter fuel batch_size datasets d = Some (Ok d')
    ∧ ∀ index, (index < datasets)%nat →
        let m := DrawProperties.missing batch_size d in
        (times index (map fst (batches d)) + m / datasets
         ≤ times index (map fst (batches d')))%nat
        ∧ (times index (map fst (batches d'))
           ≤ times index (map fst (batches d)) + m / datasets
             + (if (m mod datasets =? 0)%nat then 0 else 1))%nat.
Proof.
  intros Hne. revert d. induction fuel as [|fuel IH]; intros d Hlen Hpos Hle Hfuel.
  - exists d. unfold DrawProperties.missing in *. cbn [draw_batches].
    destruct (Z.ltb_spec (Z.of_nat (length (batches d))) batch_size); [lia|].
    split; [done|]. intros index _.
    replace (Z.to_nat (batch_size - Z.of_nat (length (batches d)))) with 0%nat by lia.
    rewrite Nat.Div0.div_0_l, Nat.Div0.mod_0_l. cbn. lia.
  - cbn [draw_batches].
    destruct (Z.ltb_spec (Z.of_nat (length (batches d))) batch_size) as [Hlt|Hge].
    2:{ exists d. split; [done|]. intros index _. unfold DrawProperties.missing.
        replace (Z.to_nat (batch_size - Z.of_nat (length (batches d)))) with 0%nat by lia.
        rewrite Nat.Div0.div_0_l, Nat.Div0.mod_0_l. cbn. lia. }
    pose proof (random_sample_permutation (gen d) datasets) as Hperm.
    destruct (DrawProperties.sample_indices random_sample random_sample_permutation
                (gen d) datasets) as [Hall Hlo].
    destruct (random_sample (gen d) datasets) as [order g'] eqn:Hs.
    cbn [fst] in Hall, Hlo, Hperm.
    set (d0 := {| batches := batches d; iters := iters d; gen := g' |}).
    destruct (DrawProperties.draw_pass_ok loader_iter batch_size order d0)
      as (d1 & -> & Hlen1 & Hmap).
    { cbn. by rewrite Hlen. }
    { cbn. by rewrite Hlen. }
    cbn [d0 iters batches] in Hlen1, Hmap.
    assert (Hm0 : DrawProperties.missing batch_size d0 = DrawProperties.missing batch_size d)
      by done.
    rewrite Hm0 in Hmap.
    set (m := DrawProperties.missing batch_size d) in *.
    assert (Hl1 : length (batches d1) = (length (batches d) + Nat.min m datasets)%nat).
    { rewrite <- (length_map fst (batches d1)), Hmap, length_app, length_map,
        length_take, Hlo. done. }
    assert (Hmpos : (0 < m)%nat) by (unfold m, DrawProperties.missing; lia).
    assert (Hm1 : DrawProperties.missing batch_size d1 = (m - Nat.min m datasets)%nat).
    { unfold m, DrawProperties.missing in *. lia. }
    destruct (IH d1) as (d' & Hd' & Hbal); [congruence | done | | |].
    { unfold m, DrawProperties.missing in *. lia. }
    { rewrite Hm1. lia. }
    exists d'. split; [exact Hd'|]. intros index Hindex.
    specialize (Hbal index Hindex). cbn zeta in Hbal. rewrite Hm1 in Hbal.
    rewrite Hmap, times_app in Hbal. cbn zeta.
    assert (Hone : times index order = 1%nat).
    { rewrite (times_permutation _ _ _ Hperm), times_seq.
      destruct (Nat.leb_spec 0 index), (Nat.ltb_spec index (0 + datasets)); cbn; (done || lia). }
    destruct (Nat.le_gt_cases datasets m) as [Hfull|Hpart].
    + rewrite take_ge in Hbal by lia. rewrite Hone in Hbal.
      rewrite Nat.min_r in Hbal by lia.
      assert (Hdiv : (m / datasets = (m - datasets) / datasets + 1)%nat).
      { rewrite <- Nat.div_add by lia. f_equal. lia. }
      assert (Hmod : (m mod datasets = (m - datasets) mod datasets)%nat).
      { rewrite <- (Nat.Div0.mod_add (m - datasets) 1 datasets). f_equal. lia. }
      rewrite Hdiv, Hmod. lia.
    + rewrite Nat.min_l, Nat.sub_diag in Hbal by lia.
      rewrite Nat.Div0.div_0_l, Nat.Div0.mod_0_l in Hbal. cbn [Nat.eqb] in Hbal.
      pose proof (times_take index m order) as Htake. rewrite Hone in Htake.
      rewrite Nat.div_small, Nat.mod_small by lia.
      destruct (Nat.eqb_spec m 0); lia.
Qed.

(** X9: every task gets its share of the batches of a step: with [n] tasks and
    a batch size [b], each task is drawn from [b / n] times or once more,
    and exactly [b / n] times when [n] divides [b]. *)
Theorem draws_are_balanced (fuel : nat) (batch_size : Z) (datasets : nat)
    (its : list (list Batch)) (g : Rng) :
  (∀ g index, (index < datasets)%nat → (loader_iter g index).1 ≠ []) →
  length its = datasets →
  (0 < datasets)%nat →
  0 ≤ batch_size →
  (Z.to_nat batch_size ≤ fuel)%nat →
  ∃ d,
    draw_batches random_sample loader_iter fuel batch_size datasets
      {| batches := []; iters := its; gen := g |} = Some (Ok d)
    ∧ ∀ index, (index < datasets)%nat →
        (Z.to_nat batch_size / datasets ≤ DrawProperties.drawn_from index d
         ≤ S (Z.to_nat batch_size / datasets))%nat
        ∧ ((Z.to_nat batch_size mod datasets = 0)%nat →
           DrawProperties.drawn_from index d = (Z.to_nat batch_size / datasets)%nat).
Proof.
  intros Hne Hlen Hpos Hbs Hfuel.
  set (d0 := {| batches := []; iters := its; gen := g |}).
  assert (Hm : DrawProperties.missing batch_size d0 = Z.to_nat batch_size).
  { unfold DrawProperties.missing. cbn. lia. }
  destruct (draw_batches_balanced fuel batch_size datasets d0 Hne Hlen Hpos)
    as (d & Hd & Hbal).
  { cbn. lia. }
  { rewrite Hm. lia. }
  exists d. split; [exact Hd|]. intros index Hindex.
  specialize (Hbal index Hindex). cbn zeta in Hbal. rewrite Hm in Hbal.
  cbn [d0 batches map] in Hbal.
  change (times index []) with 0%nat in Hbal.
  change (DrawProperties.drawn_from index d) with (times index (map fst (batches d))).
  split.
  - destruct (_ =? 0)%nat; lia.
  - intros H0. rewrite H0 in Hbal. cbn [Nat.eqb] in Hbal. lia.
Qed.

(** *** Order *)

(** The batches of the step that came from task [index], in the order in
    which they were drawn. *)
Definition from_task (index : nat) (drawn_batches : list (nat * Batch)) : list Batch :=
  map snd (List.filter (fun p => Nat.eqb index p.1) drawn_batches).

(** The batches drawn from a task and what its iterator has left make up
    the iterator as it was, followed by the new iterators [fresh] of the
    task's loader; a new iterator was made only after the old one had given
    all its batches. *)
Definition consumed (index : nat) (it : list Batch)
    (drawn_batches : list (nat * Batch)) (its : list (list Batch)) : Prop :=
  ∃ rest fresh,
    its !! index = Some rest
    ∧ from_task index drawn_batches ++ rest = it ++ concat fresh
    ∧ Forall (fun f => ∃ g, f = (loader_iter g index).1) fresh
    ∧ ((length (from_task index drawn_batches) ≤ length it)%nat → fresh = []).

Lemma from_task_snoc (index task : nat) (batch : Batch) (l : list (nat * Batch)) :
  from_task index (l ++ [(task, batch)])
  = from_task index l ++ (if (index =? task)%nat then [batch] else []).
Proof.
  unfold from_task. rewrite List.filter_app, map_app. cbn.
  by destruct (index =? task)%nat.
Qed.

Lemma next_batch_consumed (index task : nat) (it : list Batch)
    (l : list (nat * Batch)) (its its' : list (list Batch)) (g g' : Rng) (batch : Batch) :
  next_batch loader_iter task its g = Ok (batch, its', g') →
  consumed index it l its →
  consumed index it (l ++ [(task, batch)]) its'.
Proof.
  unfold next_batch. intros H (rest & fresh & Hrest & Heq & Hfresh & Hnone).
  apply bind_ok in H as (current & Hcurrent%subscript_ok & H).
  unfold consumed. setoid_rewrite from_task_snoc.
  assert (Hlt : (task < length its)%nat) by (by eapply lookup_lt_Some).
  destruct (Nat.eqb_spec index task) as [->|Hne].
  - rewrite Hcurrent in Hrest. injection Hrest as ->.
    destruct rest as [|b rest'].
    + destruct (loader_iter g task) as [new g1] eqn:Hnew.
      destruct new as [|b new']; [discriminate|]. injection H as <- <- <-.
      exists new', (fresh ++ [b :: new']). split_and!.
      * by apply list_lookup_insert_eq.
      * rewrite app_nil_r in Heq. rewrite Heq, concat_app. cbn.
        by rewrite app_nil_r, <- !app_assoc.
      * apply Forall_app. split; [done|]. apply Forall_singleton.
        exists g. by rewrite Hnew.
      * rewrite app_nil_r in Heq. rewrite length_app, Heq, length_app. cbn. lia.
    + injection H as <- <- <-. exists rest', fresh. split_and!.
      * by apply list_lookup_insert_eq.
      * by rewrite <- Heq, <- app_assoc.
      * done.
      * rewrite length_app. cbn. intros Hle. apply Hnone. lia.
  - assert (Hits : its' !! index = its !! index).
    { destruct current as [|b rest'].
      - destruct (loader_iter g task) as [new g1].
        destruct new as [|b new']; [discriminate|]. injection H as <- <- <-.
        by apply list_lookup_insert_ne.
      - injection H as <- <- <-. by apply list_lookup_insert_ne. }
    exists rest, fresh. rewrite app_nil_r, Hits. done.
Qed.

Lemma draw_pass_consumed (index : nat) (it : list Batch) (batch_size : Z)
    (order : list nat) :
  ∀ d d' : drawn,
    draw_pass loader_iter batch_size order d = Ok d' →
    consumed index it (batches d) (iters d) →
    consumed index it (batches d') (iters d').
Proof.
  induction order as [|task order IH]; intros d d' H Hinv; cbn [draw_pass] in H.
  - by injection H as <-.
  - destruct (Z.of_nat (length (batches d)) <? batch_size); [|by eapply IH].
    apply bind_ok in H as ([[batch its'] g'] & Hnext & H).
    eapply IH; [exact H|]. cbn [batches iters].
    by eapply next_batch_consumed.
Qed.

Lemma draw_batches_consumed (index : nat) (it : list Batch) (batch_size : Z)
    (datasets : nat) (fuel : nat) :
  ∀ d d' : drawn,
    draw_batches random_sample loader_iter fuel batch_size datasets d = Some (Ok d') →
    consumed index it (batches d) (iters d) →
    consumed index it (batches d') (iters d').
Proof.
  induction fuel as [|fuel IH]; intros d d' H Hinv; cbn [draw_batches] in H;
    destruct (Z.of_nat (length (batches d)) <? batch_size);
    try discriminate; try (by injection H as <-).
  destruct (random_sample (gen d) datasets) as [order g'].
  destruct (draw_pass _ _ _ _) as [d1|e] eqn:Hpass; [|discriminate].
  eapply IH; [exact H|].
  by apply (draw_pass_consumed index it _ _ _ _ Hpass).
Qed.

(** X10: the batches of a step continue every task's iterator where the step
    before left it: the batches drawn from a task, followed by what its
    iterator has left after the step, are the batches the iterator had
    before the step, followed by those of the new iterators made during the
    step; no batch is skipped, and no new iterator is made as long as the
    task was drawn from at most as many times as its iterator had batches
    left. *)
Theorem batches_follow_the_iterators (fuel : nat) (batch_size : Z) (datasets : nat)
    (its : list (list Batch)) (g : Rng) :
  (∀ g index, (index < datasets)%nat → (loader_iter g index).1 ≠ []) →
  length its = datasets →
  (0 < datasets)%nat →
  0 ≤ batch_size →
  (Z.to_nat batch_size ≤ fuel)%nat →
  ∃ d,
    draw_batches random_sample loader_iter fuel batch_size datasets
      {| batches := []; iters := its; gen := g |} = Some (Ok d)
    ∧ ∀ index it,
        its !! index = Some it →
        ∃ rest fresh,
          iters d !! index = Some rest
          ∧ from_task index (batches d) ++ rest = it ++ concat fresh
          ∧ Forall (fun f => ∃ g, f = (loader_iter g index).1) fresh
          ∧ ((length (from_task index (batches d)) ≤ length it)%nat →
             fresh = [] ∧ from_task index (batches d) ++ rest = it).
Proof.
  intros Hne Hlen Hpos Hbs Hfuel.
  set (d0 := {| batches := []; iters := its; gen := g |}).
  destruct (DrawProperties.draw_batches_ok random_sample loader_iter
              random_sample_permutation fuel batch_size datasets d0 Hne Hlen Hpos)
    as (d & Hd & _).
  { cbn. lia. }
  { unfold DrawProperties.missing. cbn. lia. }
  exists d. split; [exact Hd|]. intros index it Hit.
  destruct (draw_batches_consumed index it _ _ _ _ _ Hd)
    as (rest & fresh & Hrest & Heq & Hfresh & Hnone).
  { exists it, []. cbn. rewrite app_nil_r. split_and!; [done | done | done | done]. }
  exists rest, fresh. split_and!; [done | done | done |].
  intros Hle. specialize (Hnone Hle). subst fresh. cbn in Heq.
  by rewrite app_nil_r in Heq.
Qed.

(** *** The batches of a step *)

(** The tasks of the batches of a step are the first missing ones of the
    orders sampled by the passes of the [while] loop, one order per pass,
    and a pass is made only while batches are missing. *)
Lemma draw_batches_orders (fuel : nat) (batch_size : Z) (datasets : nat) (d : drawn) :
  (∀ g index, (index < datasets)%nat → (loader_iter g index).1 ≠ []) →
  length (iters d) = datasets →
  (0 < datasets)%nat →
  Z.of_nat (length (batches d)) ≤ batch_size →
  (DrawProperties.missing batch_size d ≤ fuel)%nat →
  ∃ d' orders,
    draw_batches random_sample loader_iter fuel batch_size datasets d = Some (Ok d')
    ∧ map fst (batches d')
      = map fst (batches d) ++ take (DrawProperties.missing batch_size d) (concat orders)
    ∧ Forall (fun order => ∃ g, order = (random_sample g datasets).1) orders
    ∧ (DrawProperties.missing batch_size d ≤ length orders * datasets
       < DrawProperties.missing batch_size d + datasets)%nat
    ∧ ((0 < DrawProperties.missing batch_size d)%nat →
       ∃ rest, orders = (random_sample (gen d) datasets).1 :: rest).
Proof.
  intros Hne. revert d. induction fuel as [|fuel IH]; intros d Hlen Hpos Hle Hfuel.
  - exists d, []. unfold DrawProperties.missing in *. cbn [draw_batches].
    destruct (Z.ltb_spec (Z.of_nat (length (batches d))) batch_size); [lia|].
    replace (Z.to_nat (batch_size - Z.of_nat (length (batches d)))) with 0%nat by lia.
    cbn [concat take length]. rewrite app_nil_r.
    split_and!; [done | done | done | lia | lia | lia].
  - cbn [draw_batches].
    destruct (Z.ltb_spec (Z.of_nat (length (batches d))) batch_size) as [Hlt|Hge].
    2:{ exists d, []. unfold DrawProperties.missing.
        replace (Z.to_nat (batch_size - Z.of_nat (length (batches d)))) with 0%nat by lia.
        cbn [concat take length]. rewrite app_nil_r.
        split_and!; [done | done | done | lia | lia | lia]. }
    destruct (DrawProperties.sample_indices random_sample random_sample_permutation
                (gen d) datasets) as [Hall Hlo].
    destruct (random_sample (gen d) datasets) as [order g'] eqn:Hs.
    cbn [fst] in Hall, Hlo.
    set (d0 := {| batches := batches d; iters := iters d; gen := g' |}).
    destruct (DrawProperties.draw_pass_ok loader_iter batch_size order d0)
      as (d1 & -> & Hlen1 & Hmap).
    { cbn. by rewrite Hlen. }
    { cbn. by rewrite Hlen. }
    cbn [d0 iters batches] in Hlen1, Hmap.
    assert (Hm0 : DrawProperties.missing batch_size d0 = DrawProperties.missing batch_size d)
      by done.
    rewrite Hm0 in Hmap.
    set (m := DrawProperties.missing batch_size d) in *.
    assert (Hl1 : length (batches d1) = (length (batches d) + Nat.min m datasets)%nat).
    { rewrite <- (length_map fst (batches d1)), Hmap, length_app, length_map,
        length_take, Hlo. done. }
    assert (Hmpos : (0 < m)%nat) by (unfold m, DrawProperties.missing; lia).
    assert (Hm1 : DrawProperties.missing batch_size d1 = (m - datasets)%nat).
    { unfold m, DrawProperties.missing in *. lia. }
    destruct (IH d1) as (d' & orders & Hd' & Hlabels & Hsampled & Hpasses & _);
      [congruence | done | | |].
    { unfold m, DrawProperties.missing in *. lia. }
    { rewrite Hm1. lia. }
    exists d', (order :: orders). rewrite Hm1 in Hlabels, Hpasses.
    split_and!.
    + exact Hd'.
    + rewrite Hlabels, Hmap, <- app_assoc. f_equal. cbn [concat].
      by rewrite take_app, Hlo.
    + apply Forall_cons. split; [|done]. exists (gen d). by rewrite Hs.
    + cbn [length]. rewrite Nat.mul_succ_l. lia.
    + cbn [length]. destruct (length orders) as [|passes]; [lia|].
      rewrite !Nat.mul_succ_l in *. lia.
    + intros _. by exists orders.
Qed.


End Draw.

Lemma no_task_witness :
  draw_batches DrawProperties.example_sample DrawProperties.example_loader 7 2 0
    {| batches := []; iters := []; gen := tt |} = None.
Proof.
  apply (no_task_never_returns DrawProperties.example_sample DrawProperties.example_loader
           (fun g n => reflexivity (seq 0 n)) 7 2
           {| batches := []; iters := []; gen := tt |}).
  cbn. lia.
Defined.

Lemma draws_are_balanced_witness :
  ∃ d,
    draw_batches DrawProperties.example_sample DrawProperties.example_loader 3 3 2
      {| batches := []; iters := [[0; 0]; [1; 1]]%nat; gen := tt |} = Some (Ok d)
    ∧ (1 ≤ DrawProperties.drawn_from 0 d ≤ 2)%nat
    ∧ (1 ≤ DrawProperties.drawn_from 1 d ≤ 2)%nat.
Proof.
  destruct (draws_are_balanced DrawProperties.example_sample DrawProperties.example_loader
              (fun g n => reflexivity (seq 0 n)) 3 3 2 [[0; 0]; [1; 1]]%nat tt)
    as (d & Hd & Hbal).
  - intros g index _. discriminate.
  - reflexivity.
  - lia.
  - lia.
  - lia.
  - exists d. split; [exact Hd|].
    split; [apply (Hbal 0%nat) | apply (Hbal 1%nat)]; lia.
Defined.

Lemma batches_follow_the_iterators_witness :
  ∃ d rest,
    draw_batches DrawProperties.example_sample DrawProperties.example_loader 3 3 2
      {| batches := []; iters := [[0; 0]; [1; 1]]%nat; gen := tt |} = Some (Ok d)
    ∧ iters d !! 1%nat = Some rest
    ∧ ∃ fresh, from_task 1 (batches d) ++ rest = [1; 1]%nat ++ concat fresh.
Proof.
  destruct (batches_follow_the_iterators DrawProperties.example_sample
              DrawProperties.example_loader
              (fun g n => reflexivity (seq 0 n)) 3 3 2 [[0; 0]; [1; 1]]%nat tt)
    as (d & Hd & Hat).
  - intros g index _. discriminate.
  - reflexivity.
  - lia.
  - lia.
  - lia.
  - destruct (Hat 1%nat [1; 1]%nat eq_refl) as (rest & fresh & Hrest & Heq & _).
    exists d, rest. split; [exact Hd|]. split; [exact Hrest|]. by exists fresh.
Defined.


End DrawOrder.

(** ** The frames returned by the training architecture *)

Module FrameProperties.
Import ResultLemmas Tensor CodebookProperties.

(** *** The entries of a concatenation *)

Lemma cat_onto_entries (w : nat) (tensors : list tensor) :
  ∀ acc x,
    cat_onto acc tensors = Ok x →
    Forall (fun t => size2 t = w) tensors →
    size2 x = (size2 acc + length tensors * w)%nat
    ∧ (∀ i j k, (k < size2 acc)%nat → entry x i j k = entry acc i j k)
    ∧ (∀ n y i j c,
          tensors !! n = Some y → (c < w)%nat →
          entry x i j (size2 acc + n * w + c) = entry y i j c).
Proof.
  induction tensors as [|t tensors IH]; intros acc x H Hall; cbn [cat_onto] in H.
  - injection H as <-. split_and!; [cbn; lia | done | intros n y i j c Hn; done].
  - apply Forall_cons in Hall as [Ht Hall].
    apply bind_ok in H as (a & Ha & H).
    destruct (IH a x H Hall) as (Hsize & Hlow & Hhigh).
    assert (Ha2 : size2 a = (size2 acc + w)%nat).
    { apply cat2_ok in Ha as (_ & _ & ->). by rewrite Ht. }
    assert (Hentry : ∀ i j k,
               entry a i j k
               = if (k <? size2 acc)%nat then entry acc i j k
                 else entry t i j (k - size2 acc)).
    { unfold cat2 in Ha. destruct (_ && _); [|discriminate]. by injection Ha as <-. }
    split_and!.
    + rewrite Hsize, Ha2. cbn [length]. lia.
    + intros i j k Hk. rewrite Hlow by lia. rewrite Hentry.
      by destruct (Nat.ltb_spec k (size2 acc)); [|lia].
    + intros [|n] y i j c Hn Hc; cbn in Hn.
      * injection Hn as <-. rewrite Hlow by lia. rewrite Hentry.
        destruct (Nat.ltb_spec (size2 acc + 0 * w + c) (size2 acc)); [lia|].
        f_equal. lia.
      * rewrite <- (Hhigh n y i j c Hn Hc). f_equal. lia.
Qed.

(** The concatenation of tensors of one width [w]: chunk [n] of the result
    is tensor [n]. *)
Lemma cat_entries (w : nat) (tensors : list tensor) (x : tensor) :
  cat tensors = Ok x →
  Forall (fun t => size2 t = w) tensors →
  size2 x = (length tensors * w)%nat
  ∧ (∀ t, head tensors = Some t → same_outer t x)
  ∧ ∀ n y i j c,
      tensors !! n = Some y → (c < w)%nat → entry x i j (n * w + c) = entry y i j c.
Proof.
  destruct tensors as [|t rest]; [discriminate|]. cbn [cat]. intros H Hall.
  apply Forall_cons in Hall as [Ht Hall].
  destruct (cat_onto_entries w rest t x H Hall) as (Hsize & Hlow & Hhigh).
  split_and!.
  - rewrite Hsize, Ht. cbn [length]. lia.
  - intros t' [= <-]. by eapply cat_onto_outer.
  - intros [|n] y i j c Hn Hc; cbn in Hn.
    + injection Hn as <-. apply Hlow. lia.
    + rewrite <- (Hhigh n y i j c Hn Hc). f_equal. lia.
Qed.

(** *** The outputs of the heads *)

Section Frames.
Import ToucanTTS ToucanTTSForward.

Variable decoded_speech : tensor.

Lemma forward_codec_frames_outputs (heads : list Linear) (is_inference : bool)
    (gold_speech : option tensor) (codec_frames : tensor) (st : heads_state) :
  forward_codec_frames heads is_inference decoded_speech gold_speech
  = Ok (codec_frames, st) →
  ∃ outputs,
    predicted_codec_frames st = decoded_speech :: outputs
    ∧ length outputs = length heads
    ∧ cat outputs = Ok codec_frames
    ∧ ∀ k head,
        heads !! k = Some head →
        ∃ x y tensors,
          outputs !! k = Some y
          ∧ cat (decoded_speech :: tensors) = Ok x
          ∧ linear head x = Ok y.
Proof.
  unfold forward_codec_frames. intros H.
  apply bind_ok in H as (gfpc & Hgfpc & H).
  apply bind_ok in H as (st' & Hloop & H).
  apply bind_ok in H as (codec & Hcat & H). injection H as <- <-.
  destruct is_inference; cbn [negb] in Hgfpc, Hloop.
  - apply (classifier_loop_inference decoded_speech gfpc heads 0 _ _ []) in Hloop
      as (new_inputs & new_outputs & _ & Hout & _ & Hlo & Hat); [|done].
    cbn [app] in Hout. rewrite Hout in Hcat |- *. cbn [tail] in Hcat.
    exists new_outputs. split_and!; [done | done | done |].
    intros k head Hk. destruct (Hat k head Hk) as (x & y & _ & Hy & Hx & Hlin).
    eauto 10.
  - apply (classifier_loop_training decoded_speech gfpc heads 0) in Hloop
      as (new_inputs & new_outputs & _ & Hout & _ & Hlo & Hat); [|done].
    cbn [predicted_codec_frames app] in Hout. rewrite Hout in Hcat |- *.
    cbn [tail] in Hcat.
    exists new_outputs. split_and!; [done | done | done |].
    intros k head Hk. destruct (Hat k head Hk) as (x & y & _ & Hy & Hx & Hlin).
    eauto 10.
Qed.

(** The frames before the change of layout: on the first two axes of the
    decoder output, one chunk of width [w] per head, chunk [n] holding the
    output of head [n]. *)
Lemma forward_codec_frames_chunks (w : nat) (heads : list Linear) (is_inference : bool)
    (gold_speech : option tensor) (codec_frames : tensor) (st : heads_state) :
  forward_codec_frames heads is_inference decoded_speech gold_speech
  = Ok (codec_frames, st) →
  (∀ k head, heads !! k = Some head → out_features head = w) →
  same_outer decoded_speech codec_frames
  ∧ size2 codec_frames = (length heads * w)%nat
  ∧ (0 < length heads)%nat
  ∧ length (predicted_codec_frames st) = S (length heads)
  ∧ ∀ n y i j c,
      predicted_codec_frames st !! S n = Some y → (c < w)%nat →
      entry codec_frames i j (n * w + c) = entry y i j c.
Proof.
  intros H Hw.
  apply forward_codec_frames_outputs in H as (outputs & Hpred & Hlen & Hcat & Hat).
  pose proof (outputs_uniform decoded_speech w heads outputs Hlen Hw Hat) as Huni.
  destruct (cat_entries w outputs codec_frames Hcat) as (Hsize & Hhead & Hentries).
  { eapply Forall_impl; [exact Huni|]. by intros t [_ ?]. }
  destruct outputs as [|y0 outputs]; [discriminate|].
  apply Forall_cons in Huni as [[[Hy0 Hy1] _] _].
  destruct (Hhead y0 eq_refl) as [Hc0 Hc1].
  split_and!.
  - split; congruence.
  - rewrite Hsize. f_equal. exact Hlen.
  - rewrite <- Hlen. cbn. lia.
  - rewrite Hpred, <- Hlen. reflexivity.
  - intros n y i j c Hy Hc. rewrite Hpred in Hy. cbn in Hy. by apply Hentries.
Qed.

End Frames.

(** *** The change of layout *)

Lemma view_sizes (t : tensor) (n0 n1 n2 n3 : nat) :
  Tensor4.infer_size (Z.of_nat (size0 t * size1 t * size2 t))
    [Z.of_nat n0; Z.of_nat n1; Z.of_nat n2; Z.of_nat n3]
  = if (n0 * n1 * n2 * n3 =? size0 t * size1 t * size2 t)%nat
    then Ok [Z.of_nat n0; Z.of_nat n1; Z.of_nat n2; Z.of_nat n3]
    else Raise RuntimeError.
Proof.
  unfold Tensor4.infer_size. cbn [existsb List.filter].
  repeat match goal with
         | |- context [Z.of_nat ?n <? -1] =>
             destruct (Z.ltb_spec (Z.of_nat n) (-1)); [lia|]
         | |- context [Z.of_nat ?n =? -1] =>
             destruct (Z.eqb_spec (Z.of_nat n) (-1)); [lia|]
         end.
  cbn [orb Tensor4.product foldr].
  destruct (Nat.eqb_spec (n0 * n1 * n2 * n3) (size0 t * size1 t * size2 t)) as [He|Hne].
  - destruct (Z.eqb_spec (Z.of_nat n0 * (Z.of_nat n1 * (Z.of_nat n2 * (Z.of_nat n3 * 1))))
                (Z.of_nat (size0 t * size1 t * size2 t))) as [|Hne]; [done|].
    exfalso. apply Hne. rewrite <- He. lia.
  - destruct (Z.eqb_spec (Z.of_nat n0 * (Z.of_nat n1 * (Z.of_nat n2 * (Z.of_nat n3 * 1))))
                (Z.of_nat (size0 t * size1 t * size2 t))) as [He|]; [|done].
    exfalso. apply Hne. lia.
Qed.

Lemma offset_split (b l n c L N w : nat) :
  (l < L)%nat → (n < N)%nat → (c < w)%nat →
  let offset := (((b * L + l) * N + n) * w + c)%nat in
  (offset / (L * (N * w)) = b
   ∧ offset / (N * w) mod L = l
   ∧ offset mod (N * w) = n * w + c)%nat.
Proof.
  intros Hl Hn Hc offset.
  assert (Hr : (n * w + c < N * w)%nat) by nia.
  assert (Hq : (offset / (N * w) = b * L + l)%nat).
  { symmetry. apply Nat.div_unique with (r := (n * w + c)%nat); [done|].
    unfold offset. lia. }
  split_and!.
  - symmetry. apply Nat.div_unique with (r := (l * (N * w) + (n * w + c))%nat); [nia|].
    unfold offset. lia.
  - rewrite Hq. symmetry. apply Nat.mod_unique with (q := b); [done | lia].
  - symmetry. apply Nat.mod_unique with (q := (b * L + l)%nat); [done|].
    unfold offset. lia.
Qed.

Section Layout.
Import ToucanTTS ToucanTTSForward Tensor4.

Lemma codebook_layout_ok (self : attributes) (decoded_speech codec_frames : tensor)
    (N w : nat) :
  self_num_codebooks self = Z.of_nat N →
  self_codebook_dim self = Z.of_nat w →
  same_outer decoded_speech codec_frames →
  size2 codec_frames = (N * w)%nat →
  ∃ out,
    codebook_layout self decoded_speech codec_frames = Ok out
    ∧ dim0 out = N
    ∧ dim1 out = size0 decoded_speech
    ∧ dim2 out = w
    ∧ dim3 out = size1 decoded_speech
    ∧ ∀ n b c l,
        (n < N)%nat → (c < w)%nat → (l < size1 decoded_speech)%nat →
        entry4 out n b c l = entry codec_frames b l (n * w + c).
Proof.
  intros HN Hw [H0 H1] H2. unfold codebook_layout, view.
  rewrite HN, Hw, view_sizes.
  assert (Hnumel : (size0 decoded_speech * size1 decoded_speech * N * w
                    =? size0 codec_frames * size1 codec_frames * size2 codec_frames)%nat
                   = true).
  { apply Nat.eqb_eq. rewrite H0, H1, H2. lia. }
  rewrite Hnumel. cbn [rbind map]. rewrite !Nat2Z.id.
  eexists. split; [reflexivity|]. cbn. split_and!; [done..|].
  intros n b c l Hn Hc Hl.
  destruct (offset_split b l n c (size1 decoded_speech) N w Hl Hn Hc) as (Hb & Hl' & Hc').
  cbn zeta in Hb, Hl', Hc'. rewrite H1, H2, Hb, Hl', Hc'. reflexivity.
Qed.


End Layout.

(** *** The gold frames in teacher forcing *)

Section GoldFrames.
Import ToucanTTS.

Lemma classifier_loop_training_length (gold_frames_per_codebook : list tensor)
    (heads : list Linear) :
  ∀ (k : nat) (st st' : heads_state),
    classifier_loop false gold_frames_per_codebook heads k st = Ok st' →
    ∀ j, (j < length heads)%nat → (k + j < length gold_frames_per_codebook)%nat.
Proof.
  induction heads as [|head heads IH]; intros k st st' H j Hj; cbn [length] in Hj; [lia|].
  cbn [classifier_loop negb] in H.
  apply bind_ok in H as (x & _ & H). apply bind_ok in H as (y & _ & H).
  apply bind_ok in H as (g & Hg%subscript_ok & H).
  apply lookup_lt_Some in Hg.
  destruct j as [|j]; [lia|]. specialize (IH _ _ _ H j ltac:(lia)). lia.
Qed.

Lemma split_lookup (g : tensor) (n c : nat) :
  (c < length (split g n))%nat →
  ∃ t, split g n !! c = Some t
       ∧ same_outer g t
       ∧ size2 t = Nat.min n (size2 g - c * n).
Proof.
  unfold split. rewrite length_map, length_seq. intros Hc.
  rewrite list_lookup_fmap, lookup_seq_lt by done. cbn.
  eexists. split; [reflexivity|]. split; [by split | reflexivity].
Qed.

Lemma stack_widths (tensors stacked : list tensor) (i j : nat) (t t' : tensor) :
  stack tensors = Ok stacked →
  tensors !! i = Some t → tensors !! j = Some t' → size2 t = size2 t'.
Proof.
  unfold stack. destruct tensors as [|t0 rest]; [discriminate|].
  destruct (forallb (same_shape t0) rest) eqn:Hall; [|discriminate]. intros _.
  assert (Hw : ∀ k u, (t0 :: rest) !! k = Some u → size2 u = size2 t0).
  { intros [|k] u Hu; cbn in Hu; [by injection Hu as <-|].
    rewrite forallb_forall in Hall.
    specialize (Hall u ltac:(by eapply list_elem_of_In, list_elem_of_lookup_2)).
    unfold same_shape in Hall. rewrite !andb_true_iff, !Nat.eqb_eq in Hall. lia. }
  intros Hi Hj. by rewrite (Hw i t Hi), (Hw j t' Hj).
Qed.

(** Gold frames split into at least two chunks of one width: the width is
    8 and nothing is left over. *)
Lemma split_8_even (g : tensor) (stacked : list tensor) :
  stack (split g 8) = Ok stacked →
  (2 ≤ length (split g 8))%nat →
  size2 g = (length (split g 8) * 8)%nat
  ∧ ∃ t, split g 8 !! 0%nat = Some t ∧ same_outer g t ∧ size2 t = 8%nat.
Proof.
  intros Hstack Hlen.
  destruct (split_lookup g 8 0) as (t0 & Ht0 & Houter & Hw0); [lia|].
  destruct (split_lookup g 8 (length (split g 8) - 1)) as (t1 & Ht1 & _ & Hw1); [lia|].
  pose proof (stack_widths _ _ _ _ _ _ Hstack Ht0 Ht1) as Hsame.
  assert (Hchunks : length (split g 8) = Nat.max 1 ((size2 g + 8 - 1) / 8)).
  { unfold split. by rewrite length_map, length_seq. }
  pose proof (Nat.div_mod_eq (size2 g + 8 - 1) 8) as Hdm.
  pose proof (Nat.mod_upper_bound (size2 g + 8 - 1) 8 ltac:(lia)) as Hub.
  split; [lia|]. exists t0. split; [done|]. split; [done | lia].
Qed.

(** X12: when the teacher-forced pass over the heads goes through: with the
    heads built by the constructor for at least two codebooks, exactly when
    the decoder output has [attention_dimension] features, [codebook_dim]
    is 8, the width at which the gold frames are split, and the gold frames
    are on the first two axes of the decoder output and come in whole
    chunks of width 8, at least one per head.  With any other
    [codebook_dim] every such call raises. *)
Theorem teacher_forcing_needs_chunks_of_8 (self : attributes)
    (init : Z → (nat → nat → fp) * (nat → fp))
    (heads : list Linear) (decoded_speech g : tensor) :
  hierarchical_classifier self init = Ok heads →
  2 ≤ self_num_codebooks self →
  (∃ r, forward_codec_frames heads false decoded_speech (Some g) = Ok r)
  ↔ Z.of_nat (size2 decoded_speech) = self_attention_dimension self
    ∧ self_codebook_dim self = 8
    ∧ same_outer decoded_speech g
    ∧ ∃ chunks : nat,
        size2 g = (chunks * 8)%nat ∧ self_num_codebooks self ≤ Z.of_nat chunks.
Proof.
  intros Hheads HN.
  apply hierarchical_classifier_ok in Hheads as [Hlen Hwidths].
  destruct (lookup_lt_is_Some_2 heads 0 ltac:(lia)) as [head0 Hhead0].
  destruct (lookup_lt_is_Some_2 heads 1 ltac:(lia)) as [head1 Hhead1].
  destruct (Hwidths 0%nat head0 Hhead0) as [Hin0 Hout0].
  destruct (Hwidths 1%nat head1 Hhead1) as [Hin1 _].
  split.
  - intros [[codec_frames st] H].
    pose proof (forward_codec_frames_inputs decoded_speech _ _ _ _ _ H)
      as (codebooks & (g' & [= <-] & ->) & _ & Hat).
    unfold forward_codec_frames in H. cbn [negb] in H.
    apply bind_ok in H as (gfpc & Hstack & H).
    apply bind_ok in H as (st' & Hloop & _).
    pose proof (stack_ok _ _ Hstack) as ->.
    pose proof (classifier_loop_training_length _ _ _ _ _ Hloop
                  (length heads - 1)%nat ltac:(lia)) as Henough.
    destruct (split_8_even g _ Hstack ltac:(lia)) as (Hsize & t0 & Ht0 & [Ht00 Ht01] & Hw0).
    destruct (Hat 0%nat head0 Hhead0) as (x0 & y0 & _ & _ & Hx0 & Hy0).
    cbn in Hx0. injection Hx0 as <-. apply linear_ok in Hy0 as (Hd & _).
    destruct (Hat 1%nat head1 Hhead1) as (x1 & y1 & _ & _ & Hx1 & Hy1).
    rewrite (take_S_r _ _ t0 Ht0) in Hx1. cbn in Hx1.
    apply bind_ok in Hx1 as (a & Ha & Hx1). injection Hx1 as <-.
    apply cat2_ok in Ha as (_ & [Hg0 Hg1] & Ha2).
    apply linear_ok in Hy1 as (Hd1 & _).
    split_and!.
    + lia.
    + lia.
    + split; congruence.
    + exists (length (split g 8)). split; [done | lia].
  - intros (Hatt & Hcd & [Hg0 Hg1] & chunks & Hsize & Hchunks).
    unfold forward_codec_frames. cbn [negb].
    destruct (split_uniform g 8 chunks) as [Hlc Hall]; [lia | lia | done |].
    assert (Huni : uniform decoded_speech 8 (split g 8)).
    { eapply Forall_impl; [exact Hall|]. intros t [[Ht0 Ht1] Ht2].
      split; [split; congruence | done]. }
    rewrite (stack_uniform 8 decoded_speech)
      by (done || (intros E; rewrite E in Hlc; cbn in Hlc; lia)).
    cbn [rbind].
    assert (Hws : ∀ k head, heads !! k = Some head →
                            in_features head = (size2 decoded_speech + k * 8)%nat
                            ∧ out_features head = 8%nat).
    { intros k head Hk. destruct (Hwidths k head Hk). lia. }
    destruct (classifier_loop_training_total decoded_speech (split g 8) 8 heads 0
                {| gold_codec_frames := [decoded_speech];
                   predicted_codec_frames := [decoded_speech];
                   head_inputs := [] |}) as [st Hst];
      [done | done | lia | intros j head Hj; by destruct (Hws j head Hj) |].
    rewrite Hst. cbn [rbind].
    apply (classifier_loop_training decoded_speech (split g 8) heads 0) in Hst
      as (new_inputs & new_outputs & _ & Hout & _ & Hlo & Hat); [|done].
    rewrite Hout. cbn [predicted_codec_frames app tail].
    destruct (cat_nonempty_uniform decoded_speech 8 new_outputs) as [x ->];
      [| |cbn; eauto].
    + intros E. rewrite E in Hlo. cbn in Hlo. lia.
    + apply (outputs_uniform decoded_speech 8 heads); [done | |].
      * intros j head Hj. by destruct (Hws j head Hj).
      * intros j head Hj. destruct (Hat j head Hj) as (x & y & _ & Hy & Hcat & Hlin).
        eauto 10.
Qed.

End GoldFrames.

(** *** The spectrogram of the inference architecture *)

Section Spectrogram.
Import InferenceToucanTTS.

Variable tanh : fp → fp.
Variable codebook_decoder : nat → tensor → tensor.

(** X13: the decoded spectrogram of the inference architecture is the outputs
    of the projectors side by side, in the order of the codebooks: it has
    [n_codebooks * codebook_dim] features, and the features of chunk [k]
    are those the projector of codebook [k] gives on the output of the
    decoder of codebook [k]. *)
Theorem decoded_spectrogram_chunks
    (attention_dimension codebook_dim n_codebooks : Z)
    (parameters : Z → (nat → nat → fp) * (nat → fp) * ((nat → nat → fp) * (nat → fp)))
    (feat_outs : list projector) (decoded_speech decoded_spectrogram : tensor)
    (st : codebooks_state) :
  make_feat_outs attention_dimension codebook_dim n_codebooks parameters = Ok feat_outs →
  forward_codebooks tanh codebook_decoder feat_outs decoded_speech
  = Ok (decoded_spectrogram, st) →
  0 < n_codebooks
  ∧ Z.of_nat (size2 decoded_spectrogram) = n_codebooks * codebook_dim
  ∧ length (codebook_vectors st) = Z.to_nat n_codebooks
  ∧ ∀ k p,
      feat_outs !! k = Some p →
      ∃ y,
        codebook_vectors st !! k = Some y
        ∧ apply_projector tanh p (codebook_decoder k decoded_speech) = Ok y
        ∧ ∀ i j c,
            Z.of_nat c < codebook_dim →
            entry decoded_spectrogram i j (k * Z.to_nat codebook_dim + c) = entry y i j c.
Proof.
  intros Hfeat H. apply make_feat_outs_ok in Hfeat as [Hlf Hps].
  unfold forward_codebooks in H.
  apply bind_ok in H as (st' & Hloop & H).
  apply bind_ok in H as (spectrogram & Hcat & H). injection H as <- <-.
  apply codebook_loop_spec in Hloop
    as (vs & ds & ps & Hv & _ & _ & Hlv & _ & _ & Hat).
  cbn [codebook_vectors app] in Hv. rewrite Hv in Hcat |- *.
  destruct (cat_entries (Z.to_nat codebook_dim) vs spectrogram Hcat)
    as (Hsize & _ & Hentries).
  { apply Forall_lookup. intros k y Hy.
    destruct (lookup_lt_is_Some_2 feat_outs k) as [p Hp].
    { rewrite <- Hlv. by eapply lookup_lt_Some. }
    destruct (Hat k p Hp) as (_ & _ & y' & Hy' & Happ).
    rewrite Hy in Hy'. injection Hy' as <-.
    apply apply_projector_ok in Happ as (_ & _ & ->).
    destruct (Hps k p Hp) as (_ & _ & Hout). lia. }
  assert (Hpos : (0 < length vs)%nat).
  { destruct vs; [discriminate | cbn; lia]. }
  split_and!.
  - lia.
  - rewrite Hsize, Hlv, Hlf.
    destruct (lookup_lt_is_Some_2 feat_outs 0 ltac:(lia)) as [p Hp].
    destruct (Hps 0%nat p Hp) as (_ & _ & Hout). nia.
  - congruence.
  - intros k p Hp. destruct (Hat k p Hp) as (_ & _ & y & Hy & Happ).
    exists y. split_and!; [done | done |].
    intros i j c Hc. apply Hentries; [done | lia].
Qed.

End Spectrogram.

(** Two codebooks of dimension 1 on a decoder output of width 2, all
    parameters zero. *)
Definition example_projector : InferenceToucanTTS.projector :=
  {| InferenceToucanTTS.hidden :=
       {| in_features := 2; out_features := 2;
          weight := fun _ _ => Num.zero; bias := fun _ => Num.zero |};
     InferenceToucanTTS.output :=
       {| in_features := 2; out_features := 1;
          weight := fun _ _ => Num.zero; bias := fun _ => Num.zero |} |}.

Lemma decoded_spectrogram_witness :
  ∃ decoded_spectrogram st,
    InferenceToucanTTS.forward_codebooks (fun x => x) (fun _ x => x)
      [example_projector; example_projector] example_decoded
    = Ok (decoded_spectrogram, st)
    ∧ Z.of_nat (size2 decoded_spectrogram) = 2 * 1.
Proof.
  assert (Hr : ∃ r,
             InferenceToucanTTS.forward_codebooks (fun x => x) (fun _ x => x)
               [example_projector; example_projector] example_decoded = Ok r).
  { eexists. vm_compute. reflexivity. }
  destruct Hr as [[decoded_spectrogram st] Hr].
  destruct (decoded_spectrogram_chunks (fun x => x) (fun _ x => x) 2 1 2
              example_parameters [example_projector; example_projector]
              example_decoded decoded_spectrogram st eq_refl Hr)
    as (_ & Hsize & _).
  exists decoded_spectrogram, st. split; [exact Hr | exact Hsize].
Defined.


Lemma teacher_forcing_witness :
  ∃ r,
    ToucanTTS.forward_codec_frames default_heads false default_decoded (Some default_gold)
    = Ok r.
Proof.
  apply (teacher_forcing_needs_chunks_of_8 (ToucanTTS.init_attributes ToucanTTS.defaults)
           zero_parameters default_heads default_decoded default_gold eq_refl).
  - change (2 ≤ 9). lia.
  - split_and!; [reflexivity | reflexivity | by split |].
    exists 9%nat. split; [reflexivity | change (9 ≤ 9); lia].
Defined.

End FrameProperties.

(** ** The control parameters of the inference architecture *)

Module ControlProperties.
Import ResultLemmas InferenceToucanTTS OverrideProperties.

(** *** Curves without a non-zero entry *)

(** X14: a curve whose entries are all 0.0, scaled by anything but 1.0, comes
    back with NaN at every position: the mean is taken over no entry. *)
Theorem all_zero_curve_becomes_nan (sequence : list fp) (scale : fp) :
  Num.eqb scale Num.one = false →
  forallb (fun x => Num.eqb x Num.zero) sequence = true →
  _scale_variance sequence scale = map (fun _ => NaN) sequence.
Proof.
  intros Hs Hall. unfold _scale_variance. rewrite Hs.
  assert (Hnone : List.filter (fun x => Num.neqb x Num.zero) sequence = []).
  { induction sequence as [|x l IH]; [done|]. cbn [forallb] in Hall.
    apply andb_true_iff in Hall as [Hx Hl]. cbn [List.filter]. unfold Num.neqb at 1.
    rewrite Hx. cbn [negb]. by apply IH. }
  rewrite Hnone. cbn [Num.mean].
  rewrite ScaleVarianceProperties.clip_negative_map, !map_map.
  apply map_ext. intros x. by destruct x, scale.
Qed.

Lemma all_zero_curve_witness :
  _scale_variance [Fin 0; Fin 0; Fin 0] (Fin (1 # 2)) = [NaN; NaN; NaN].
Proof.
  apply (all_zero_curve_becomes_nan [Fin 0; Fin 0; Fin 0] (Fin (1 # 2))); reflexivity.
Defined.

(** *** Entries that are zero in a curve that is not *)

Lemma zero_entry_scaled (xs : list Q) (s : Q) (i : nat) (x : Q) :
  let m := ScaleVarianceProperties.qmean (List.filter ScaleVarianceProperties.nonzero xs) in
  Qeq_bool s 1 = false →
  existsb ScaleVarianceProperties.nonzero xs = true →
  xs !! i = Some x →
  (x == 0)%Q →
  ∃ y,
    _scale_variance (map Fin xs) (Fin s) !! i = Some (Fin y)
    ∧ (y == ScaleVarianceProperties.clip (m * (1 - s)))%Q
    ∧ ((0 < m)%Q → (s < 1)%Q → (0 < y)%Q)
    ∧ ((0 <= m)%Q → (1 <= s)%Q → (y == 0)%Q).
Proof.
  intros m Hs Hex Hi Hx.
  assert (Hnz : List.filter ScaleVarianceProperties.nonzero xs ≠ []).
  { apply existsb_exists in Hex as (z & Hin & Hz). intros Hnil.
    assert (Hf : In z (List.filter ScaleVarianceProperties.nonzero xs))
      by (apply filter_In; done).
    rewrite Hnil in Hf. destruct Hf. }
  rewrite (ScaleVarianceProperties.scale_variance_finite xs s Hs Hnz). fold m.
  rewrite list_lookup_fmap, Hi. cbn [fmap option_fmap option_map].
  eexists. split; [reflexivity|].
  assert (Hscaled : (ScaleVarianceProperties.scaled m s x == m * (1 - s))%Q).
  { unfold ScaleVarianceProperties.scaled. rewrite Hx. ring. }
  assert (Hclip : (ScaleVarianceProperties.clip (ScaleVarianceProperties.scaled m s x)
                   == ScaleVarianceProperties.clip (m * (1 - s)))%Q).
  { unfold ScaleVarianceProperties.clip. rewrite Hscaled.
    destruct (Qle_bool 0 (m * (1 - s))); [exact Hscaled | reflexivity]. }
  split; [exact Hclip|]. rewrite Hclip. unfold ScaleVarianceProperties.clip.
  destruct (Qle_bool 0 (m * (1 - s))) eqn:Hle.
  - apply Qle_bool_iff in Hle. split; intros Hm Hs1; nra.
  - assert (Hneg : ¬ (0 <= m * (1 - s))%Q).
    { intros H. apply Qle_bool_iff in H. congruence. }
    split; intros Hm Hs1; [|reflexivity]. exfalso. apply Hneg. nra.
Qed.

(** X15: with the arithmetic of the curve taken exactly (the rounding of
    the 32-bit floats is left out, so that a scale within rounding
    distance of 1.0 is not covered), in a finite curve with a non-zero
    entry, scaled by a finite factor other than 1.0, an entry that is 0.0
    does not stay out of the scaling: it becomes m * (1 - s), with m the
    mean of the non-zero entries, or 0.0 when that is negative.  With a
    positive mean and a scale below 1 the entry ends up above zero. *)
Theorem zero_entries_are_scaled (xs : list Q) (s : Q) (i : nat) (x : Q) :
  let m := ScaleVarianceProperties.qmean (List.filter ScaleVarianceProperties.nonzero xs) in
  Qeq_bool s 1 = false →
  existsb ScaleVarianceProperties.nonzero xs = true →
  xs !! i = Some x →
  (x == 0)%Q →
  ∃ y,
    _scale_variance (map Fin xs) (Fin s) !! i = Some (Fin y)
    ∧ (y == ScaleVarianceProperties.clip (m * (1 - s)))%Q
    ∧ ((0 < m)%Q → (s < 1)%Q → (0 < y)%Q)
    ∧ ((0 <= m)%Q → (1 <= s)%Q → (y == 0)%Q).
Proof. apply zero_entry_scaled. Qed.

Lemma zero_entries_witness :
  ∃ y,
    _scale_variance (map Fin [1; 2; 0; 3]%Q) (Fin (1 # 2)) !! 2%nat = Some (Fin y)
    ∧ (0 < y)%Q.
Proof.
  destruct (zero_entries_are_scaled [1; 2; 0; 3]%Q (1 # 2) 2 0%Q)
    as (y & Hy & _ & Hpos & _); [reflexivity | reflexivity | reflexivity | reflexivity |].
  exists y. split; [exact Hy|]. apply Hpos; reflexivity.
Defined.

(** *** The duration factor and the pause factor *)

Lemma scale_duration_finite (d : Z) (q : Q) :
  scale_duration d (Fin q)
  = let scaled := Num.round_half_even (inject_Z d * q) in
    if (Num.int64_min <=? scaled) && (scaled <=? Num.int64_max)
    then Ok scaled else Raise Undefined.
Proof.
  unfold scale_duration, Num.of_long. cbn [Num.mul Num.round Num.to_long inject_Z Qnum Qden].
  by rewrite Z.quot_1_r.
Qed.

Lemma nonpositive_rounds_down (v : Q) : (v <= 0)%Q → Num.round_half_even v ≤ 0.
Proof.
  destruct v as [n d]. unfold Qle, Num.round_half_even. cbn [Qnum Qden]. intros Hn.
  pose proof (Z.div_mod n (Z.pos d) ltac:(lia)) as Hdm.
  pose proof (Z.mod_pos_bound n (Z.pos d) ltac:(lia)) as Hb.
  assert (Hfl : n / Z.pos d ≤ 0) by nia.
  destruct (Z.eq_dec (n / Z.pos d) 0) as [H0|Hne].
  - rewrite H0 in *. assert (Hmod : n mod Z.pos d = 0) by lia.
    rewrite Hmod. cbn [Z.mul Z.compare]. reflexivity.
  - destruct (2 * (n mod Z.pos d) ?= Z.pos d); [destruct (Z.even _)| |]; lia.
Qed.

(** The rounding of a value between [- N] and [N] stays between them. *)
Lemma round_half_even_bound (v : Q) (N : Z) :
  (inject_Z (- N) <= v)%Q → (v <= inject_Z N)%Q →
  - N ≤ Num.round_half_even v ≤ N.
Proof.
  destruct v as [n d]. unfold Qle, Num.round_half_even. cbn [Qnum Qden inject_Z].
  intros Hlo Hhi.
  pose proof (Z.div_mod n (Z.pos d) ltac:(lia)) as Hdm.
  pose proof (Z.mod_pos_bound n (Z.pos d) ltac:(lia)) as Hb.
  assert (Hfl : - N ≤ n / Z.pos d ≤ N).
  { split; [apply Z.div_le_lower_bound | apply Z.div_le_upper_bound]; nia. }
  destruct (Z.eq_dec (n / Z.pos d) N) as [HN|Hne].
  - assert (Hmod : n mod Z.pos d = 0) by nia.
    rewrite Hmod, HN. change (2 * 0 ?= Z.pos d) with Lt. cbv iota. lia.
  - destruct (2 * (n mod Z.pos d) ?= Z.pos d); [destruct (Z.even _)| |]; lia.
Qed.

Lemma scale_duration_bounded (d : Z) (p : Q) (D P : Z) :
  Z.abs d ≤ D →
  (- inject_Z P <= p <= inject_Z P)%Q →
  D * P ≤ Num.int64_max →
  ∃ d', scale_duration d (Fin p) = Ok d' ∧ Z.abs d' ≤ D * P.
Proof.
  intros Hd [Hlo Hhi] Hmax. rewrite scale_duration_finite. cbn zeta.
  assert (HD : (- inject_Z D <= inject_Z d <= inject_Z D)%Q).
  { rewrite <- inject_Z_opp, <- !Zle_Qle. lia. }
  destruct (round_half_even_bound (inject_Z d * p) (D * P)) as [H1 H2].
  - rewrite inject_Z_opp, inject_Z_mult. nra.
  - rewrite inject_Z_mult. nra.
  - assert (Hmin : Num.int64_min ≤ - (D * P)) by (unfold Num.int64_min, Num.int64_max in *; lia).
    destruct (Z.leb_spec Num.int64_min (Num.round_half_even (inject_Z d * p))); [|lia].
    destruct (Z.leb_spec (Num.round_half_even (inject_Z d * p)) Num.int64_max); [|lia].
    cbn [andb]. eexists. split; [reflexivity|]. lia.
Qed.

(** Scaling a duration raises nothing but [Undefined]. *)
Lemma scale_duration_raises (d : Z) (factor : fp) (e : exn) :
  scale_duration d factor = Raise e → e = Undefined.
Proof.
  unfold scale_duration, Num.to_long.
  destruct (Num.round _) as [| | |q]; [congruence..|].
  destruct (_ && _); congruence.
Qed.

Lemma traverse_raises {A B : Type} (f : A → result B) (l : list A) (e : exn) :
  Tensor.traverse f l = Raise e → ∃ x, x ∈ l ∧ f x = Raise e.
Proof.
  induction l as [|a l IH]; cbn; [discriminate|].
  destruct (f a) as [y|e'] eqn:Ha; cbn.
  - destruct (Tensor.traverse f l) as [ys|e'']; cbn; [discriminate|].
    intros [= ->]. destruct (IH eq_refl) as (x & Hx & Hfx).
    exists x. split; [by right | done].
  - intros [= ->]. exists a. split; [by left | done].
Qed.

Section Factors.

Variable feature_index : string → nat.
Variable pitch_predictor : list (list fp) → list fp.
Variable energy_predictor : list (list fp) → list fp.
Variable duration_predictor_inference : list (list fp) → list Z.

Abbreviation forward_overrides' :=
  (forward_overrides feature_index pitch_predictor energy_predictor
     duration_predictor_inference).
Abbreviation forward_curves' :=
  (forward_curves feature_index pitch_predictor energy_predictor
     duration_predictor_inference).

(** X16: once the overrides are done, the call ends with an
    [AssertionError] exactly when the duration factor is not 1.0 and is
    not above zero: zero, a negative number and NaN are refused, 1.0 and
    every factor above zero are not.  With a factor of 1.0 the durations
    are returned as the overrides left them. *)
Theorem duration_factor_must_be_positive (text : list (list fp))
    (gold_durations : option (list Z)) (gold_pitch gold_energy : option (list fp))
    (duration_scaling_factor pitch_variance_scale energy_variance_scale
       pause_duration_scaling_factor : fp) (overridden : curves) :
  forward_overrides' text gold_durations gold_pitch gold_energy
    pause_duration_scaling_factor = Ok overridden →
  (forward_curves' text gold_durations gold_pitch gold_energy
     duration_scaling_factor pitch_variance_scale energy_variance_scale
     pause_duration_scaling_factor = Raise AssertionError
   ↔ Num.neqb duration_scaling_factor Num.one = true
     ∧ Num.gtb duration_scaling_factor Num.zero = false)
  ∧ (Num.eqb duration_scaling_factor Num.one = true →
     ∃ c,
       forward_curves' text gold_durations gold_pitch gold_energy
         duration_scaling_factor pitch_variance_scale energy_variance_scale
         pause_duration_scaling_factor = Ok c
       ∧ predicted_durations c = predicted_durations overridden).
Proof.
  intros Hover. unfold forward_curves. rewrite Hover. cbn [rbind]. split.
  - destruct (Num.neqb duration_scaling_factor Num.one); [|cbn; split; [discriminate|by intros [? _]]].
    destruct (Num.gtb duration_scaling_factor Num.zero); [|done].
    split; [|by intros [_ ?]].
    destruct (Tensor.traverse _ _) as [durations|e] eqn:Hd; cbn [rbind]; [discriminate|].
    intros [= ->]. apply traverse_raises in Hd as (d & _ & Hd).
    by apply scale_duration_raises in Hd.
  - intros Hone. unfold Num.neqb. rewrite Hone. cbn. eauto.
Qed.

(** What the loop leaves as the duration of a token whose silence feature
    is 1 when the pause factor is not 1.0: the duration it had, or 0 at a
    word boundary, times the factor, rounded. *)
Definition paused_at (pause : fp) (i : nat) (v : list fp) (c0 c : curves) : Prop :=
  ∀ x y,
    feature feature_index "word-boundary" v x →
    feature feature_index "silence" v y →
    Num.eqb y Num.one && Num.neqb pause Num.one = true →
    ∃ d d',
      predicted_durations c0 !! i = Some d
      ∧ scale_duration (if Num.eqb x Num.one then 0 else d) pause = Ok d'
      ∧ predicted_durations c !! i = Some d'.

Lemma override_phoneme_pause (pause : fp) (k : nat) (v : list fp) (c c' : curves) :
  override_phoneme feature_index pause k v c = Ok c' → paused_at pause k v c c'.
Proof.
  unfold override_phoneme. intros H x y Hx Hy Hon.
  apply bind_ok in H as (voiced & _ & H).
  apply bind_ok in H as (pitch & _ & H).
  apply bind_ok in H as (phoneme & _ & H).
  apply bind_ok in H as (energy & _ & H).
  apply bind_ok in H as (wb & Hwb%subscript_ok & H).
  apply bind_ok in H as (d1 & Hd1 & H).
  apply bind_ok in H as (silence & Hsilence%subscript_ok & H).
  apply bind_ok in H as (d2 & Hd2 & H).
  injection H as <-. cbn [predicted_durations].
  unfold feature in Hx, Hy. rewrite Hwb in Hx. injection Hx as <-.
  rewrite Hsilence in Hy. injection Hy as <-. rewrite Hon in Hd2.
  apply bind_ok in Hd2 as (d & Hd%subscript_ok & Hd2).
  apply bind_ok in Hd2 as (scaled & Hscaled & Hd2).
  apply assign_ok in Hd2 as [Hk ->].
  apply guarded_assign_ok in Hd1 as (Hlen & _ & Hset & Hkeep).
  destruct (lookup_lt_is_Some_2 (predicted_durations c) k ltac:(lia)) as [d0 Hd0].
  exists d0, scaled. split; [done|]. split; [|by apply list_lookup_insert_eq].
  destruct (Num.eqb wb Num.one).
  - rewrite (Hset eq_refl) in Hd. by injection Hd as <-.
  - rewrite (Hkeep eq_refl), Hd0 in Hd. by injection Hd as <-.
Qed.

Lemma override_loop_pause (pause : fp) (text : list (list fp)) :
  ∀ (k : nat) (c c' : curves),
    override_loop feature_index pause k text c = Ok c' →
    ∀ i v, text !! i = Some v → paused_at pause (k + i) v c c'.
Proof.
  induction text as [|phoneme_vector rest IH]; intros k c c' H i v Hv; [done|].
  cbn [override_loop] in H. apply bind_ok in H as (c1 & Hc1 & H).
  pose proof (override_phoneme_spec feature_index _ _ _ _ _ Hc1) as (_ & Hother & _).
  pose proof (override_loop_spec feature_index _ _ _ _ _ H) as (_ & Hbefore & _).
  destruct i as [|i]; cbn in Hv.
  - injection Hv as <-. rewrite Nat.add_0_r.
    intros x y Hx Hy Hon.
    destruct (override_phoneme_pause _ _ _ _ _ Hc1 x y Hx Hy Hon) as (d & d' & Hd & Hs & Hd').
    exists d, d'. split; [done|]. split; [done|].
    destruct (Hbefore k ltac:(lia)) as (_ & _ & ->). done.
  - replace (k + S i)%nat with (S k + i)%nat by lia.
    intros x y Hx Hy Hon.
    destruct (IH _ _ _ H i v Hv x y Hx Hy Hon) as (d & d' & Hd & Hs & Hd').
    exists d, d'. split; [|done].
    destruct (Hother (S k + i)%nat ltac:(lia)) as (_ & _ & <-). done.
Qed.

(** The loop leaves the positions after the text as they are. *)
Lemma override_loop_beyond (pause : fp) (text : list (list fp)) :
  ∀ (k : nat) (c c' : curves),
    override_loop feature_index pause k text c = Ok c' →
    ∀ j, (k + length text ≤ j)%nat → same_at j c c'.
Proof.
  induction text as [|phoneme_vector rest IH]; intros k c c' H j Hj; cbn in H.
  - by injection H as <-.
  - apply bind_ok in H as (c1 & Hc1 & H). cbn [length] in Hj.
    apply override_phoneme_spec in Hc1 as (_ & Hother & _).
    destruct (Hother j ltac:(lia)) as (H1 & H2 & H3).
    destruct (IH _ _ _ H j ltac:(lia)) as (H4 & H5 & H6).
    split_and!; congruence.
Qed.

(** The durations after the overrides under a finite pause factor of size
    at most [P], when the durations before were of size at most [D]. *)
Lemma forward_overrides_bounded (text : list (list fp))
    (gold_durations : option (list Z)) (gold_pitch gold_energy : option (list fp))
    (p : Q) (D P : Z) :
  let c0 :=
    substitute pitch_predictor energy_predictor duration_predictor_inference
      text gold_durations gold_pitch gold_energy in
  Forall (has_features feature_index) text →
  (length text ≤ length (pitch_predictions c0))%nat →
  (length text ≤ length (energy_predictions c0))%nat →
  (length text ≤ length (predicted_durations c0))%nat →
  Forall (fun d => Z.abs d ≤ D) (predicted_durations c0) →
  0 ≤ D →
  1 ≤ P →
  (- inject_Z P <= p <= inject_Z P)%Q →
  D * P ≤ Num.int64_max →
  ∃ c,
    forward_overrides' text gold_durations gold_pitch gold_energy (Fin p) = Ok c
    ∧ (∀ i v, text !! i = Some v → overridden_at feature_index (Fin p) i v c0 c)
    ∧ (∀ i v, text !! i = Some v → paused_at (Fin p) i v c0 c)
    ∧ Forall (fun d => Z.abs d ≤ D * P) (predicted_durations c).
Proof.
  intros c0 Hall Hp He Hd Hbound HD HP Hsize Hmax.
  destruct (forward_overrides_total feature_index pitch_predictor energy_predictor
              duration_predictor_inference text gold_durations gold_pitch gold_energy
              (Fin p) Hall Hp He Hd) as (c & Hc & Hat).
  { fold c0. apply orb_true_iff. right. apply forallb_forall. intros d Hin.
    assert (Hd' : Z.abs d ≤ D).
    { destruct Hin as [<-|Hin]; [lia|]. rewrite Forall_forall in Hbound.
      apply Hbound. by apply list_elem_of_In. }
    by destruct (scale_duration_bounded d p D P Hd' Hsize Hmax) as (d' & -> & _). }
  exists c. split; [exact Hc|]. split; [exact Hat|].
  assert (Hpause : ∀ i v, text !! i = Some v → paused_at (Fin p) i v c0 c).
  { intros i v Hv. apply (override_loop_pause (Fin p) text 0 c0 c Hc i v Hv). }
  split; [exact Hpause|].
  apply Forall_lookup. intros i d' Hd'.
  assert (Hkept : predicted_durations c !! i = predicted_durations c0 !! i → Z.abs d' ≤ D * P).
  { intros Heq. rewrite Hd' in Heq. symmetry in Heq.
    rewrite Forall_lookup in Hbound. specialize (Hbound i d' Heq). nia. }
  destruct (text !! i) as [v|] eqn:Hv.
  - rewrite Forall_lookup in Hall. destruct (Hall i v Hv) as (_ & _ & Hw & Hs).
    destruct (lookup_lt_is_Some_2 _ _ Hw) as [x Hx].
    destruct (lookup_lt_is_Some_2 _ _ Hs) as [y Hy].
    destruct (Num.eqb y Num.one && Num.neqb (Fin p) Num.one) eqn:Hon.
    + destruct (Hpause i v Hv x y Hx Hy Hon) as (d0 & d'' & Hd0 & Hscale & Hd'').
      rewrite Hd' in Hd''. injection Hd'' as <-.
      assert (Hin : Z.abs (if Num.eqb x Num.one then 0 else d0) ≤ D).
      { destruct (Num.eqb x Num.one); [lia|].
        rewrite Forall_lookup in Hbound. by apply (Hbound i). }
      destruct (scale_duration_bounded _ p D P Hin Hsize Hmax) as (d1 & Hd1 & Hle).
      rewrite Hd1 in Hscale. by injection Hscale as <-.
    + destruct (Hat i v Hv) as (_ & _ & Hzero & Hkeep).
      destruct (Num.eqb x Num.one) eqn:Hone.
      * rewrite (Hzero x Hx Hone) in Hd'. injection Hd' as <-. nia.
      * apply Hkept. by apply (Hkeep x y).
  - apply Hkept. apply lookup_ge_None in Hv.
    unfold forward_overrides in Hc.
    by destruct (override_loop_beyond _ _ _ _ _ Hc i ltac:(lia)) as (_ & _ & ?).
Qed.

Lemma forward_curves_bounded (text : list (list fp))
    (gold_durations : option (list Z)) (gold_pitch gold_energy : option (list fp))
    (p q : Q) (pitch_variance_scale energy_variance_scale : fp) (D P F : Z) :
  let c0 :=
    substitute pitch_predictor energy_predictor duration_predictor_inference
      text gold_durations gold_pitch gold_energy in
  Forall (has_features feature_index) text →
  (length text ≤ length (pitch_predictions c0))%nat →
  (length text ≤ length (energy_predictions c0))%nat →
  (length text ≤ length (predicted_durations c0))%nat →
  Forall (fun d => Z.abs d ≤ D) (predicted_durations c0) →
  0 ≤ D →
  1 ≤ P →
  (- inject_Z P <= p <= inject_Z P)%Q →
  (0 < q <= inject_Z F)%Q →
  D * P * F ≤ Num.int64_max →
  ∃ c,
    forward_curves' text gold_durations gold_pitch gold_energy
      (Fin q) pitch_variance_scale energy_variance_scale (Fin p) = Ok c.
Proof.
  intros c0 Hall Hp He Hd Hbound HD HP Hsize [Hpos Hq] Hmax.
  assert (HF : 1 ≤ F).
  { assert (H : (0 < inject_Z F)%Q) by lra.
    change 0%Q with (inject_Z 0) in H. rewrite <- Zlt_Qlt in H. lia. }
  destruct (forward_overrides_bounded text gold_durations gold_pitch gold_energy
              p D P Hall Hp He Hd Hbound HD HP Hsize) as (c & Hc & _ & _ & Hc').
  { nia. }
  unfold forward_curves. rewrite Hc. cbn [rbind].
  destruct (Num.neqb (Fin q) Num.one); [|cbn; eauto].
  assert (Hgt : Num.gtb (Fin q) Num.zero = true).
  { unfold Num.gtb, Num.ltb, Num.zero. apply negb_true_iff.
    destruct (Qle_bool q 0) eqn:Hle; [|done]. apply Qle_bool_iff in Hle. lra. }
  rewrite Hgt.
  destruct (traverse_total (fun d => scale_duration d (Fin q)) (predicted_durations c))
    as [durations ->]; [|cbn; eauto].
  apply forallb_forall. intros d Hin. apply list_elem_of_In in Hin.
  rewrite Forall_forall in Hc'. specialize (Hc' d Hin).
  destruct (scale_duration_bounded d q (D * P) F Hc') as (d' & -> & _); [|done..].
  split; [|done]. assert (H : (0 <= inject_Z F)%Q) by lra. lra.
Qed.

(** X17: the pause factor is not checked: a finite factor is accepted
    also when it is zero or negative.  When the phoneme vectors have the
    features, the curves cover the text, the durations are of size at most
    [D] and the factor of size at most [P], with [D * P] at most 2^62, the
    overrides go through; with a factor of zero or below, a token whose
    silence feature is 1 and whose duration was not negative is left
    with a duration of zero or below; a token that is neither a pause nor
    a word boundary keeps its duration. *)
Theorem pause_factor_applied_unchecked (text : list (list fp))
    (gold_durations : option (list Z)) (gold_pitch gold_energy : option (list fp))
    (p : Q) (D P : Z) :
  let c0 :=
    substitute pitch_predictor energy_predictor duration_predictor_inference
      text gold_durations gold_pitch gold_energy in
  Forall (has_features feature_index) text →
  (length text ≤ length (pitch_predictions c0))%nat →
  (length text ≤ length (energy_predictions c0))%nat →
  (length text ≤ length (predicted_durations c0))%nat →
  Forall (fun d => Z.abs d ≤ D) (predicted_durations c0) →
  0 ≤ D →
  1 ≤ P →
  (- inject_Z P <= p <= inject_Z P)%Q →
  D * P ≤ 2 ^ 62 →
  ∃ c,
    forward_overrides' text gold_durations gold_pitch gold_energy (Fin p) = Ok c
    ∧ ∀ i v x y,
        text !! i = Some v →
        feature feature_index "word-boundary" v x →
        feature feature_index "silence" v y →
        (Num.eqb y Num.one = true → (p <= 0)%Q →
         ∀ d, predicted_durations c0 !! i = Some d → 0 ≤ d →
              ∃ d', predicted_durations c !! i = Some d' ∧ d' ≤ 0)
        ∧ (Num.eqb y Num.one = false → Num.eqb x Num.one = false →
           predicted_durations c !! i = predicted_durations c0 !! i).
Proof.
  intros c0 Hall Hp He Hd Hbound HD HP Hsize Hmax.
  destruct (forward_overrides_bounded text gold_durations gold_pitch gold_energy
              p D P Hall Hp He Hd Hbound HD HP Hsize) as (c & Hc & Hat & Hpause & _).
  { unfold Num.int64_max. lia. }
  exists c. split; [exact Hc|]. intros i v x y Hv Hx Hy. split.
  - intros Hone Hneg d Hd0 Hd0pos.
    assert (Hne : Num.neqb (Fin p) Num.one = true).
    { unfold Num.neqb, Num.eqb, Num.one. apply negb_true_iff.
      destruct (Qeq_bool p 1) eqn:Heq; [|done]. apply Qeq_bool_iff in Heq. lra. }
    destruct (Hpause i v Hv x y Hx Hy) as (d0 & d' & Hd0' & Hs & Hd').
    { by rewrite Hone, Hne. }
    fold c0 in Hd0'. rewrite Hd0 in Hd0'. injection Hd0' as <-.
    exists d'. split; [exact Hd'|].
    rewrite scale_duration_finite in Hs. cbn zeta in Hs.
    destruct (_ && _); [|discriminate]. injection Hs as <-.
    assert (Hd0q : (0 <= inject_Z d)%Q) by (unfold Qle; cbn; lia).
    destruct (Num.eqb x Num.one); apply nonpositive_rounds_down; [|nra].
    change (inject_Z 0) with 0%Q. lra.
  - intros Hoff Hnot. destruct (Hat i v Hv) as (_ & _ & _ & Hkeep).
    apply (Hkeep x y Hx Hy Hnot). by rewrite Hoff.
Qed.

(** X21: with the arithmetic of the curve taken exactly (the rounding of
    the 32-bit floats is left out, so that a scale within rounding
    distance of 1.0 is not covered), the pitch that the overrides set to
    0.0 at the tokens that are not voiced does not stay 0.0 under a pitch
    variance scale other than 1.0:
    with a finite pitch curve that has a non-zero entry, the call returns
    m * (1 - s) at every such token, with m the mean of the non-zero
    entries after the overrides, or 0.0 when that is negative; for a
    positive mean and a scale below 1 this is above zero. *)
Theorem zeroed_pitch_is_scaled (text : list (list fp))
    (gold_durations : option (list Z)) (gold_pitch gold_energy : option (list fp))
    (pitch_variance_scale : Q) (energy_variance_scale pause_duration_scaling_factor : fp)
    (overridden : curves) (pitch : list Q) :
  let m := ScaleVarianceProperties.qmean
             (List.filter ScaleVarianceProperties.nonzero pitch) in
  forward_overrides' text gold_durations gold_pitch gold_energy
    pause_duration_scaling_factor = Ok overridden →
  pitch_predictions overridden = map Fin pitch →
  Qeq_bool pitch_variance_scale 1 = false →
  existsb ScaleVarianceProperties.nonzero pitch = true →
  ∃ c,
    forward_curves' text gold_durations gold_pitch gold_energy
      (Fin 1) (Fin pitch_variance_scale) energy_variance_scale
      pause_duration_scaling_factor = Ok c
    ∧ ∀ i v x,
        text !! i = Some v →
        feature feature_index "voiced" v x →
        Num.eqb x Num.zero = true →
        ∃ y,
          pitch_predictions c !! i = Some (Fin y)
          ∧ (y == ScaleVarianceProperties.clip (m * (1 - pitch_variance_scale)))%Q
          ∧ ((0 < m)%Q → (pitch_variance_scale < 1)%Q → (0 < y)%Q).
Proof.
  intros m Hover Hpitch Hs Hex. unfold forward_curves. rewrite Hover. cbn [rbind].
  change (Num.neqb (Fin 1) Num.one) with false. cbn [rbind].
  eexists. split; [reflexivity|]. cbn [pitch_predictions].
  intros i v x Hv Hx Hzero.
  unfold forward_overrides in Hover.
  apply override_loop_spec in Hover as (_ & _ & Hat).
  destruct (Hat i v Hv) as (Hvoiced & _). specialize (Hvoiced x Hx).
  rewrite Hzero in Hvoiced. cbn [Nat.add] in Hvoiced.
  rewrite Hpitch, list_lookup_fmap in Hvoiced.
  destruct (pitch !! i) as [x0|] eqn:Hi; [|discriminate].
  injection Hvoiced as ->. rewrite Hpitch.
  destruct (zero_entry_scaled pitch pitch_variance_scale i 0%Q Hs Hex Hi)
    as (y & Hy & Hclip & Hpos & _); [reflexivity|].
  exists y. done.
Qed.

End Factors.

(** *** The word-boundary rule under the scale factors *)



Lemma duration_factor_witness :
  forward_curves example_index
    (fun _ => [Fin 5; Fin 6; Fin 7]) (fun _ => [Fin 1; Fin 2; Fin 3])
    (fun _ => [3; 2; 4]) example_text (Some [6; 7; 8]) None None
    (Fin 0) (Fin 1) (Fin 1) (Fin 1) = Raise AssertionError.
Proof.
  assert (Hover : ∃ c,
             forward_overrides example_index
               (fun _ => [Fin 5; Fin 6; Fin 7]) (fun _ => [Fin 1; Fin 2; Fin 3])
               (fun _ => [3; 2; 4]) example_text (Some [6; 7; 8]) None None (Fin 1)
             = Ok c).
  { eexists. vm_compute. reflexivity. }
  destruct Hover as (overridden & Hover).
  destruct (duration_factor_must_be_positive example_index
              (fun _ => [Fin 5; Fin 6; Fin 7]) (fun _ => [Fin 1; Fin 2; Fin 3])
              (fun _ => [3; 2; 4]) example_text (Some [6; 7; 8]) None None
              (Fin 0) (Fin 1) (Fin 1) (Fin 1) overridden Hover) as [[_ H] _].
  apply H. split; reflexivity.
Defined.

Lemma pause_factor_witness :
  ∃ c d',
    forward_overrides example_index
      (fun _ => [Fin 5; Fin 6; Fin 7]) (fun _ => [Fin 1; Fin 2; Fin 3])
      (fun _ => [3; 2; 4]) example_text (Some [6; 7; 8]) None None (Fin (-1)) = Ok c
    ∧ predicted_durations c !! 2%nat = Some d'
    ∧ d' ≤ 0.
Proof.
  destruct (pause_factor_applied_unchecked example_index
              (fun _ => [Fin 5; Fin 6; Fin 7]) (fun _ => [Fin 1; Fin 2; Fin 3])
              (fun _ => [3; 2; 4]) example_text (Some [6; 7; 8]) None None (-1)%Q 8 1)
    as (c & Hc & Hat).
  - repeat constructor.
  - cbn. lia.
  - cbn. lia.
  - cbn. lia.
  - cbn. repeat constructor; lia.
  - lia.
  - lia.
  - split; vm_compute; discriminate.
  - vm_compute. discriminate.
  - destruct (Hat 2%nat [Fin 0; Fin 0; Fin 0; Fin 1] (Fin 0) (Fin 1)
                eq_refl eq_refl eq_refl) as [H _].
    destruct (H eq_refl ltac:(vm_compute; discriminate) 8 eq_refl ltac:(lia))
      as (d' & Hd' & Hle).
    by exists c, d'.
Defined.

Lemma zeroed_pitch_witness :
  ∃ c y,
    forward_curves example_index
      (fun _ => [Fin 5; Fin 6; Fin 7]) (fun _ => [Fin 1; Fin 2; Fin 3])
      (fun _ => [3; 2; 4]) example_text (Some [6; 7; 8]) (Some [Fin 9; Fin 9; Fin 9]) None
      (Fin 1) (Fin (1 # 2)) (Fin 1) (Fin 1) = Ok c
    ∧ pitch_predictions c !! 1%nat = Some (Fin y)
    ∧ (0 < y)%Q.
Proof.
  assert (Hover : ∃ c,
             forward_overrides example_index
               (fun _ => [Fin 5; Fin 6; Fin 7]) (fun _ => [Fin 1; Fin 2; Fin 3])
               (fun _ => [3; 2; 4]) example_text (Some [6; 7; 8])
               (Some [Fin 9; Fin 9; Fin 9]) None (Fin 1) = Ok c
             ∧ pitch_predictions c = map Fin [9; 0; 0]%Q).
  { eexists. split; vm_compute; reflexivity. }
  destruct Hover as (overridden & Hover & Hpitch).
  destruct (zeroed_pitch_is_scaled example_index
              (fun _ => [Fin 5; Fin 6; Fin 7]) (fun _ => [Fin 1; Fin 2; Fin 3])
              (fun _ => [3; 2; 4]) example_text (Some [6; 7; 8])
              (Some [Fin 9; Fin 9; Fin 9]) None (1 # 2) (Fin 1) (Fin 1)
              overridden [9; 0; 0]%Q Hover Hpitch eq_refl eq_refl) as (c & Hc & Hat).
  destruct (Hat 1%nat [Fin 0; Fin 0; Fin 1; Fin 0] (Fin 0) eq_refl eq_refl eq_refl)
    as (y & Hy & _ & Hpos).
  exists c, y. split; [exact Hc|]. split; [exact Hy|]. apply Hpos; reflexivity.
Defined.

End ControlProperties.

(** ** The scripts *)

Module ScriptProperties.
Import ResultLemmas.

(** *** The entry point *)

Section EntryPoint.
Import RunTrainingPipeline.

Lemma getitem_keys (items : list (string * pipeline)) (key : string) :
  key ∈ keys items → ∃ run, getitem items key = Ok run ∧ (key, run) ∈ items.
Proof.
  induction items as [|[k v] items IH]; cbn [keys map fst getitem].
  - intros H. by apply elem_of_nil in H.
  - intros H. destruct (String.eqb_spec k key) as [->|Hne].
    + exists v. split; [done | apply list_elem_of_here].
    + apply elem_of_cons in H as [->|H]; [done|].
      destruct (IH H) as (run & Hrun & Hin). exists run. split; [done|].
      by apply list_elem_of_further.
Qed.

(** X18: the script never fails on the look-up of the pipeline, and does one
    of three things.  A name that is not registered is refused by the
    parser.  Fine-tuning without a checkpoint path and without [--resume]
    exits before the environment is touched.  Otherwise the registered
    pipeline of that name is run with the seven values of the command line
    as they are, [--finetune] together with [--resume] included even when
    no checkpoint path is given; [CUDA_VISIBLE_DEVICES] is set to [gpu_id],
    to the empty string with "cpu"; [CUDA_DEVICE_ORDER] is set to
    "PCI_BUS_ID" unless [gpu_id] is "cpu", in which case it is left as it
    was; every other variable of the environment is left as it was. *)
Theorem main_runs_the_registered_pipeline (args : arguments)
    (environ : gmap string string) :
  ∃ o,
    main args environ = Ok o
    ∧ (o = Usage ↔ args_pipeline args ∉ keys pipeline_dict)
    ∧ (o = SystemExit ↔
       args_pipeline args ∈ keys pipeline_dict
       ∧ finetune args = true ∧ resume_checkpoint args = None ∧ resume args = false)
    ∧ ∀ environ' d c,
        o = Run environ' d c →
        (args_pipeline args, callee c) ∈ pipeline_dict
        ∧ c = {| callee := callee c;
                 call_gpu_id := gpu_id args;
                 call_resume_checkpoint := resume_checkpoint args;
                 call_resume := resume args;
                 call_finetune := finetune args;
                 call_model_dir := model_save_dir args;
                 call_use_wandb := wandb args;
                 call_wandb_resume_id := wandb_resume_id args |}
        ∧ environ' !! "CUDA_VISIBLE_DEVICES"
          = Some (if String.eqb (gpu_id args) "cpu" then ""%string else gpu_id args)
        ∧ environ' !! "CUDA_DEVICE_ORDER"
          = (if String.eqb (gpu_id args) "cpu" then environ !! "CUDA_DEVICE_ORDER"
             else Some "PCI_BUS_ID"%string)
        ∧ (d = cpu ↔ gpu_id args = "cpu"%string)
        ∧ ∀ name, name ≠ "CUDA_VISIBLE_DEVICES"%string →
                  name ≠ "CUDA_DEVICE_ORDER"%string →
                  environ' !! name = environ !! name.
Proof.
  unfold main.
  destruct (decide (args_pipeline args ∈ keys pipeline_dict)) as [Hin|Hout].
  2:{ rewrite bool_decide_eq_false_2 by done. cbn [negb].
      exists Usage. split_and!; [done | done | | done].
      split; [discriminate | by intros (? & _)]. }
  rewrite bool_decide_eq_true_2 by done. cbn [negb].
  destruct (finetune args && bool_decide (resume_checkpoint args = None)
            && negb (resume args)) eqn:Hguard.
  - exists SystemExit. split_and!; [done | | | done].
    + split; [discriminate | done].
    + split; [|done]. intros _.
      apply andb_true_iff in Hguard as [[Hf Hc]%andb_true_iff Hr].
      apply bool_decide_eq_true in Hc. apply negb_true_iff in Hr. done.
  - destruct (getitem_keys pipeline_dict (args_pipeline args) Hin) as (run & Hrun & Hreg).
    assert (Hnot : ¬ (finetune args = true ∧ resume_checkpoint args = None
                      ∧ resume args = false)).
    { intros (Hf & Hc & Hr). rewrite Hf, Hr, bool_decide_eq_true_2 in Hguard by done.
      discriminate. }
    destruct (String.eqb_spec (gpu_id args) "cpu") as [Hcpu|Hgpu];
      rewrite Hrun; cbn [rbind]; eexists; (split; [reflexivity|]);
      (split_and!; [split; [discriminate | done] | split; [discriminate | tauto] |]);
      intros environ' d c [= <- <- <-]; cbn [callee];
      (split_and!; [exact Hreg | reflexivity | | | | ]).
    + by rewrite lookup_insert_eq.
    + by rewrite lookup_insert_ne.
    + done.
    + intros name Hn _. by rewrite lookup_insert_ne.
    + by rewrite lookup_insert_eq.
    + by rewrite lookup_insert_ne, lookup_insert_eq.
    + split; [discriminate | done].
    + intros name Hn1 Hn2. by rewrite !lookup_insert_ne.
Qed.

End EntryPoint.

Lemma main_witness :
  ∃ environ c,
    RunTrainingPipeline.main
      {| RunTrainingPipeline.args_pipeline := "meta";
         RunTrainingPipeline.gpu_id := "3";
         RunTrainingPipeline.resume_checkpoint := None;
         RunTrainingPipeline.resume := true;
         RunTrainingPipeline.finetune := true;
         RunTrainingPipeline.model_save_dir := None;
         RunTrainingPipeline.wandb := false;
         RunTrainingPipeline.wandb_resume_id := None |} ∅
    = Ok (RunTrainingPipeline.Run environ RunTrainingPipeline.cuda c)
    ∧ environ !! "CUDA_VISIBLE_DEVICES" = Some "3"%string
    ∧ environ !! "CUDA_DEVICE_ORDER" = Some "PCI_BUS_ID"%string
    ∧ RunTrainingPipeline.call_finetune c = true
    ∧ RunTrainingPipeline.call_resume_checkpoint c = None.
Proof.
  destruct (main_runs_the_registered_pipeline
              {| RunTrainingPipeline.args_pipeline := "meta";
                 RunTrainingPipeline.gpu_id := "3";
                 RunTrainingPipeline.resume_checkpoint := None;
                 RunTrainingPipeline.resume := true;
                 RunTrainingPipeline.finetune := true;
                 RunTrainingPipeline.model_save_dir := None;
                 RunTrainingPipeline.wandb := false;
                 RunTrainingPipeline.wandb_resume_id := None |} ∅)
    as (o & Ho & _ & _ & Hrun).
  vm_compute in Ho. injection Ho as <-.
  edestruct Hrun as (_ & Hc & Henv & Horder & _); [reflexivity|].
  eexists. eexists. split; [reflexivity|]. split; [exact Henv|].
  split; [exact Horder|]. split; reflexivity.
Defined.

(** *** The split into training and validation files *)

Section Vocoder.
Import PipelineMelGANCombined.

Lemma split_parts {A : Type} (n : nat) (l : list A) :
  up_to_last n l ++ last_n n l = l
  ∧ length (up_to_last n l) = (length l - n)%nat
  ∧ length (last_n n l) = Nat.min n (length l).
Proof.
  unfold up_to_last, last_n. rewrite take_drop, length_take, length_drop.
  split_and!; [done | lia | lia].
Qed.

Lemma parts_within {A : Type} (n : nat) (l : list A) (x : A) :
  (x ∈ up_to_last n l → x ∈ l) ∧ (x ∈ last_n n l → x ∈ l).
Proof.
  destruct (split_parts n l) as (Hl & _). rewrite <- Hl at 2 4.
  split; intros H; apply elem_of_app; auto.
Qed.

Lemma concat_parts_within {A : Type} (n : nat) (ls : list (list A)) (x : A) :
  (x ∈ concat (map (up_to_last n) ls) → x ∈ concat ls)
  ∧ (x ∈ concat (map (last_n n) ls) → x ∈ concat ls).
Proof.
  induction ls as [|l ls [IH1 IH2]]; [done|]. cbn [map concat].
  destruct (parts_within n l x) as [H1 H2].
  split; intros [H|H]%elem_of_app; apply elem_of_app; auto.
Qed.

Lemma concat_parts_disjoint {A : Type} (n : nat) (ls : list (list A)) (x : A) :
  NoDup (concat ls) →
  x ∈ concat (map (up_to_last n) ls) → x ∉ concat (map (last_n n) ls).
Proof.
  induction ls as [|l ls IH]; cbn [map concat]; [by intros _ H%elem_of_nil|].
  intros (Hl & Hcross & Hrest)%NoDup_app.
  destruct (split_parts n l) as (Hparts & _).
  destruct (parts_within n l x) as [Hup Hlast].
  destruct (concat_parts_within n ls x) as [Hups Hlasts].
  intros [H1|H1]%elem_of_app [H2|H2]%elem_of_app.
  - rewrite <- Hparts in Hl. apply NoDup_app in Hl as (_ & Hdis & _). by apply (Hdis x).
  - by apply (Hcross x); auto.
  - by apply (Hcross x); auto.
  - by apply IH.
Qed.

Lemma concat_parts_length {A : Type} (n : nat) (ls : list (list A)) :
  (length (concat (map (up_to_last n) ls)) + length (concat (map (last_n n) ls))
   = length (concat ls))%nat
  ∧ (length (concat (map (last_n n) ls)) ≤ n * length ls)%nat.
Proof.
  induction ls as [|l ls [IH1 IH2]]; [cbn; lia|]. cbn [map concat length].
  rewrite !length_app. destruct (split_parts n l) as (Hl & Hup & Hlast).
  split; lia.
Qed.

Variable get_file_list : corpus → list string.

(** X19: the last 50 files of every corpus are kept for validation and the
    files before them go to training: the two parts make up the file list
    of the corpus, in its order, and a corpus of at most 50 files gives no
    training file at all.  Over the twelve corpora every file is in one of
    the two sets; when no file is listed twice no validation file is
    trained on, and there are at most 600 validation files. *)
Theorem validation_files_are_held_out :
  (∀ c,
      train_paths get_file_list c ++ valid_paths get_file_list c = get_file_list c
      ∧ length (valid_paths get_file_list c) = Nat.min 50 (length (get_file_list c))
      ∧ ((length (get_file_list c) ≤ 50)%nat →
         train_paths get_file_list c = []
         ∧ valid_paths get_file_list c = get_file_list c))
  ∧ (length (concat (train_set get_file_list)) + length (concat (valid_set get_file_list))
     = length (concat (map get_file_list corpora)))%nat
  ∧ (length (concat (valid_set get_file_list)) ≤ 600)%nat
  ∧ (NoDup (concat (map get_file_list corpora)) →
     ∀ path,
       path ∈ concat (train_set get_file_list) →
       path ∉ concat (valid_set get_file_list)).
Proof.
  assert (Htrain : train_set get_file_list
                   = map (up_to_last 50) (map get_file_list corpora)).
  { unfold train_set. by rewrite map_map. }
  assert (Hvalid : valid_set get_file_list
                   = map (last_n 50) (map get_file_list corpora)).
  { unfold valid_set. by rewrite map_map. }
  rewrite Htrain, Hvalid.
  destruct (concat_parts_length 50 (map get_file_list corpora)) as [Hsum Hmax].
  split_and!.
  - intros c. unfold train_paths, valid_paths.
    destruct (split_parts 50 (get_file_list c)) as (Hl & Hup & Hlast).
    split_and!; [done | done |]. intros Hfew.
    assert (Hnil : up_to_last 50 (get_file_list c) = []).
    { apply length_zero_iff_nil. lia. }
    split; [done|]. by rewrite Hnil in Hl.
  - exact Hsum.
  - rewrite length_map in Hmax. exact Hmax.
  - intros Hnd path. by apply concat_parts_disjoint.
Qed.

End Vocoder.

(** One corpus of 60 files, the other corpora empty. *)
Definition example_file_list (c : PipelineMelGANCombined.corpus) : list string :=
  match c with
  | PipelineMelGANCombined.ljspeech =>
      map (fun i => String (Ascii.ascii_of_nat i) EmptyString) (seq 65 60)
  | _ => []
  end.

Lemma validation_files_witness :
  "A"%string ∉ concat (PipelineMelGANCombined.valid_set example_file_list).
Proof.
  destruct (validation_files_are_held_out example_file_list) as (_ & _ & _ & H).
  apply H.
  - apply (bool_decide_unpack _). vm_compute. exact I.
  - apply (bool_decide_unpack _). vm_compute. exact I.
Defined.

End ScriptProperties.

(** ** The stored configuration, argument by argument *)

Module ConfigRecords.
Import ToucanTTS.

(** X20: the configuration stored by the constructor records 41 of the 43
    arguments under their own names, with the values they were given: all
    but [codebook_dim] and [codebook_size], the last two items of the
    display.  These two are written under the one key "codebook_dim", which
    ends up with the value of [codebook_size]; there is no key
    "codebook_size", and the configuration has the 42 keys of the display
    and no other. *)
Theorem config_records_the_other_arguments (a : arguments) :
  length (config_items a) = 43%nat
  ∧ (∀ i key value,
        (i < 41)%nat → config_items a !! i = Some (key, value) →
        key ≠ "codebook_dim"%string
        ∧ key ≠ "codebook_size"%string
        ∧ config (init_attributes a) !! key = Some value)
  ∧ config_items a !! 41%nat = Some ("codebook_dim"%string, PyInt (codebook_dim a))
  ∧ config_items a !! 42%nat = Some ("codebook_dim"%string, PyInt (codebook_size a))
  ∧ config (init_attributes a) !! "codebook_dim" = Some (PyInt (codebook_size a))
  ∧ config (init_attributes a) !! "codebook_size" = None
  ∧ size (config (init_attributes a)) = 42%nat
  ∧ ∀ key, is_Some (config (init_attributes a) !! key) ↔ key ∈ map fst (config_items a).
Proof.
  split_and!.
  - reflexivity.
  - intros i key value Hi Hitem.
    do 41 (destruct i as [|i];
           [injection Hitem as <- <-; split_and!; [done | done | by vm_compute]|]).
    lia.
  - reflexivity.
  - reflexivity.
  - by vm_compute.
  - by vm_compute.
  - vm_compute. reflexivity.
  - intros key. unfold init_attributes, config, dict_display.
    generalize (config_items a). intros items.
    assert (H : ∀ (d : gmap string pyval),
               is_Some (foldl (fun d kv => <[kv.1 := kv.2]> d) d items !! key)
               ↔ is_Some (d !! key) ∨ key ∈ map fst items).
    { induction items as [|[k v] items IH]; intros d; cbn [foldl map fst snd].
      - rewrite elem_of_nil. tauto.
      - rewrite IH, elem_of_cons. destruct (decide (k = key)) as [->|Hne].
        + rewrite lookup_insert_eq. split; [auto | intros _; left; eauto].
        + rewrite lookup_insert_ne by done. split; [tauto|].
          intros [H|[H|H]]; [tauto | congruence | tauto]. }
    rewrite H, lookup_empty. split; [intros [[? ?]|?]; done | auto].
Qed.

Lemma config_records_witness :
  config (init_attributes defaults) !! "num_codebooks" = Some (PyInt 9).
Proof.
  destruct (config_records_the_other_arguments defaults) as (_ & H & _).
  apply (H 40%nat "num_codebooks"%string (PyInt 9)); [lia | reflexivity].
Defined.

End ConfigRecords.
